(** * A radix tree (compressed trie) in Go, embedded in Rocq

    Shallow embedding of [trie.go]: the pointer-linked node/edge graph is a
    tree with exclusive ownership, so it is modelled as an inductive value;
    in-place mutation along the walk becomes rebuilding of the path.

    - A Go [map[byte]*edge] is an association list with distinct keys.  The
      order of the list stands for one iteration order of the map; a [nil]
      map ([None]) is kept apart from an empty one, because [delete] in the
      source tests [node.edges == nil].
    - A [[]byte] is a [list byte]; the optional payload of a node is
      [option (list byte)], [None] being the [nil] slice.
    - Run-time faults (nil dereference, slice bounds) are explicit results.
    - Edge labels are treated as values.  The source builds a merged label
      with [append(currEdge.label, v.label...)], which may write in place
      behind [currEdge.label]; the bytes behind a label in its backing array
      are either the label of its only child (re-written with the same
      bytes) or belong to an edge that has been unlinked. *)

From Stdlib Require Import List Arith Bool Lia Permutation Sorted.
From Stdlib Require Import Strings.Byte.
From Stdlib Require Strings.String.
Import ListNotations.
Import String.StringSyntax.
Delimit Scope string_scope with string.

Set Implicit Arguments.

(** ** Byte strings and results *)

Abbreviation bytes := (list byte).

Definition bstr (s : String.string) : bytes := String.list_byte_of_string s.

Inductive panic : Type :=
| NilDereference
| SliceBounds
| IndexRange
| NilMapWrite.

Inductive result (A : Type) : Type :=
| Ok (a : A)
| Panic (p : panic)
| OutOfFuel.

Arguments Ok {A} a.
Arguments Panic {A} p.
Arguments OutOfFuel {A}.

Definition bind {A B} (r : result A) (f : A -> result B) : result B :=
  match r with
  | Ok a => f a
  | Panic p => Panic p
  | OutOfFuel => OutOfFuel
  end.

Notation "x <- r ;; k" := (bind r (fun x => k))
  (at level 61, r at next level, right associativity).

(** [s[0]], [s[i:]] and [s[:i]] with Go's bounds checks ([s[:i]] is checked
    against the length, which is at most the capacity Go checks). *)
Definition index0 (s : bytes) : result byte :=
  match s with
  | [] => Panic IndexRange
  | b :: _ => Ok b
  end.

Definition slice_from (s : bytes) (i : nat) : result bytes :=
  if i <=? length s then Ok (skipn i s) else Panic SliceBounds.

Definition slice_to (s : bytes) (i : nat) : result bytes :=
  if i <=? length s then Ok (firstn i s) else Panic SliceBounds.

(** ** Data model *)

Record edge_of (N : Type) : Type := mkEdge { label : bytes; next : N }.

#[warnings="-register-all"]
Inductive node : Type :=
  Node (isLeaf : bool) (edges : option (list (byte * edge_of node)))
       (data : option bytes).

Abbreviation edge := (edge_of node).
Abbreviation emap := (option (list (byte * edge))).

Definition isLeaf (n : node) : bool := let 'Node l _ _ := n in l.
Definition edges (n : node) : emap := let 'Node _ m _ := n in m.
Definition data (n : node) : option bytes := let 'Node _ _ d := n in d.

Record Trie : Type := mkTrie { root : node; sorted : bool }.

(** ** Maps keyed by a byte *)

Section ByteMap.
Variable V : Type.

Fixpoint map_get (m : list (byte * V)) (k : byte) : option V :=
  match m with
  | [] => None
  | (k', v) :: m' => if Byte.eqb k' k then Some v else map_get m' k
  end.

(** [m[k] = v]: an existing entry is overwritten where it is. *)
Fixpoint map_set (m : list (byte * V)) (k : byte) (v : V) : list (byte * V) :=
  match m with
  | [] => [(k, v)]
  | (k', v') :: m' =>
      if Byte.eqb k' k then (k', v) :: m' else (k', v') :: map_set m' k v
  end.

Fixpoint map_del (m : list (byte * V)) (k : byte) : list (byte * V) :=
  match m with
  | [] => []
  | (k', v') :: m' =>
      if Byte.eqb k' k then map_del m' k else (k', v') :: map_del m' k
  end.
End ByteMap.

(** The entries of a possibly nil map: ranging over, reading from and taking
    the length of a nil map behave as for an empty one. *)
Definition elems (m : emap) : list (byte * edge) :=
  match m with
  | None => []
  | Some l => l
  end.

Definition emap_get (m : emap) (k : byte) : option edge := map_get (elems m) k.

Definition emap_len (m : emap) : nat := length (elems m).

(** The builtin [delete(m, k)]: nothing happens on a nil map. *)
Definition emap_del (m : emap) (k : byte) : emap :=
  match m with
  | None => None
  | Some l => Some (map_del l k)
  end.

(** [m[k] = e]: an assignment to an entry of a nil map panics. *)
Definition emap_set (m : emap) (k : byte) (e : edge) : result emap :=
  match m with
  | None => Panic NilMapWrite
  | Some l => Ok (Some (map_set l k e))
  end.

Definition is_nil (m : emap) : bool :=
  match m with
  | None => true
  | Some _ => false
  end.

(** ** NewTrie, Sorted *)

Definition NewTrie : Trie :=
  {| root := Node false (Some []) None; sorted := false |}.

Definition Sorted (t : Trie) (s : bool) : Trie :=
  {| root := root t; sorted := s |}.

(** ** getFirstMismatch *)

(** The loop [for i := 0; i < len(current); i++]; [label] is at least as
    long as [current], so [label[i]] is in range. *)
Fixpoint mismatchLoop (current label : bytes) (i : nat) : nat :=
  match current, label with
  | c :: current', l :: label' =>
      if Byte.eqb c l then mismatchLoop current' label' (S i) else i
  | _, _ => i
  end.

Definition getFirstMismatch (current label : bytes) : nat :=
  if length label <? length current
  then mismatchLoop label current 0
  else mismatchLoop current label 0.

(** ** InsertItem *)

(** One run of the [for len(bPref) > 0] loop from [cur]; the result is [cur]
    after the mutations made below it.  [fuel] bounds the iterations. *)
Fixpoint insertLoop (fuel : nat) (cur : node) (bPref : bytes)
         (d : option bytes) : result node :=
  match bPref with
  | [] => Ok cur
  | k :: _ =>
      match fuel with
      | 0 => OutOfFuel
      | S fuel' =>
          let m := elems (edges cur) in
          match map_get m k with
          | None =>
              Ok (Node (isLeaf cur)
                       (Some (map_set m k
                                {| label := bPref; next := Node true None d |}))
                       (data cur))
          | Some currEdge =>
              let curStrLen := length bPref in
              let labelLen := length (label currEdge) in
              curStr <- (if labelLen <? curStrLen
                         then slice_to bPref labelLen else Ok bPref) ;;
              let splitIdx := getFirstMismatch curStr (label currEdge) in
              currEdge <-
                (if negb (splitIdx =? labelLen) then
                   tail <- slice_from (label currEdge) splitIdx ;;
                   lab <- slice_to (label currEdge) splitIdx ;;
                   t0 <- index0 tail ;;
                   Ok {| label := lab;
                         next := Node false
                                   (Some (map_set [] t0
                                            {| label := tail;
                                               next := next currEdge |}))
                                   None |}
                 else Ok currEdge) ;;
              let nxt :=
                if length bPref =? length (label currEdge)
                then Node true (edges (next currEdge)) d
                else next currEdge in
              rest <- slice_from bPref splitIdx ;;
              nxt' <- insertLoop fuel' nxt rest d ;;
              Ok (Node (isLeaf cur)
                       (Some (map_set m k
                                {| label := label currEdge; next := nxt' |}))
                       (data cur))
          end
      end
  end.

(** Every iteration on a well-formed tree consumes at least one byte of the
    key, so [length key] iterations are enough. *)
Definition InsertItem (t : Trie) (key : bytes) (d : option bytes)
  : result Trie :=
  r <- insertLoop (length key) (root t) key d ;;
  Ok {| root := r; sorted := sorted t |}.

(** ** getNode, HasItem, GetItem, Set *)

(** The loop of [getNode], from [cur] ([t.root] at the start).  It follows
    one edge per iteration, so it is written by recursion on the node, the
    map lookup being the inner loop; [getNode_cons] below states it with
    [emap_get]. *)
Fixpoint getNode (cur : node) (bPref : bytes) {struct cur} : option node :=
  match bPref with
  | [] => Some cur
  | b :: _ =>
      match cur with
      | Node _ None _ => None
      | Node _ (Some m) _ =>
          (fix lookup (l : list (byte * edge)) : option node :=
             match l with
             | [] => None
             | (k, e) :: l' =>
                 if Byte.eqb k b then
                   let splitIdx := getFirstMismatch bPref (label e) in
                   if negb (splitIdx =? length (label e)) then None
                   else getNode (next e) (skipn splitIdx bPref)
                 else lookup l'
             end) m
      end
  end.

Definition HasItem (t : Trie) (key : bytes) : bool :=
  match getNode (root t) key with
  | Some n => isLeaf n
  | None => false
  end.

Definition GetItem (t : Trie) (key : bytes) : result (option bytes) :=
  match getNode (root t) key with
  | Some n => Ok (data n)
  | None => Panic NilDereference
  end.

(** The node [getNode] returns is a pointer into the tree; [Set] writes its
    [data] field through that pointer.  [setNode] is the same walk as
    [getNode], returning the tree with the node it reaches replaced by its
    image under [f]. *)
Fixpoint setNode (f : node -> node) (cur : node) (bPref : bytes)
         {struct cur} : option node :=
  match bPref with
  | [] => Some (f cur)
  | b :: _ =>
      match cur with
      | Node _ None _ => None
      | Node lf (Some m) d =>
          option_map (fun m' => Node lf (Some m') d)
            ((fix lookup (l : list (byte * edge))
              : option (list (byte * edge)) :=
                match l with
                | [] => None
                | (k, e) :: l' =>
                    if Byte.eqb k b then
                      let splitIdx := getFirstMismatch bPref (label e) in
                      if negb (splitIdx =? length (label e)) then None
                      else
                        option_map
                          (fun n' => (k, {| label := label e; next := n' |}) :: l')
                          (setNode f (next e) (skipn splitIdx bPref))
                    else option_map (cons (k, e)) (lookup l')
                end) m)
      end
  end.

Definition Set_ (t : Trie) (key : bytes) (d : option bytes) : result Trie :=
  match setNode (fun n => Node (isLeaf n) (edges n) d) (root t) key with
  | Some r => Ok {| root := r; sorted := sorted t |}
  | None => Panic NilDereference
  end.

(** ** DeleteItem *)

(** What [delete] does once the recursive call on [currEdge.next] has
    returned [deleted]; [n] is the node of the call, [isRoot] stands for
    [node == t.root]. *)
Definition deleteUnwind (isRoot : bool) (n : node) (k0 : byte)
           (currEdge : edge) (deleted : option node) : result (option node) :=
  match deleted with
  | None =>
      let m := emap_del (edges n) k0 in
      if (emap_len m =? 0) && negb (isLeaf n) && negb isRoot
      then Ok None
      else Ok (Some (Node (isLeaf n) m (data n)))
  | Some dn =>
      if (emap_len (edges dn) =? 1) && negb (isLeaf dn) then
        m <- fold_left
               (fun (acc : result emap) (kv : byte * edge) =>
                  m <- acc ;;
                  emap_set m k0
                    {| label := label currEdge ++ label (snd kv);
                       next := next (snd kv) |})
               (elems (edges dn))
               (Ok (emap_del (edges n) k0)) ;;
        Ok (Some (Node (isLeaf n) m (data n)))
      else
        (* [currEdge.next] was mutated in place *)
        Ok (Some (Node (isLeaf n)
                       (option_map
                          (fun l => map_set l k0
                                      {| label := label currEdge; next := dn |})
                          (edges n))
                       (data n)))
  end.

(** [delete], by recursion on the node as the source; the map lookup is the
    inner loop ([delete_cons] states it with [emap_get]). *)
Fixpoint delete (isRoot : bool) (n : node) (key : bytes) {struct n}
  : result (option node) :=
  match key with
  | [] =>
      if is_nil (edges n) && negb isRoot then Ok None
      else Ok (Some (Node false (edges n) (data n)))
  | k0 :: _ =>
      match n with
      | Node _ None _ => Ok (Some n)
      | Node _ (Some m) _ =>
          (fix lookup (l : list (byte * edge)) : result (option node) :=
             match l with
             | [] => Ok (Some n)
             | (k, currEdge) :: l' =>
                 if Byte.eqb k k0 then
                   rest <- slice_from key (length (label currEdge)) ;;
                   deleted <- delete false (next currEdge) rest ;;
                   deleteUnwind isRoot n k0 currEdge deleted
                 else lookup l'
             end) m
      end
  end.

(** [t.root = t.delete(t.root, key)]; for the root [delete] never returns
    nil ([delete_root_not_nil]), which would leave the trie without a root. *)
Definition DeleteItem (t : Trie) (key : bytes) : result Trie :=
  r <- delete true (root t) key ;;
  match r with
  | Some n => Ok {| root := n; sorted := sorted t |}
  | None => Panic NilDereference
  end.

(** ** Keys *)

(** The loop of [startsWith], from [cur] ([startsWithFrom_cons] states it
    with [emap_get]). *)
Fixpoint startsWithFrom (prefix : bytes) (cur : node) (bPref : bytes)
         {struct cur} : option node * bytes :=
  match bPref with
  | [] => (Some cur, prefix)
  | b :: _ =>
      match cur with
      | Node _ None _ => (None, [])
      | Node _ (Some m) _ =>
          (fix lookup (l : list (byte * edge)) : option node * bytes :=
             match l with
             | [] => (None, [])
             | (k, e) :: l' =>
                 if Byte.eqb k b then
                   let splitIdx := getFirstMismatch bPref (label e) in
                   if negb (splitIdx =? length (label e)) then
                     if splitIdx =? length bPref
                     then (Some (next e), prefix ++ skipn splitIdx (label e))
                     else (None, [])
                   else startsWithFrom prefix (next e) (skipn splitIdx bPref)
                 else lookup l'
             end) m
      end
  end.

Definition startsWith (t : Trie) (prefix : bytes) : option node * bytes :=
  startsWithFrom prefix (root t) prefix.

(** [Keys] calls itself on the whole trie with a longer prefix; [fuel]
    bounds the depth of these calls.  [range node.edges] takes the edges
    in an order that Go does not fix; the fold takes them in the order of
    the list, so the result is one of the orders the program can give, and
    what is proved of it is proved up to the order of the list. *)
Fixpoint KeysRec (fuel : nat) (t : Trie) (prefix : bytes)
  : result (list bytes) :=
  match fuel with
  | 0 => OutOfFuel
  | S fuel' =>
      match startsWith t prefix with
      | (None, _) => Ok []
      | (Some n, pref) =>
          fold_left
            (fun (acc : result (list bytes)) (kv : byte * edge) =>
               keys <- acc ;;
               sub <- KeysRec fuel' t (pref ++ label (snd kv)) ;;
               Ok (keys ++ sub))
            (elems (edges n))
            (Ok (if isLeaf n then [pref] else []))
      end
  end.

(** The number of edges on the longest path down from [n]. *)
Fixpoint height (n : node) : nat :=
  match n with
  | Node _ m _ =>
      match m with
      | None => 0
      | Some l =>
          (fix over (l : list (byte * edge)) : nat :=
             match l with
             | [] => 0
             | (_, e) :: l' => Nat.max (S (height (next e))) (over l')
             end) l
      end
  end.

(** The calls of [Keys] nest no deeper than the tree. *)
Definition Keys (t : Trie) (prefix : bytes) : result (list bytes) :=
  KeysRec (S (height (root t))) t prefix.

(** ** Traverse *)

Fixpoint insertSorted (k : byte) (l : list byte) : list byte :=
  match l with
  | [] => [k]
  | k' :: l' =>
      if to_nat k <=? to_nat k' then k :: l else k' :: insertSorted k l'
  end.

(** [sort.Slice(keys, func(i, j) bool { return keys[i] < keys[j] })]: the
    ascending rearrangement of [keys], which is unique for bytes. *)
Definition sortSlice (l : list byte) : list byte :=
  fold_right insertSorted [] l.

Definition keys (m : emap) (srt : bool) : list byte :=
  let ks := map fst (elems m) in
  if srt then sortSlice ks else ks.

Section Traverse.
(** The callback may have effects of its own: it threads a state [St];
    [Err] is the type of its non-nil errors. *)
Variables St Err : Type.

Definition TFunc : Type :=
  nat -> bytes -> option bytes -> bool -> St -> St * (bool * option Err).

(** [for _, k := range keys { err = body(k); if err != nil { return err } }
    return nil] *)
Fixpoint forKeys (body : byte -> St -> result (St * option Err))
         (ks : list byte) (s : St) : result (St * option Err) :=
  match ks with
  | [] => Ok (s, None)
  | k :: ks' =>
      r <- body k s ;;
      match r with
      | (s', Some err) => Ok (s', Some err)
      | (s', None) => forKeys body ks' s'
      end
  end.

Fixpoint traverse (fuel : nat) (srt : bool) (n : option node) (step : nat)
         (path : bytes) (fn : TFunc) (s : St) : result (St * option Err) :=
  match fuel with
  | 0 => OutOfFuel
  | S fuel' =>
      match n with
      | None => Ok (s, None)
      | Some nd =>
          let '(s1, (continue, err)) :=
            fn step path (data nd) (isLeaf nd) s in
          match err with
          | Some e => Ok (s1, Some e)
          | None =>
              if negb continue then Ok (s1, None)
              else
                forKeys
                  (fun k s =>
                     match emap_get (edges nd) k with
                     | None => Panic NilDereference
                     | Some e =>
                         traverse fuel' srt (Some (next e)) (step + 1)
                                  (path ++ label e) fn s
                     end)
                  (keys (edges nd) srt) s1
          end
      end
  end.

(** The recursion of [traverse] is as deep as the tree. *)
Definition Traverse (t : Trie) (fn : TFunc) (s : St)
  : result (St * option Err) :=
  traverse (S (height (root t))) (sorted t) (Some (root t)) 0 [] fn s.
End Traverse.

(** * Specification vocabulary *)

Unset Implicit Arguments.

(** The definitions the properties are stated with: none of them is part
    of the program. *)

Definition bytes_eq_dec : forall a b : bytes, {a = b} + {a <> b} :=
  list_eq_dec byte_eq_dec.

(** Two rests that part at their first byte, unless one of them is empty:
    what is left of two byte strings behind their longest common prefix. *)
Definition diverge (ra rb : bytes) : Prop :=
  match ra, rb with
  | x :: _, y :: _ => x <> y
  | _, _ => True
  end.

(** [strip lab s] is the test and the slice of the lookup loops: the rest of
    [s] behind [lab] when the whole label matches. *)
Definition strip (lab s : bytes) : option bytes :=
  let splitIdx := getFirstMismatch s lab in
  if negb (splitIdx =? length lab) then None else Some (skipn splitIdx s).

(** The invariant every operation keeps: the keys of a map are distinct,
    every label is non-empty and filed under its first byte. *)
Inductive wf : node -> Prop :=
| wf_node l m d :
    NoDup (map fst (elems m)) ->
    (forall k e, In (k, e) (elems m) -> exists lab, label e = k :: lab) ->
    (forall k e, In (k, e) (elems m) -> wf (next e)) ->
    wf (Node l m d).

(** [wf] and [stored] for the result of [delete], a node or nil. *)
Definition wf_opt (o : option node) : Prop :=
  match o with
  | Some n => wf n
  | None => True
  end.

(** The value filed under a key in the tree below [n], if any. *)
Definition stored (n : node) (k : bytes) : option (option bytes) :=
  match getNode n k with
  | Some m => if isLeaf m then Some (data m) else None
  | None => None
  end.

Definition stored_opt (o : option node) (k : bytes) : option (option bytes) :=
  match o with
  | Some n => stored n k
  | None => None
  end.

(** The node an iteration moves to: the target of the edge, or the node put
    in the middle of the edge when only [p] of its label [p ++ tail]
    matched; it is marked when the key ends there. *)
Definition splitNode (tail : bytes) (nx : node) : node :=
  match tail with
  | [] => nx
  | t0 :: _ => Node false (Some [(t0, {| label := tail; next := nx |})]) None
  end.

(** [currEdge.next.isLeaf = true; currEdge.next.data = data], done when
    nothing of the key is left behind the edge. *)
Definition markLeaf (rest : bytes) (d : option bytes) (n : node) : node :=
  match rest with
  | [] => Node true (edges n) d
  | _ :: _ => n
  end.

(** The states a client can get to: every public operation that changes
    the trie and returns. *)
Inductive reachable : Trie -> Prop :=
| reach_new : reachable NewTrie
| reach_sorted t s : reachable t -> reachable (Sorted t s)
| reach_insert t k d t' :
    reachable t -> InsertItem t k d = Ok t' -> reachable t'
| reach_delete t k t' :
    reachable t -> DeleteItem t k = Ok t' -> reachable t'
| reach_set t k d t' :
    reachable t -> Set_ t k d = Ok t' -> reachable t'.

(** What holds of the root of every reachable trie ([reachable_wf]). *)
Definition wf_trie (t : Trie) : Prop :=
  wf (root t) /\ isLeaf (root t) = false.

(** Keys and values of the examples. *)
Definition key_a : bytes := bstr "a"%string.
Definition key_ab : bytes := bstr "ab"%string.
Definition key_ac : bytes := bstr "ac"%string.
Definition key_abc : bytes := bstr "abc"%string.
Definition key_abd : bytes := bstr "abd"%string.
Definition val_x : option bytes := Some (bstr "x"%string).
Definition val_y : option bytes := Some (bstr "y"%string).
Definition val_z : option bytes := Some (bstr "z"%string).

(** The public operations that change a trie, and the trie a run of them
    makes of [NewTrie]; a run in which an operation faults has none. *)
Inductive op : Type :=
| OpInsert (k : bytes) (d : option bytes)
| OpDelete (k : bytes)
| OpSet (k : bytes) (d : option bytes)
| OpSorted (s : bool).

Definition apply_op (t : Trie) (o : op) : result Trie :=
  match o with
  | OpInsert k d => InsertItem t k d
  | OpDelete k => DeleteItem t k
  | OpSet k d => Set_ t k d
  | OpSorted s => Ok (Sorted t s)
  end.

Definition run (ops : list op) : result Trie :=
  fold_left (fun r o => t <- r ;; apply_op t o) ops (Ok NewTrie).

(** A node is compact when it is a leaf or has at least two outgoing
    edges. *)
Definition nodeCompact (c : node) : bool :=
  isLeaf c || (2 <=? emap_len (edges c)).

(** The invariant of C7, on the nodes below [n] ([n] itself, the root, is
    exempt): none is a non-leaf with at most one outgoing edge. *)
Fixpoint compactBelow (n : node) : bool :=
  match n with
  | Node _ None _ => true
  | Node _ (Some l) _ =>
      (fix all (l : list (byte * edge)) : bool :=
         match l with
         | [] => true
         | (_, e) :: l' =>
             nodeCompact (next e) && compactBelow (next e) && all l'
         end) l
  end.

(** The keys below [n], each behind [pref], in the order [Keys] finds
    them. *)
Fixpoint allKeys (n : node) (pref : bytes) {struct n} : list bytes :=
  match n with
  | Node lf m _ =>
      (if lf then [pref] else []) ++
      match m with
      | None => []
      | Some l =>
          (fix over (l : list (byte * edge)) : list bytes :=
             match l with
             | [] => []
             | (_, e) :: l' => allKeys (next e) (pref ++ label e) ++ over l'
             end) l
      end
  end.

(** The order [sort.Slice] is called with: [keys[i] < keys[j]]. *)
Definition byte_lt (a b : byte) : Prop := to_nat a < to_nat b.

(** Two trees with the same nodes and the same edges, whatever the order in
    which their maps hold them (a nil map has the entries of an empty
    one). *)
Inductive equiv : node -> node -> Prop :=
| equiv_node l d m1 m2 :
    (forall k, emap_get m1 k = None <-> emap_get m2 k = None) ->
    (forall k e1 e2, emap_get m1 k = Some e1 -> emap_get m2 k = Some e2 ->
                     label e1 = label e2) ->
    (forall k e1 e2, emap_get m1 k = Some e1 -> emap_get m2 k = Some e2 ->
                     equiv (next e1) (next e2)) ->
    equiv (Node l m1 d) (Node l m2 d).

Fixpoint bytes_eqb (a b : bytes) : bool :=
  match a, b with
  | [], [] => true
  | x :: a', y :: b' => Byte.eqb x y && bytes_eqb a' b'
  | _, _ => false
  end.

Definition data_eqb (a b : option bytes) : bool :=
  match a, b with
  | None, None => true
  | Some x, Some y => bytes_eqb x y
  | _, _ => false
  end.

(** A test that is sound for [equiv] ([equivb_sound]). *)
Fixpoint equivb (n1 n2 : node) {struct n1} : bool :=
  match n1 with
  | Node l1 m1 d1 =>
      Bool.eqb l1 (isLeaf n2) && data_eqb d1 (data n2) &&
      forallb (fun kv => match map_get (elems m1) (fst kv) with
                         | Some _ => true
                         | None => false
                         end) (elems (edges n2)) &&
      match m1 with
      | None => true
      | Some es =>
          (fix all (es : list (byte * edge)) : bool :=
             match es with
             | [] => true
             | (k, e1) :: es' =>
                 match emap_get (edges n2) k with
                 | Some e2 =>
                     bytes_eqb (label e1) (label e2) &&
                     equivb (next e1) (next e2)
                 | None => false
                 end && all es'
             end) es
      end
  end.

(** The arguments of one call of the callback, and the callback that
    writes them down and goes on. *)
Definition call : Type := nat * bytes * option bytes * bool.

Definition record : TFunc (list call) unit :=
  fun step path d lf log => (log ++ [(step, path, d, lf)], (true, None)).

(** The tries built by insertions alone. *)
Inductive inserted : Trie -> Prop :=
| inserted_new : inserted NewTrie
| inserted_sorted t s : inserted t -> inserted (Sorted t s)
| inserted_insert t k d t' :
    inserted t -> InsertItem t k d = Ok t' -> inserted t'.

(** Below a node: every node is a leaf or branches, and a node that is not
    a leaf carries no data. *)
Inductive canonBelow : node -> Prop :=
| canon_node l m d :
    (forall k e, In (k, e) (elems m) -> nodeCompact (next e) = true) ->
    (forall k e, In (k, e) (elems m) ->
                 isLeaf (next e) = false -> data (next e) = None) ->
    (forall k e, In (k, e) (elems m) -> canonBelow (next e)) ->
    canonBelow (Node l m d).

(** Two tries that hold the same keys with the same data. *)
Definition same_content (t1 t2 : Trie) : Prop :=
  forall k, HasItem t1 k = HasItem t2 k /\
            (HasItem t1 k = true -> GetItem t1 k = GetItem t2 k).

(** The operations of a run that builds an [inserted] trie. *)
Definition is_insert (o : op) : bool :=
  match o with
  | OpInsert _ _ | OpSorted _ => true
  | OpDelete _ | OpSet _ _ => false
  end.

(** The key follows the tree edge by edge: every edge it selects has its
    whole label spelled by the key, until the key ends or no edge goes on. *)
Inductive walk : node -> bytes -> Prop :=
| walk_end n : walk n []
| walk_stop n k0 r : emap_get (edges n) k0 = None -> walk n (k0 :: r)
| walk_step n k0 r e rest :
    emap_get (edges n) k0 = Some e -> k0 :: r = label e ++ rest ->
    walk (next e) rest -> walk n (k0 :: r).

(** The node [m] lies [d] edges below [n], at the end of the path [r]. *)
Inductive reaches : node -> bytes -> nat -> node -> Prop :=
| reaches_here n : reaches n [] 0 n
| reaches_edge n k e r d m :
    emap_get (edges n) k = Some e -> reaches (next e) r d m ->
    reaches n (label e ++ r) (S d) m.

Definition cstep (c : call) : nat := let '(s, _, _, _) := c in s.
Definition cpath (c : call) : bytes := let '(_, p, _, _) := c in p.
Definition cdata (c : call) : option bytes := let '(_, _, d, _) := c in d.
Definition cleaf (c : call) : bool := let '(_, _, _, l) := c in l.

(** The order of two paths that a traversal takes one after the other:
    the second goes on from the first, or they part at a byte, the bytes at
    which they part being in the order [Rk].  With [byte_lt] this is the
    strict lexicographic order of byte strings. *)
Definition pathRel (Rk : byte -> byte -> Prop) (p q : bytes) : Prop :=
  (exists c cs, q = p ++ c :: cs) \/
  (exists common a ra b rb,
      p = common ++ a :: ra /\ q = common ++ b :: rb /\ Rk a b).

(** The order of the keys that [keys] returns: ascending when sorted,
    distinct in any case. *)
Definition keyRel (srt : bool) : byte -> byte -> Prop :=
  if srt then byte_lt else (fun a b => a <> b).

(** The callback [fn] with a log: every call is written down with what
    [fn] answered. *)
Definition tracing {St Err : Type} (fn : TFunc St Err)
  : TFunc (St * list (call * (bool * option Err))) Err :=
  fun step path d lf sl =>
    let '(s', r) := fn step path d lf (fst sl) in
    ((s', snd sl ++ [((step, path, d, lf), r)]), r).

(** A logged call: its depth, whether [fn] asked to go on below the node,
    and the error [fn] gave. *)
Definition estep {Err : Type} (e : call * (bool * option Err)) : nat :=
  cstep (fst e).
Definition econt {Err : Type} (e : call * (bool * option Err)) : bool :=
  fst (snd e).
Definition eerr {Err : Type} (e : call * (bool * option Err)) : option Err :=
  snd (snd e).

(** The call that follows one answered with [false] is not deeper. *)
Fixpoint stopsRespected {Err : Type} (l : list (call * (bool * option Err)))
  : Prop :=
  match l with
  | [] => True
  | c1 :: l' =>
      match l' with
      | [] => True
      | c2 :: _ => econt c1 = false -> estep c2 <= estep c1
      end /\ stopsRespected l'
  end.

(** Only the last logged call can have given an error, and that error is
    the one returned. *)
Definition errorIsLast {Err : Type} (l : list (call * (bool * option Err)))
           (err : option Err) : Prop :=
  match err with
  | None => Forall (fun e => eerr e = None) l
  | Some x => exists pre c, l = pre ++ [c] /\
                            Forall (fun e => eerr e = None) pre /\
                            eerr c = Some x
  end.

(** * The example program *)

(** [example/main.go]: a [StringTrie] is a [Trie] with an [io.Writer];
    the writer is modelled by the bytes written to it so far, and writing
    does not fail (the example ignores the result of [fmt.Fprintln]). *)
Record StringTrie : Type := mkStringTrie { trie : Trie; out : bytes }.

Definition file : bytes := bstr "file"%string.
Definition dir : bytes := bstr "dir"%string.

Definition NewStringTrie (w : bytes) : StringTrie :=
  {| trie := NewTrie; out := w |}.

(** [bytes.Equal]: a nil slice is equal to an empty one. *)
Definition bytesEqual (a b : option bytes) : bool :=
  bytes_eqb (match a with Some x => x | None => [] end)
            (match b with Some x => x | None => [] end).

(** [fmt.Fprintln(w, path)]. *)
Definition Fprintln (w : bytes) (path : bytes) : bytes :=
  w ++ path ++ [Byte.x0a].

Definition printFile : TFunc bytes bytes :=
  fun step path data isLeaf w =>
    ((if bytesEqual data (Some file) && isLeaf then Fprintln w path else w),
     (true, None)).

Definition PrintFiles (t : StringTrie) : result (StringTrie * option bytes) :=
  r <- Traverse (trie t) printFile (out t) ;;
  let '(w, err) := r in
  match err with
  | Some e => Ok ({| trie := trie t; out := w |}, Some e)
  | None => Ok ({| trie := trie t; out := w |}, None)
  end.

(** * Properties *)

(** ** Bytes and byte maps *)

Lemma byte_eqb_spec (a b : byte) : reflect (a = b) (Byte.eqb a b).
Proof.
  destruct (Byte.eqb a b) eqn:E; constructor.
  - now apply byte_dec_bl.
  - now apply Byte.eqb_false.
Qed.

Lemma byte_eqb_refl (a : byte) : Byte.eqb a a = true.
Proof. now apply byte_dec_lb. Qed.

Lemma byte_eqb_neq (a b : byte) : a <> b -> Byte.eqb a b = false.
Proof. intros H. now destruct (byte_eqb_spec a b). Qed.

Ltac byte_cases a b :=
  destruct (byte_eqb_spec a b); [subst; try rewrite ?byte_eqb_refl | ].

Section ByteMapFacts.
Context {V : Type}.
Implicit Types (m : list (byte * V)) (k : byte) (v : V).

Lemma map_get_In m k v : map_get m k = Some v -> In (k, v) m.
Proof.
  induction m as [|[k' v'] m IH]; simpl; [discriminate|].
  byte_cases k' k; intros H.
  - injection H as ->. now left.
  - right. now apply IH.
Qed.

Lemma map_get_None m k : map_get m k = None <-> ~ In k (map fst m).
Proof.
  induction m as [|[k' v'] m IH]; simpl; [tauto|].
  byte_cases k' k.
  - split; [discriminate | intros H; exfalso; apply H; now left].
  - rewrite IH. tauto.
Qed.

Lemma map_get_NoDup m k v :
  NoDup (map fst m) -> In (k, v) m -> map_get m k = Some v.
Proof.
  induction m as [|[k' v'] m IH]; simpl; [tauto|].
  intros Hnd [H | H]; inversion Hnd; subst.
  - injection H as -> ->. now rewrite byte_eqb_refl.
  - byte_cases k' k.
    + exfalso. apply H2. now apply (in_map fst) in H.
    + now apply IH.
Qed.

Lemma map_get_set m k v k' :
  map_get (map_set m k v) k' = if Byte.eqb k k' then Some v else map_get m k'.
Proof.
  induction m as [|[k0 v0] m IH]; simpl.
  - now destruct (Byte.eqb k k').
  - byte_cases k0 k; simpl.
    + now destruct (Byte.eqb k k').
    + rewrite IH. byte_cases k k'; [now rewrite byte_eqb_neq|reflexivity].
Qed.

Lemma map_get_del m k k' :
  map_get (map_del m k) k' = if Byte.eqb k k' then None else map_get m k'.
Proof.
  induction m as [|[k0 v0] m IH]; simpl.
  - now destruct (Byte.eqb k k').
  - byte_cases k0 k; simpl.
    + rewrite IH. byte_cases k k'; reflexivity.
    + rewrite IH. byte_cases k k'; [now rewrite byte_eqb_neq|reflexivity].
Qed.

Lemma map_set_keys m k v :
  map fst (map_set m k v) =
  match map_get m k with
  | Some _ => map fst m
  | None => map fst m ++ [k]
  end.
Proof.
  induction m as [|[k0 v0] m IH]; simpl; [reflexivity|].
  byte_cases k0 k; simpl; [reflexivity|].
  rewrite IH. now destruct (map_get m k).
Qed.

Lemma map_set_NoDup m k v :
  NoDup (map fst m) -> NoDup (map fst (map_set m k v)).
Proof.
  intros H. rewrite map_set_keys. destruct (map_get m k) eqn:E; [assumption|].
  apply map_get_None in E.
  apply NoDup_app; [assumption | repeat constructor; intros [] | ].
  intros a Ha [<- | []]. now apply E.
Qed.

Lemma map_set_In m k v k' v' :
  In (k', v') (map_set m k v) -> (k' = k /\ v' = v) \/ In (k', v') m.
Proof.
  induction m as [|[k0 v0] m IH]; simpl.
  - intros [H | []]. injection H as -> ->. now left.
  - byte_cases k0 k; simpl.
    + intros [H | H]; [injection H as -> ->; now left | right; now right].
    + intros [H | H]; [right; now left | ].
      destruct (IH H); [now left | right; now right].
Qed.

Lemma map_del_In m k k' v' :
  In (k', v') (map_del m k) -> k' <> k /\ In (k', v') m.
Proof.
  induction m as [|[k0 v0] m IH]; simpl; [tauto|].
  byte_cases k0 k; simpl.
  - intros H. destruct (IH H). split; [assumption | now right].
  - intros [H | H].
    + injection H as -> ->. split; [assumption | now left].
    + destruct (IH H). split; [assumption | now right].
Qed.

Lemma map_del_NoDup m k : NoDup (map fst m) -> NoDup (map fst (map_del m k)).
Proof.
  induction m as [|[k0 v0] m IH]; simpl; [trivial|].
  intros H. inversion H; subst.
  byte_cases k0 k; simpl; [now apply IH|].
  constructor; [|now apply IH].
  intros Hin. apply in_map_iff in Hin as [[k1 v1] [E Hin]]. simpl in E; subst.
  apply map_del_In in Hin as [_ Hin]. apply H2.
  now apply (in_map fst) in Hin.
Qed.

Lemma map_del_nil_get m k k' :
  map_del m k = [] -> k' <> k -> map_get m k' = None.
Proof.
  intros H Hne. pose proof (map_get_del m k k') as E.
  rewrite H in E. simpl in E. rewrite byte_eqb_neq in E by congruence.
  now symmetry.
Qed.
End ByteMapFacts.

(** ** getFirstMismatch is the length of the longest common prefix *)

Lemma mismatchLoop_shift a b i : mismatchLoop a b i = i + mismatchLoop a b 0.
Proof.
  revert b i. induction a as [|x a IH]; intros [|y b] i; simpl; try lia.
  destruct (Byte.eqb x y); [|lia].
  rewrite (IH b (S i)), (IH b 1). lia.
Qed.

Lemma mismatchLoop_comm a b i : mismatchLoop a b i = mismatchLoop b a i.
Proof.
  revert b i. induction a as [|x a IH]; intros [|y b] i; simpl; try reflexivity.
  byte_cases x y; [apply IH|].
  now rewrite byte_eqb_neq by congruence.
Qed.

Lemma getFirstMismatch_loop a b : getFirstMismatch a b = mismatchLoop a b 0.
Proof.
  unfold getFirstMismatch. destruct (length b <? length a); [|reflexivity].
  apply mismatchLoop_comm.
Qed.

Lemma getFirstMismatch_app p ra rb :
  diverge ra rb -> getFirstMismatch (p ++ ra) (p ++ rb) = length p.
Proof.
  rewrite getFirstMismatch_loop. intros H.
  induction p as [|x p IH]; simpl.
  - destruct ra as [|x ra], rb as [|y rb]; simpl; try reflexivity.
    simpl in H. now rewrite byte_eqb_neq.
  - rewrite byte_eqb_refl, mismatchLoop_shift, IH. reflexivity.
Qed.

Lemma getFirstMismatch_split a b :
  exists p ra rb, a = p ++ ra /\ b = p ++ rb /\ diverge ra rb.
Proof.
  revert b. induction a as [|x a IH]; intros b.
  - now exists [], [], b.
  - destruct b as [|y b]; [now exists [], (x :: a), []|].
    destruct (byte_eq_dec x y) as [->|Hne].
    + destruct (IH b) as (p & ra & rb & -> & -> & H).
      now exists (y :: p), ra, rb.
    + now exists [], (x :: a), (y :: b).
Qed.

Lemma getFirstMismatch_firstn a b :
  getFirstMismatch (firstn (length b) a) b = getFirstMismatch a b.
Proof.
  destruct (getFirstMismatch_split a b) as (p & ra & rb & -> & -> & H).
  rewrite (getFirstMismatch_app p _ _ H).
  rewrite length_app, firstn_app, firstn_all2 by lia.
  replace (length p + length rb - length p) with (length rb) by lia.
  apply getFirstMismatch_app.
  destruct rb as [|y rb]; [now destruct (firstn _ ra)|].
  destruct ra; simpl in *; trivial.
Qed.

Lemma strip_spec lab s r : strip lab s = Some r <-> s = lab ++ r.
Proof.
  unfold strip. split.
  - destruct (getFirstMismatch_split s lab) as (p & ra & rb & -> & -> & H).
    rewrite (getFirstMismatch_app p _ _ H), length_app.
    destruct (Nat.eqb_spec (length p) (length p + length rb)); simpl;
      [|discriminate].
    destruct rb; simpl in *; [|lia].
    rewrite app_nil_r, skipn_app, skipn_all, Nat.sub_diag. simpl.
    now intros [= ->].
  - intros ->.
    assert (E : getFirstMismatch (lab ++ r) lab = length lab).
    { pose proof (getFirstMismatch_app lab r []) as E.
      rewrite app_nil_r in E. apply E. now destruct r. }
    rewrite E, Nat.eqb_refl. simpl.
    now rewrite skipn_app, skipn_all, Nat.sub_diag.
Qed.

Lemma strip_app_same lab r : strip lab (lab ++ r) = Some r.
Proof. now apply strip_spec. Qed.

Lemma strip_None lab s : strip lab s = None <-> forall r, s <> lab ++ r.
Proof.
  split.
  - intros H r E. apply strip_spec in E. congruence.
  - intros H. destruct (strip lab s) eqn:E; [|reflexivity].
    apply strip_spec in E. now apply H in E.
Qed.

Lemma strip_app p q s :
  strip (p ++ q) s =
  match strip p s with
  | Some r => strip q r
  | None => None
  end.
Proof.
  destruct (strip p s) as [r|] eqn:E.
  - apply strip_spec in E. subst s.
    destruct (strip q r) as [r'|] eqn:E'.
    + apply strip_spec in E'. subst r. apply strip_spec. now rewrite app_assoc.
    + apply strip_None. intros r' E. rewrite <- app_assoc in E.
      apply app_inv_head in E. rewrite strip_None in E'. now apply E' in E.
  - apply strip_None. intros r E'. rewrite strip_None in E.
    rewrite <- app_assoc in E'. now apply E in E'.
Qed.

Lemma strip_nil lab : lab <> [] -> strip lab [] = None.
Proof.
  intros H. apply strip_None. intros r E. symmetry in E.
  apply app_eq_nil in E. tauto.
Qed.

Lemma strip_cons_neq x y lab s : x <> y -> strip (x :: lab) (y :: s) = None.
Proof. intros H. apply strip_None. intros r [= E _]. congruence. Qed.

Lemma slice_from_app (a b : bytes) : slice_from (a ++ b) (length a) = Ok b.
Proof.
  unfold slice_from. rewrite length_app.
  destruct (Nat.leb_spec (length a) (length a + length b)); [|lia].
  now rewrite skipn_app, skipn_all, Nat.sub_diag.
Qed.

Lemma slice_to_app (a b : bytes) : slice_to (a ++ b) (length a) = Ok a.
Proof.
  unfold slice_to. rewrite length_app.
  destruct (Nat.leb_spec (length a) (length a + length b)); [|lia].
  now rewrite firstn_app, firstn_all, Nat.sub_diag, app_nil_r.
Qed.

(** ** Induction on nodes, well-formed trees *)

Lemma node_ind' (P : node -> Prop) :
  (forall l m d, (forall k e, In (k, e) (elems m) -> P (next e)) ->
                 P (Node l m d)) ->
  forall n, P n.
Proof.
  intros H. fix F 1. intros [l m d]. apply H.
  destruct m as [es|]; simpl; [|intros ? ? []].
  induction es as [|[k0 e0] es IH]; simpl; intros k e Hin; [destruct Hin|].
  destruct Hin as [Heq|Hin]; [|exact (IH k e Hin)].
  injection Heq as <- <-. apply F.
Qed.

Lemma wf_inv l m d :
  wf (Node l m d) ->
  NoDup (map fst (elems m)) /\
  (forall k e, In (k, e) (elems m) -> exists lab, label e = k :: lab) /\
  (forall k e, In (k, e) (elems m) -> wf (next e)).
Proof. intros H. inversion H; subst. auto. Qed.

Lemma wf_get n k e :
  wf n -> emap_get (edges n) k = Some e ->
  (exists lab, label e = k :: lab) /\ wf (next e).
Proof.
  destruct n as [l m d]. intros H E. apply wf_inv in H as (_ & H1 & H2).
  apply map_get_In in E. split; eauto.
Qed.

(** ** The lookup walk, one edge at a time *)

Lemma getNode_nil n : getNode n [] = Some n.
Proof. now destruct n. Qed.

Lemma getNode_cons n b r :
  getNode n (b :: r) =
  match emap_get (edges n) b with
  | Some e =>
      match strip (label e) (b :: r) with
      | Some r' => getNode (next e) r'
      | None => None
      end
  | None => None
  end.
Proof.
  destruct n as [l [m|] d]; [|reflexivity].
  unfold emap_get. cbn [edges elems getNode].
  induction m as [|[k e] m IH]; [reflexivity|].
  cbn [map_get]. destruct (Byte.eqb k b); [|exact IH].
  unfold strip. cbv zeta.
  now destruct (negb (getFirstMismatch (b :: r) (label e) =? length (label e))).
Qed.

Lemma stored_nil n : stored n [] = if isLeaf n then Some (data n) else None.
Proof. unfold stored. now rewrite getNode_nil. Qed.

Lemma stored_cons n b r :
  stored n (b :: r) =
  match emap_get (edges n) b with
  | Some e =>
      match strip (label e) (b :: r) with
      | Some r' => stored (next e) r'
      | None => None
      end
  | None => None
  end.
Proof.
  unfold stored. rewrite getNode_cons.
  destruct (emap_get (edges n) b) as [e|]; [|reflexivity].
  now destruct (strip (label e) (b :: r)).
Qed.

Lemma stored_cons_edges n1 n2 b r :
  edges n1 = edges n2 -> stored n1 (b :: r) = stored n2 (b :: r).
Proof. intros E. now rewrite !stored_cons, E. Qed.

Lemma HasItem_stored t k :
  HasItem t k = match stored (root t) k with Some _ => true | None => false end.
Proof.
  unfold HasItem, stored. destruct (getNode (root t) k) as [m|]; [|reflexivity].
  now destruct (isLeaf m).
Qed.

Lemma GetItem_stored t k v : stored (root t) k = Some v -> GetItem t k = Ok v.
Proof.
  unfold GetItem, stored. destruct (getNode (root t) k) as [m|]; [|discriminate].
  destruct (isLeaf m); [|discriminate]. now intros [= ->].
Qed.

(** ** InsertItem *)

Lemma insertLoop_new fuel cur k r d :
  map_get (elems (edges cur)) k = None ->
  insertLoop (S fuel) cur (k :: r) d =
  Ok (Node (isLeaf cur)
           (Some (map_set (elems (edges cur)) k
                    {| label := k :: r; next := Node true None d |}))
           (data cur)).
Proof. intros E. cbn [insertLoop]. now rewrite E. Qed.

Lemma insertLoop_step fuel cur k r e d :
  map_get (elems (edges cur)) k = Some e ->
  (exists lab, label e = k :: lab) ->
  exists p tail rest,
    label e = k :: p ++ tail /\ r = p ++ rest /\ diverge rest tail /\
    insertLoop (S fuel) cur (k :: r) d =
    (nxt' <- insertLoop fuel (markLeaf rest d (splitNode tail (next e))) rest d ;;
     Ok (Node (isLeaf cur)
              (Some (map_set (elems (edges cur)) k
                       {| label := k :: p; next := nxt' |}))
              (data cur))).
Proof.
  intros E [lab Hlab].
  destruct (getFirstMismatch_split r lab) as (p & rest & tail & -> & -> & Hd).
  exists p, tail, rest. repeat split; trivial.
  cbn [insertLoop]. rewrite E. cbv zeta.
  assert (Hd' : diverge rest tail) by exact Hd.
  assert (Hs : forall s,
             (if length (label e) <? length (k :: p ++ rest)
              then slice_to (k :: p ++ rest) (length (label e))
              else Ok (k :: p ++ rest)) = Ok s ->
             getFirstMismatch s (label e) = length (k :: p)).
  { intros s Hs. rewrite Hlab in *.
    destruct (length (k :: p ++ tail) <? length (k :: p ++ rest)) eqn:El.
    - unfold slice_to in Hs. apply Nat.ltb_lt in El.
      destruct (Nat.leb_spec (length (k :: p ++ tail)) (length (k :: p ++ rest)));
        [|lia].
      replace s with (firstn (length (k :: p ++ tail)) (k :: p ++ rest))
        by congruence.
      rewrite getFirstMismatch_firstn.
      apply (getFirstMismatch_app (k :: p) rest tail Hd).
    - replace s with (k :: p ++ rest) by congruence.
      apply (getFirstMismatch_app (k :: p) rest tail Hd). }
  match goal with |- bind ?c _ = _ => destruct c as [s| |] eqn:Es end.
  2,3: exfalso; destruct (length (label e) <? length (k :: p ++ rest)) eqn:El;
    try discriminate; unfold slice_to in Es; apply Nat.ltb_lt in El;
    destruct (Nat.leb_spec (length (label e)) (length (k :: p ++ rest)));
    try discriminate; lia.
  cbn [bind]. rewrite (Hs s eq_refl). clear Hs Es s.
  assert (Hlen : forall q : bytes,
             (length ((k :: p) ++ q) =? length (k :: p)) =
             match q with [] => true | _ => false end).
  { intros [|q0 q]; [now rewrite app_nil_r, Nat.eqb_refl|].
    apply Nat.eqb_neq. rewrite length_app. simpl. lia. }
  change (k :: p ++ rest) with ((k :: p) ++ rest).
  destruct tail as [|t0 tail].
  - rewrite app_nil_r in Hlab. rewrite !Hlab, Nat.eqb_refl.
    cbn [negb bind splitNode]. rewrite !Hlab, slice_from_app, Hlen.
    cbn [bind]. now destruct rest.
  - change (k :: p ++ t0 :: tail) with ((k :: p) ++ t0 :: tail) in Hlab.
    rewrite !Hlab, Nat.eqb_sym, Hlen.
    cbn [negb]. rewrite !slice_from_app, slice_to_app.
    cbn [bind index0 label next map_set splitNode]. rewrite Hlen.
    now destruct rest.
Qed.

Lemma wf_edges n1 n2 : edges n1 = edges n2 -> wf n1 -> wf n2.
Proof.
  destruct n1 as [l1 m1 d1], n2 as [l2 m2 d2]. simpl. intros -> H.
  apply wf_inv in H as (H1 & H2 & H3). now constructor.
Qed.

Lemma wf_splitNode tail nx : wf nx -> wf (splitNode tail nx).
Proof.
  intros H. destruct tail as [|t0 tail]; [assumption|].
  constructor; simpl.
  - repeat constructor. intros [].
  - intros k e [[= <- <-]|[]]. now exists tail.
  - now intros k e [[= <- <-]|[]].
Qed.

Lemma wf_markLeaf rest d n : wf n -> wf (markLeaf rest d n).
Proof.
  destruct rest; [|trivial]. apply wf_edges. now destruct n.
Qed.

Lemma stored_splitNode tail nx q :
  stored (splitNode tail nx) q =
  match strip tail q with
  | Some q' => stored nx q'
  | None => None
  end.
Proof.
  destruct tail as [|t0 tail]; cbn [splitNode].
  - pose proof (strip_app_same [] q) as E. simpl in E. now rewrite E.
  - destruct q as [|c q].
    + now rewrite stored_nil, strip_nil.
    + rewrite stored_cons. unfold emap_get. cbn [edges elems map_get].
      byte_cases t0 c; [reflexivity|].
      now rewrite strip_cons_neq.
Qed.

Lemma stored_markLeaf rest d n q :
  q <> rest -> stored (markLeaf rest d n) q = stored n q.
Proof.
  destruct rest; [|reflexivity]. destruct q; [congruence|]. intros _.
  apply stored_cons_edges. now destruct n.
Qed.

Lemma insertLoop_spec fuel :
  forall cur bPref d,
    wf cur -> length bPref <= fuel ->
    exists cur',
      insertLoop fuel cur bPref d = Ok cur' /\
      wf cur' /\ isLeaf cur' = isLeaf cur /\ data cur' = data cur /\
      (bPref = [] -> cur' = cur) /\
      (bPref <> [] -> stored cur' bPref = Some d) /\
      (forall k2, k2 <> bPref -> stored cur' k2 = stored cur k2).
Proof.
  induction fuel as [|fuel IH]; intros cur [|k r] d Hwf Hlen;
    try (exists cur; now repeat split).
  destruct (map_get (elems (edges cur)) k) as [e|] eqn:E.
  - destruct (wf_get cur k e Hwf E) as [Hlab Hnext].
    destruct (insertLoop_step fuel cur k r e d E Hlab)
      as (p & tail & rest & He & -> & Hd & ->).
    set (nxt := markLeaf rest d (splitNode tail (next e))).
    assert (Hnxt : wf nxt) by now apply wf_markLeaf, wf_splitNode.
    destruct (IH nxt rest d Hnxt) as (nxt' & -> & Hwf' & _ & _ & Hnil & Hk & Hfr).
    { simpl in Hlen. rewrite length_app in Hlen. lia. }
    cbn [bind]. eexists. split; [reflexivity|].
    assert (Hin : stored nxt' rest = Some d).
    { destruct rest as [|r0 rest]; [|now apply Hk].
      rewrite (Hnil eq_refl). unfold nxt. cbn [markLeaf]. now rewrite stored_nil. }
    assert (Hout : forall q, q <> rest ->
               stored nxt' q =
               match strip tail q with
               | Some q' => stored (next e) q'
               | None => None
               end).
    { intros q Hq. rewrite (Hfr q Hq). unfold nxt.
      rewrite stored_markLeaf by assumption. apply stored_splitNode. }
    destruct cur as [l m dd]. apply wf_inv in Hwf as (Hnd & Hlabs & Hsub).
    cbn [isLeaf data edges elems] in *.
    split; [|split; [reflexivity|split; [reflexivity|split; [discriminate|split]]]].
    + constructor; cbn [elems].
      * now apply map_set_NoDup.
      * intros k' e' Hin'.
        apply map_set_In in Hin' as [[-> ->]|Hin']; cbn [label]; eauto.
      * intros k' e' Hin'.
        apply map_set_In in Hin' as [[-> ->]|Hin']; cbn [next]; eauto.
    + intros _. rewrite stored_cons. unfold emap_get. cbn [edges elems].
      rewrite map_get_set, byte_eqb_refl. cbn [label next].
      change (k :: p ++ rest) with ((k :: p) ++ rest).
      now rewrite strip_app_same.
    + intros [|c q] Hne; [now rewrite !stored_nil|].
      rewrite !stored_cons. unfold emap_get. cbn [edges elems].
      rewrite map_get_set. byte_cases k c; [|reflexivity].
      rewrite E, He. cbn [label next].
      change (c :: p ++ tail) with ((c :: p) ++ tail). rewrite strip_app.
      destruct (strip (c :: p) (c :: q)) as [q'|] eqn:Eq; [|reflexivity].
      apply Hout. intros ->. apply strip_spec in Eq. now apply Hne.
  - rewrite (insertLoop_new fuel cur k r d E).
    eexists. split; [reflexivity|].
    destruct cur as [l m dd]. apply wf_inv in Hwf as (Hnd & Hlabs & Hsub).
    cbn [isLeaf data edges elems] in *.
    split; [|split; [reflexivity|split; [reflexivity|split; [discriminate|split]]]].
    + constructor; cbn [elems].
      * now apply map_set_NoDup.
      * intros k' e' Hin'.
        apply map_set_In in Hin' as [[-> ->]|Hin']; cbn [label]; eauto.
      * intros k' e' Hin'.
        apply map_set_In in Hin' as [[-> ->]|Hin']; cbn [next]; eauto.
        cbn [next]. constructor; simpl; [constructor| |]; intros ? ? [].
    + intros _. rewrite stored_cons. unfold emap_get. cbn [edges elems].
      rewrite map_get_set, byte_eqb_refl. cbn [label next].
      rewrite <- (app_nil_r (k :: r)) at 2. now rewrite strip_app_same.
    + intros [|c q] Hne; [now rewrite !stored_nil|].
      rewrite !stored_cons. unfold emap_get. cbn [edges elems].
      rewrite map_get_set. byte_cases k c; [|reflexivity].
      rewrite E. cbn [label next].
      destruct (strip (c :: r) (c :: q)) as [[|q0 q']|] eqn:Eq; try reflexivity.
      apply strip_spec in Eq. rewrite app_nil_r in Eq. congruence.
Qed.

(** ** DeleteItem *)

Lemma delete_nil isRoot n :
  delete isRoot n [] =
  if is_nil (edges n) && negb isRoot then Ok None
  else Ok (Some (Node false (edges n) (data n))).
Proof. now destruct n. Qed.

Lemma delete_cons isRoot n k0 r :
  delete isRoot n (k0 :: r) =
  match emap_get (edges n) k0 with
  | None => Ok (Some n)
  | Some currEdge =>
      rest <- slice_from (k0 :: r) (length (label currEdge)) ;;
      deleted <- delete false (next currEdge) rest ;;
      deleteUnwind isRoot n k0 currEdge deleted
  end.
Proof.
  destruct n as [l [m|] d]; [|reflexivity].
  unfold emap_get. cbn [edges elems delete].
  generalize (Node l (Some m) d). intros n.
  induction m as [|[k e] m IH]; [reflexivity|].
  cbn [map_get]. destruct (Byte.eqb k k0); [reflexivity|exact IH].
Qed.

(** The two shapes [deleteUnwind] gives the edge map of the node when the
    child is kept. *)
Lemma deleteUnwind_merge isRoot l m d k0 e dl dm dd kv v :
  elems dm = [(kv, v)] -> dl = false ->
  deleteUnwind isRoot (Node l (Some m) d) k0 e (Some (Node dl dm dd)) =
  Ok (Some (Node l (Some (map_set (map_del m k0) k0
                            {| label := label e ++ label v; next := next v |}))
                 d)).
Proof.
  intros E ->. unfold deleteUnwind, emap_len. cbn [edges isLeaf data].
  now rewrite E.
Qed.

Lemma deleteUnwind_keep isRoot l m d k0 e dn :
  (emap_len (edges dn) =? 1) && negb (isLeaf dn) = false ->
  deleteUnwind isRoot (Node l (Some m) d) k0 e (Some dn) =
  Ok (Some (Node l (Some (map_set m k0 {| label := label e; next := dn |})) d)).
Proof. intros E. unfold deleteUnwind. now rewrite E. Qed.

Lemma length1_inv {A} (l : list A) : length l = 1 -> exists a, l = [a].
Proof. destruct l as [|a [|b l]]; try discriminate. now exists a. Qed.

Lemma deleteUnwind_wf isRoot n k0 e deleted r :
  wf n -> emap_get (edges n) k0 = Some e -> wf_opt deleted ->
  deleteUnwind isRoot n k0 e deleted = Ok r -> wf_opt r.
Proof.
  intros Hwf E Hd. destruct (wf_get n k0 e Hwf E) as [[lab Hlab] _].
  destruct n as [l [m|] d]; [|discriminate].
  apply wf_inv in Hwf as (Hnd & Hlabs & Hsub). cbn [elems] in *.
  destruct deleted as [dn|].
  - destruct ((emap_len (edges dn) =? 1) && negb (isLeaf dn)) eqn:Ec.
    + apply andb_prop in Ec as [El Ef]. apply Nat.eqb_eq in El.
      destruct (length1_inv _ El) as [[kv v] Ev].
      destruct dn as [dl dm dd]. cbn [edges isLeaf] in *.
      apply negb_true_iff in Ef.
      rewrite (deleteUnwind_merge isRoot l m d k0 e dl dm dd kv v Ev Ef).
      intros [= <-]. simpl in Hd. apply wf_inv in Hd as (_ & Hl' & Hs').
      rewrite Ev in *.
      constructor; cbn [elems].
      * now apply map_set_NoDup, map_del_NoDup.
      * intros k' e' Hin. apply map_set_In in Hin as [[-> ->]|Hin].
        -- cbn [label]. rewrite Hlab. simpl. eauto.
        -- apply map_del_In in Hin as [_ Hin]. eauto.
      * intros k' e' Hin. apply map_set_In in Hin as [[-> ->]|Hin].
        -- cbn [next]. apply (Hs' kv). now left.
        -- apply map_del_In in Hin as [_ Hin]. eauto.
    + rewrite (deleteUnwind_keep isRoot l m d k0 e dn Ec). intros [= <-].
      constructor; cbn [elems].
      * now apply map_set_NoDup.
      * intros k' e' Hin. apply map_set_In in Hin as [[-> ->]|Hin];
          cbn [label]; eauto.
      * intros k' e' Hin. apply map_set_In in Hin as [[-> ->]|Hin];
          cbn [next]; eauto.
  - unfold deleteUnwind. cbn [edges emap_del isLeaf data].
    match goal with |- (if ?c then _ else _) = _ -> _ => destruct c end;
      intros [= <-]; [exact I|].
    constructor; cbn [elems].
    + now apply map_del_NoDup.
    + intros k' e' Hin. apply map_del_In in Hin as [_ Hin]. eauto.
    + intros k' e' Hin. apply map_del_In in Hin as [_ Hin]. eauto.
Qed.

Lemma delete_wf n :
  wf n -> forall isRoot key r, delete isRoot n key = Ok r -> wf_opt r.
Proof.
  induction n as [l m d IH] using node_ind'. intros Hwf isRoot [|k0 key] r.
  - rewrite delete_nil. cbn [edges data].
    destruct (is_nil m && negb isRoot); intros [= <-]; [exact I|].
    now apply (wf_edges (Node l m d)).
  - rewrite delete_cons.
    destruct (emap_get (edges (Node l m d)) k0) as [e|] eqn:E;
      [|now intros [= <-]].
    destruct (slice_from (k0 :: key) (length (label e))) as [rest| |];
      try discriminate.
    cbn [bind].
    destruct (delete false (next e) rest) as [deleted| |] eqn:Ed;
      try discriminate.
    cbn [bind]. apply deleteUnwind_wf; trivial.
    apply map_get_In in E.
    apply (IH k0 e E) in Ed; trivial.
    apply wf_inv in Hwf as (_ & _ & Hsub). eauto.
Qed.

Lemma delete_root_not_nil n key : delete true n key <> Ok None.
Proof.
  destruct key as [|k0 key].
  - rewrite delete_nil. rewrite andb_false_r. discriminate.
  - rewrite delete_cons. destruct (emap_get (edges n) k0) as [e|];
      [|discriminate].
    destruct (slice_from (k0 :: key) (length (label e))); try discriminate.
    cbn [bind]. destruct (delete false (next e) a) as [[dn|]| |];
      try discriminate; cbn [bind]; unfold deleteUnwind.
    + destruct ((emap_len (edges dn) =? 1) && negb (isLeaf dn));
        [|discriminate].
      destruct (fold_left _ _ _); discriminate.
    + rewrite andb_false_r. discriminate.
Qed.

(** Deleting a key that is stored: what is filed under every key after the
    unwinding step, given what is filed below the child. *)
Lemma deleteUnwind_stored isRoot n k0 e deleted rest :
  wf n -> emap_get (edges n) k0 = Some e -> wf_opt deleted ->
  (forall q, stored_opt deleted q =
             if bytes_eq_dec q rest then None else stored (next e) q) ->
  exists r,
    deleteUnwind isRoot n k0 e deleted = Ok r /\
    forall k2, stored_opt r k2 =
               if bytes_eq_dec k2 (label e ++ rest) then None else stored n k2.
Proof.
  intros Hwf E Hd Hsub. destruct (wf_get n k0 e Hwf E) as [[lab Hlab] _].
  destruct n as [l [m|] d]; [|discriminate].
  set (n := Node l (Some m) d) in *.
  assert (T0 : (if bytes_eq_dec [] (label e ++ rest) then None else stored n [])
               = stored n []).
  { destruct (bytes_eq_dec [] (label e ++ rest)) as [E0|]; [|reflexivity].
    rewrite Hlab in E0. discriminate. }
  assert (T1 : forall c q, c <> k0 ->
             (if bytes_eq_dec (c :: q) (label e ++ rest) then None
              else stored n (c :: q)) = stored n (c :: q)).
  { intros c q Hc. destruct (bytes_eq_dec (c :: q) (label e ++ rest)) as [E0|];
      [|reflexivity].
    rewrite Hlab in E0. injection E0 as -> _. congruence. }
  assert (T2 : forall q,
             (if bytes_eq_dec (k0 :: q) (label e ++ rest) then None
              else stored n (k0 :: q)) =
             match strip (label e) (k0 :: q) with
             | Some q' => stored_opt deleted q'
             | None => None
             end).
  { intros q. rewrite stored_cons, E.
    destruct (strip (label e) (k0 :: q)) as [q'|] eqn:Es.
    - apply strip_spec in Es. rewrite Es, Hsub.
      destruct (bytes_eq_dec (label e ++ q') (label e ++ rest)) as [E0|N0],
               (bytes_eq_dec q' rest) as [E1|N1]; try reflexivity.
      + apply app_inv_head in E0. contradiction.
      + subst q'. contradiction.
    - destruct (bytes_eq_dec (k0 :: q) (label e ++ rest)); reflexivity. }
  assert (Hgo : forall r,
             (isLeaf r = l /\ data r = d) ->
             (forall c, c <> k0 -> emap_get (edges r) c = map_get m c) ->
             (forall q, stored r (k0 :: q) =
                        match strip (label e) (k0 :: q) with
                        | Some q' => stored_opt deleted q'
                        | None => None
                        end) ->
             forall k2, stored r k2 =
                        if bytes_eq_dec k2 (label e ++ rest) then None
                        else stored n k2).
  { intros r [Hl Hdat] Ho Hk [|c q].
    - rewrite T0, !stored_nil, Hl, Hdat. reflexivity.
    - destruct (byte_eq_dec c k0) as [->|Hc].
      + now rewrite T2, Hk.
      + rewrite (T1 c q Hc), !stored_cons, (Ho c Hc). reflexivity. }
  subst n. cbn [elems edges] in *. unfold emap_get in E. cbn [elems] in E.
  destruct deleted as [dn|].
  - destruct ((emap_len (edges dn) =? 1) && negb (isLeaf dn)) eqn:Ec.
    + apply andb_prop in Ec as [El Ef]. apply Nat.eqb_eq in El.
      destruct (length1_inv _ El) as [[kv v] Ev].
      destruct dn as [dl dm dd]. cbn [edges isLeaf] in *.
      apply negb_true_iff in Ef.
      rewrite (deleteUnwind_merge isRoot l m d k0 e dl dm dd kv v Ev Ef).
      eexists. split; [reflexivity|]. cbn [stored_opt]. apply Hgo.
      * now split.
      * intros c Hc. unfold emap_get. cbn [edges elems].
        rewrite map_get_set, map_get_del, !byte_eqb_neq by congruence.
        reflexivity.
      * intros q. rewrite stored_cons. unfold emap_get. cbn [edges elems].
        rewrite map_get_set, byte_eqb_refl. cbn [label next].
        rewrite strip_app.
        destruct (strip (label e) (k0 :: q)) as [q'|]; [|reflexivity].
        cbn [stored_opt]. simpl in Hd. apply wf_inv in Hd as (_ & Hl' & _).
        rewrite Ev in Hl'. destruct (Hl' kv v (or_introl eq_refl)) as [lv Hlv].
        rewrite <- (stored_splitNode (label v) (next v) q'), Hlv.
        cbn [splitNode]. subst dl. destruct q' as [|c q'].
        -- now rewrite !stored_nil.
        -- apply stored_cons_edges. cbn [edges].
           destruct dm as [dm|]; [|discriminate]. cbn [elems] in Ev.
           rewrite Ev, <- Hlv. now destruct v.
    + rewrite (deleteUnwind_keep isRoot l m d k0 e dn Ec).
      eexists. split; [reflexivity|]. cbn [stored_opt]. apply Hgo.
      * now split.
      * intros c Hc. unfold emap_get. cbn [edges elems].
        rewrite map_get_set, !byte_eqb_neq by congruence. reflexivity.
      * intros q. rewrite stored_cons. unfold emap_get. cbn [edges elems].
        rewrite map_get_set, byte_eqb_refl. reflexivity.
  - unfold deleteUnwind. cbn [edges emap_del isLeaf data].
    match goal with |- context [if ?c then _ else _] => destruct c eqn:Ec end.
    + eexists. split; [reflexivity|]. cbn [stored_opt].
      apply andb_prop in Ec as [Ec _]. apply andb_prop in Ec as [Ec El].
      apply Nat.eqb_eq in Ec. unfold emap_len in Ec. cbn [elems] in Ec.
      apply length_zero_iff_nil in Ec. apply negb_true_iff in El. subst l.
      intros [|c q].
      * now rewrite T0, stored_nil.
      * destruct (byte_eq_dec c k0) as [->|Hc].
        -- rewrite T2. now destruct (strip (label e) (k0 :: q)).
        -- rewrite (T1 c q Hc), stored_cons. unfold emap_get. cbn [edges elems].
           now rewrite (map_del_nil_get m k0 c Ec Hc).
    + eexists. split; [reflexivity|]. cbn [stored_opt]. apply Hgo.
      * now split.
      * intros c Hc. unfold emap_get. cbn [edges elems].
        rewrite map_get_del, !byte_eqb_neq by congruence. reflexivity.
      * intros q. rewrite stored_cons. unfold emap_get. cbn [edges elems].
        rewrite map_get_del, byte_eqb_refl.
        now destruct (strip (label e) (k0 :: q)).
Qed.

Lemma delete_stored n :
  wf n ->
  forall isRoot key v,
    stored n key = Some v ->
    exists r,
      delete isRoot n key = Ok r /\
      forall k2, stored_opt r k2 =
                 if bytes_eq_dec k2 key then None else stored n k2.
Proof.
  induction n as [l m d IH] using node_ind'. intros Hwf isRoot [|k0 key] v Hs.
  - rewrite delete_nil. cbn [edges data].
    destruct (is_nil m && negb isRoot) eqn:Ec; eexists; (split; [reflexivity|]);
      intros [|c q]; cbn [stored_opt];
      destruct (bytes_eq_dec _ _) as [Eq|Nq]; try discriminate;
      try contradiction; try reflexivity.
    apply andb_prop in Ec as [Ec _]. destruct m; [discriminate|].
    now rewrite stored_cons.
  - rewrite delete_cons. rewrite stored_cons in Hs.
    destruct (emap_get (edges (Node l m d)) k0) as [e|] eqn:E; [|discriminate].
    destruct (strip (label e) (k0 :: key)) as [rest|] eqn:Es; [|discriminate].
    apply strip_spec in Es. rewrite Es, slice_from_app. cbn [bind].
    assert (Hin := map_get_In _ _ _ E).
    assert (Hwe : wf (next e)).
    { apply wf_inv in Hwf as (_ & _ & Hsub). eauto. }
    destruct (IH k0 e Hin Hwe false rest v Hs) as (deleted & Ed & Hsub).
    rewrite Ed. cbn [bind].
    apply deleteUnwind_stored; trivial.
    now apply (delete_wf (next e) Hwe false rest).
Qed.

Lemma deleteUnwind_isLeaf isRoot n k0 e deleted n' :
  deleteUnwind isRoot n k0 e deleted = Ok (Some n') -> isLeaf n' = isLeaf n.
Proof.
  unfold deleteUnwind. destruct deleted as [dn|].
  - destruct ((emap_len (edges dn) =? 1) && negb (isLeaf dn)).
    + destruct (fold_left _ _ _); try discriminate. cbn [bind].
      now intros [= <-].
    + now intros [= <-].
  - match goal with |- (if ?c then _ else _) = _ -> _ => destruct c end;
      [discriminate|now intros [= <-]].
Qed.

Lemma delete_isLeaf isRoot n key n' :
  delete isRoot n key = Ok (Some n') -> isLeaf n = false -> isLeaf n' = false.
Proof.
  destruct key as [|k0 key].
  - rewrite delete_nil. destruct (is_nil (edges n) && negb isRoot);
      [discriminate|now intros [= <-]].
  - rewrite delete_cons. destruct (emap_get (edges n) k0) as [e|];
      [|now intros [= <-]].
    destruct (slice_from _ _) as [rest| |]; try discriminate. cbn [bind].
    destruct (delete false (next e) rest) as [deleted| |]; try discriminate.
    cbn [bind]. intros H <-. now apply deleteUnwind_isLeaf in H.
Qed.

(** ** Set *)

Lemma setNode_nil f n : setNode f n [] = Some (f n).
Proof. now destruct n. Qed.

Lemma setNode_cons f n b r :
  setNode f n (b :: r) =
  match emap_get (edges n) b with
  | Some e =>
      match strip (label e) (b :: r) with
      | Some r' =>
          option_map
            (fun n' =>
               Node (isLeaf n)
                    (Some (map_set (elems (edges n)) b
                             {| label := label e; next := n' |}))
                    (data n))
            (setNode f (next e) r')
      | None => None
      end
  | None => None
  end.
Proof.
  destruct n as [l [m|] d]; [|reflexivity].
  unfold emap_get. cbn [edges elems setNode isLeaf data].
  match goal with
  | |- option_map _ (?F m) = _ =>
      assert (H : F m =
        match map_get m b with
        | Some e =>
            match strip (label e) (b :: r) with
            | Some r' =>
                option_map
                  (fun n' => map_set m b {| label := label e; next := n' |})
                  (setNode f (next e) r')
            | None => None
            end
        | None => None
        end)
  end.
  { induction m as [|[k e] m IH]; [reflexivity|].
    cbn [map_get map_set]. destruct (Byte.eqb k b).
    - unfold strip. cbv zeta.
      now destruct (negb (getFirstMismatch (b :: r) (label e)
                          =? length (label e))).
    - rewrite IH. destruct (map_get m b) as [e'|]; [|reflexivity].
      destruct (strip (label e') (b :: r)); [|reflexivity].
      now destruct (setNode f (next e') l0). }
  rewrite H. destruct (map_get m b) as [e|]; [|reflexivity].
  destruct (strip (label e) (b :: r)); [|reflexivity].
  now destruct (setNode f (next e) l0).
Qed.

Section SetNode.
Variable f : node -> node.
Hypothesis f_edges : forall x, edges (f x) = edges x.
Hypothesis f_isLeaf : forall x, isLeaf (f x) = isLeaf x.

Lemma setNode_None n : forall k, getNode n k = None -> setNode f n k = None.
Proof.
  induction n as [l m d IH] using node_ind'. intros [|b r].
  - now rewrite getNode_nil.
  - rewrite getNode_cons, setNode_cons.
    destruct (emap_get (edges (Node l m d)) b) as [e|] eqn:E; [|reflexivity].
    destruct (strip (label e) (b :: r)) as [r'|]; [|reflexivity].
    intros H. apply map_get_In in E. now rewrite (IH b e E r' H).
Qed.

Lemma setNode_Some n :
  wf n ->
  forall k x,
    getNode n k = Some x ->
    exists n',
      setNode f n k = Some n' /\ wf n' /\ isLeaf n' = isLeaf n /\
      getNode n' k = Some (f x) /\
      forall k2,
        match stored n' k2, stored n k2 with
        | Some _, Some _ | None, None => True
        | _, _ => False
        end /\
        (k2 <> k -> stored n' k2 = stored n k2).
Proof.
  induction n as [l m d IH] using node_ind'. intros Hwf [|b r] x.
  - rewrite getNode_nil, setNode_nil. intros [= <-].
    exists (f (Node l m d)). repeat split; trivial.
    + apply (wf_edges (Node l m d)); [|assumption]. now rewrite f_edges.
    + apply getNode_nil.
    + destruct k2 as [|c q].
      * rewrite !stored_nil, f_isLeaf. now destruct (isLeaf _).
      * rewrite (stored_cons_edges (f (Node l m d)) (Node l m d))
          by apply f_edges.
        now destruct (stored _ _).
    + intros Hne. destruct k2 as [|c q]; [congruence|].
      apply stored_cons_edges, f_edges.
  - rewrite getNode_cons, setNode_cons.
    destruct (emap_get (edges (Node l m d)) b) as [e|] eqn:E; [|discriminate].
    destruct (strip (label e) (b :: r)) as [r'|] eqn:Es; [|discriminate].
    intros Hg. assert (Hin := map_get_In _ _ _ E).
    destruct (wf_get _ _ _ Hwf E) as [Hlab Hwe].
    destruct (IH b e Hin Hwe r' x Hg) as (n' & -> & Hwf' & Hl' & Hg' & Hst).
    cbn [option_map isLeaf data edges elems] in *.
    apply wf_inv in Hwf as (Hnd & Hlabs & Hsub).
    eexists. split; [reflexivity|].
    assert (Hvia : forall q,
               stored (Node l (Some (map_set (elems m) b
                                       {| label := label e; next := n' |})) d)
                      (b :: q) =
               match strip (label e) (b :: q) with
               | Some q' => stored n' q'
               | None => None
               end).
    { intros q. rewrite stored_cons. unfold emap_get. cbn [edges elems].
      now rewrite map_get_set, byte_eqb_refl. }
    assert (Hoth : forall c q, c <> b ->
               stored (Node l (Some (map_set (elems m) b
                                       {| label := label e; next := n' |})) d)
                      (c :: q) = stored (Node l m d) (c :: q)).
    { intros c q Hc. rewrite !stored_cons. unfold emap_get. cbn [edges elems].
      now rewrite map_get_set, byte_eqb_neq by congruence. }
    split; [|split; [reflexivity|split]].
    + constructor; cbn [elems].
      * now apply map_set_NoDup.
      * intros k' e' Hin'.
        apply map_set_In in Hin' as [[-> ->]|Hin']; cbn [label]; eauto.
      * intros k' e' Hin'.
        apply map_set_In in Hin' as [[-> ->]|Hin']; cbn [next]; eauto.
    + rewrite getNode_cons. unfold emap_get. cbn [edges elems].
      rewrite map_get_set, byte_eqb_refl. cbn [label next]. now rewrite Es.
    + intros [|c q].
      * rewrite !stored_nil. cbn [isLeaf data].
        split; [now destruct l|reflexivity].
      * destruct (byte_eq_dec c b) as [->|Hc].
        -- rewrite Hvia, stored_cons. cbn [edges]. rewrite E.
           destruct (strip (label e) (b :: q)) as [q'|] eqn:Eq;
             [|now split].
           destruct (Hst q') as [H1 H2]. split; [exact H1|].
           intros Hne. apply H2. intros ->.
           apply strip_spec in Es, Eq. congruence.
        -- rewrite (Hoth c q Hc). split; [|reflexivity].
           now destruct (stored _ _).
Qed.
End SetNode.

(** ** Reachable tries *)

Lemma InsertItem_spec t k d :
  wf (root t) ->
  exists t',
    InsertItem t k d = Ok t' /\
    wf (root t') /\ isLeaf (root t') = isLeaf (root t) /\
    sorted t' = sorted t /\
    (k = [] -> t' = t) /\
    (k <> [] -> stored (root t') k = Some d) /\
    (forall k2, k2 <> k -> stored (root t') k2 = stored (root t) k2).
Proof.
  intros Hwf. unfold InsertItem.
  destruct (insertLoop_spec (length k) (root t) k d Hwf (le_n _))
    as (r & -> & Hwf' & Hl & _ & Hnil & Hk & Hfr).
  cbn [bind]. eexists. split; [reflexivity|]. cbn [root sorted].
  repeat split; trivial.
  intros E. rewrite (Hnil E). now destruct t.
Qed.

Lemma DeleteItem_wf t k t' :
  wf_trie t -> DeleteItem t k = Ok t' -> wf_trie t'.
Proof.
  intros [Hwf Hl]. unfold DeleteItem.
  destruct (delete true (root t) k) as [[n|]| |] eqn:E; try discriminate.
  cbn [bind]. intros [= <-]. split; cbn [root].
  - exact (delete_wf (root t) Hwf true k (Some n) E).
  - exact (delete_isLeaf true (root t) k n E Hl).
Qed.

Lemma Set_spec t k d x :
  wf (root t) -> getNode (root t) k = Some x ->
  exists t',
    Set_ t k d = Ok t' /\ wf (root t') /\
    isLeaf (root t') = isLeaf (root t) /\
    getNode (root t') k = Some (Node (isLeaf x) (edges x) d) /\
    forall k2, HasItem t' k2 = HasItem t k2 /\
               (k2 <> k -> stored (root t') k2 = stored (root t) k2).
Proof.
  intros Hwf Hg. unfold Set_.
  destruct (setNode_Some (fun n => Node (isLeaf n) (edges n) d)
              (fun _ => eq_refl) (fun _ => eq_refl) (root t) Hwf k x Hg)
    as (n' & -> & Hwf' & Hl & Hg' & Hst).
  eexists. split; [reflexivity|]. cbn [root]. repeat split; trivial.
  - rewrite !HasItem_stored. cbn [root]. destruct (Hst k2) as [H _].
    now destruct (stored n' k2), (stored (root t) k2).
  - apply Hst.
Qed.

Lemma Set_absent t k d :
  getNode (root t) k = None -> Set_ t k d = Panic NilDereference.
Proof.
  intros H. unfold Set_. now rewrite setNode_None.
Qed.

Lemma Set_Ok_inv t k d t' :
  Set_ t k d = Ok t' -> exists x, getNode (root t) k = Some x.
Proof.
  intros H. destruct (getNode (root t) k) as [x|] eqn:E; [now exists x|].
  rewrite (Set_absent t k d E) in H. discriminate.
Qed.

Lemma reachable_wf t : reachable t -> wf_trie t.
Proof.
  induction 1 as [|t s _ IH|t k d t' _ [Hwf Hl] E|t k t' _ IH E
                  |t k d t' _ [Hwf Hl] E].
  - split; [|reflexivity].
    constructor; simpl; [constructor| |]; intros ? ? [].
  - exact IH.
  - destruct (InsertItem_spec t k d Hwf) as (t2 & E2 & Hwf2 & Hl2 & _).
    rewrite E in E2. injection E2 as <-. split; congruence.
  - exact (DeleteItem_wf t k t' IH E).
  - destruct (Set_Ok_inv t k d t' E) as [x Hx].
    destruct (Set_spec t k d x Hwf Hx) as (t2 & E2 & Hwf2 & Hl2 & _).
    rewrite E in E2. injection E2 as <-. split; congruence.
Qed.

(** ** Runs of operations *)

Lemma run_from_reachable ops :
  forall t, reachable t ->
  forall t', fold_left (fun r o => t <- r ;; apply_op t o) ops (Ok t) = Ok t' ->
  reachable t'.
Proof.
  induction ops as [|o ops IH]; intros t Ht t'; cbn [fold_left bind].
  - now intros [= <-].
  - destruct (apply_op t o) as [t1| |] eqn:E.
    + apply IH. destruct o; cbn [apply_op] in E.
      * exact (reach_insert t k d t1 Ht E).
      * exact (reach_delete t k t1 Ht E).
      * exact (reach_set t k d t1 Ht E).
      * injection E as <-. now apply reach_sorted.
    + intros H. exfalso. clear -H. induction ops; [discriminate|auto].
    + intros H. exfalso. clear -H. induction ops; [discriminate|auto].
Defined.

Lemma run_reachable ops t : run ops = Ok t -> reachable t.
Proof. exact (run_from_reachable ops NewTrie reach_new t). Defined.

(** * The claims *)

(** ** Insertion *)

(** C5, as stated, fails for the empty key: [InsertItem] with an empty key
    does not enter its loop, and the root is not a leaf. *)
Lemma C5_empty_key_counterexample :
  ~ (forall t k d, reachable t ->
       exists t', InsertItem t k d = Ok t' /\
                  HasItem t' k = true /\ GetItem t' k = Ok d).
Proof.
  intros H. destruct (H NewTrie [] val_x reach_new) as (t' & E & Hh & _).
  injection E as <-. discriminate.
Qed.

(** C5 (amended): for every reachable trie, every non-empty key [k] and every
    [d], [InsertItem(k, d)] returns, and afterwards [HasItem(k)] is true and
    [GetItem(k)] is [d]. *)
Theorem C5_insert_then_lookup t k d :
  reachable t -> k <> [] ->
  exists t', InsertItem t k d = Ok t' /\
             HasItem t' k = true /\ GetItem t' k = Ok d.
Proof.
  intros Hr Hk. destruct (reachable_wf t Hr) as [Hwf _].
  destruct (InsertItem_spec t k d Hwf) as (t' & E & _ & _ & _ & _ & Hs & _).
  exists t'. split; [exact E|]. specialize (Hs Hk). split.
  - now rewrite HasItem_stored, Hs.
  - now apply GetItem_stored.
Qed.

Lemma C5_insert_then_lookup_witness :
  reachable NewTrie /\ key_ab <> [] /\
  exists t', InsertItem NewTrie key_ab val_x = Ok t' /\
             HasItem t' key_ab = true /\ GetItem t' key_ab = Ok val_x.
Proof.
  split; [exact reach_new|]. split; [discriminate|].
  apply (C5_insert_then_lookup NewTrie key_ab val_x reach_new). discriminate.
Defined.

(** C9, as stated, fails for [GetItem] of a key that is not stored: with
    "abc" stored, [GetItem("ab")] faults; inserting "abd" splits the edge and
    [GetItem("ab")] then returns the nil data of the new inner node. *)
Lemma C9_getitem_counterexample :
  exists t t',
    reachable t /\ key_abd <> key_ab /\
    InsertItem t key_abd val_y = Ok t' /\
    GetItem t key_ab = Panic NilDereference /\
    GetItem t' key_ab = Ok None.
Proof.
  eexists _, _.
  split; [exact (reach_insert NewTrie key_abc val_x _ reach_new eq_refl)|].
  split; [discriminate|]. split; [reflexivity|]. split; reflexivity.
Qed.

(** C9 (amended): inserting [k] returns, changes [HasItem(k2)] for no key
    [k2 <> k], and changes [GetItem(k2)] for no stored key [k2 <> k]. *)
Theorem C9_insert_frame t k d k2 :
  reachable t -> k2 <> k ->
  exists t',
    InsertItem t k d = Ok t' /\
    HasItem t' k2 = HasItem t k2 /\
    (HasItem t k2 = true -> GetItem t' k2 = GetItem t k2).
Proof.
  intros Hr Hne. destruct (reachable_wf t Hr) as [Hwf _].
  destruct (InsertItem_spec t k d Hwf) as (t' & E & _ & _ & _ & _ & _ & Hfr).
  exists t'. split; [exact E|]. specialize (Hfr k2 Hne).
  rewrite !HasItem_stored, Hfr. split; [reflexivity|].
  destruct (stored (root t) k2) as [v|] eqn:Ev; [|discriminate]. intros _.
  now rewrite (GetItem_stored t' k2 v Hfr), (GetItem_stored t k2 v Ev).
Qed.

Lemma C9_insert_frame_witness :
  exists t,
    reachable t /\ key_abc <> key_abd /\
    exists t',
      InsertItem t key_abd val_y = Ok t' /\
      HasItem t' key_abc = HasItem t key_abc /\
      (HasItem t key_abc = true -> GetItem t' key_abc = GetItem t key_abc).
Proof.
  eexists.
  pose proof (reach_insert NewTrie key_abc val_x _ reach_new eq_refl) as Hr.
  split; [exact Hr|]. split; [discriminate|].
  apply (C9_insert_frame _ key_abd val_y key_abc Hr). discriminate.
Defined.

(** C10: [InsertItem] with the empty key changes nothing, and in every
    reachable trie [HasItem] of the empty key is false. *)
Theorem C10_empty_key t :
  reachable t ->
  (forall d, InsertItem t [] d = Ok t) /\ HasItem t [] = false.
Proof.
  intros Hr. destruct (reachable_wf t Hr) as [_ Hl]. split.
  - intros d. now destruct t.
  - unfold HasItem. now rewrite getNode_nil.
Qed.

Lemma C10_empty_key_witness :
  exists t,
    reachable t /\
    (forall d, InsertItem t [] d = Ok t) /\ HasItem t [] = false.
Proof.
  eexists.
  pose proof (reach_insert NewTrie key_abc val_x _ reach_new eq_refl) as Hr.
  split; [exact Hr|]. exact (C10_empty_key _ Hr).
Defined.

(** ** Deletion *)

(** C4: deleting a stored key [k] returns; afterwards [HasItem(k)] is false,
    and for every other key [HasItem] is unchanged and, where the key is
    stored, so is [GetItem] (whichever nodes were unlinked or merged). *)
Theorem C4_delete_present t k :
  reachable t -> HasItem t k = true ->
  exists t',
    DeleteItem t k = Ok t' /\ HasItem t' k = false /\
    forall k2, k2 <> k ->
      HasItem t' k2 = HasItem t k2 /\
      (HasItem t k2 = true -> GetItem t' k2 = GetItem t k2).
Proof.
  intros Hr Hk. destruct (reachable_wf t Hr) as [Hwf _].
  rewrite HasItem_stored in Hk.
  destruct (stored (root t) k) as [v|] eqn:Ev; [|discriminate].
  destruct (delete_stored (root t) Hwf true k v Ev) as (r & E & Hst).
  unfold DeleteItem. rewrite E. cbn [bind].
  destruct r as [n|]; [|now apply delete_root_not_nil in E].
  eexists. split; [reflexivity|]. cbn [stored_opt] in Hst. split.
  - rewrite HasItem_stored. cbn [root]. rewrite Hst.
    now destruct (bytes_eq_dec k k).
  - intros k2 Hne. rewrite !HasItem_stored. cbn [root].
    assert (E2 : stored n k2 = stored (root t) k2).
    { rewrite Hst. now destruct (bytes_eq_dec k2 k). }
    rewrite E2. split; [reflexivity|].
    destruct (stored (root t) k2) as [v2|] eqn:Ev2; [|discriminate]. intros _.
    rewrite (GetItem_stored t k2 v2 Ev2). now apply GetItem_stored.
Qed.

Lemma C4_delete_present_witness :
  exists t,
    reachable t /\ HasItem t key_abc = true /\
    exists t',
      DeleteItem t key_abc = Ok t' /\ HasItem t' key_abc = false /\
      forall k2, k2 <> key_abc ->
        HasItem t' k2 = HasItem t k2 /\
        (HasItem t k2 = true -> GetItem t' k2 = GetItem t k2).
Proof.
  eexists.
  pose proof (run_reachable [OpInsert key_abc val_x; OpInsert key_abd val_y]
                          _ eq_refl) as Hr.
  split; [exact Hr|]. split; [reflexivity|].
  exact (C4_delete_present _ key_abc Hr eq_refl).
Defined.

(** C1 fails on the code: [delete] follows the edge filed under the first
    byte of the key and skips [len(label)] bytes without comparing them.
    With "abc" stored, "abd" is absent, yet [DeleteItem("abd")] unlinks the
    node of "abc". *)
Lemma C1_delete_absent_removes_other :
  exists t t',
    reachable t /\ HasItem t key_abd = false /\
    DeleteItem t key_abd = Ok t' /\
    HasItem t key_abc = true /\ HasItem t' key_abc = false.
Proof.
  eexists _, _.
  split; [exact (reach_insert NewTrie key_abc val_x _ reach_new eq_refl)|].
  repeat split; reflexivity.
Qed.

(** C2 fails on the code for [DeleteItem]: with "abc" stored,
    [DeleteItem("a")] evaluates [key[len(currEdge.label):]] with a key of one
    byte and a label of three, which is a slice-bounds panic. *)
Lemma C2_delete_short_key_panics :
  exists t,
    reachable t /\ HasItem t key_a = false /\
    DeleteItem t key_a = Panic SliceBounds.
Proof.
  eexists.
  split; [exact (reach_insert NewTrie key_abc val_x _ reach_new eq_refl)|].
  split; reflexivity.
Qed.

(** C7 fails on the code: after inserting "a" and "ab" and deleting "ab",
    the node of "a" holds an empty, non-nil map; [DeleteItem("a")] tests
    [node.edges == nil], so the node stays, not a leaf and without edges. *)
Lemma C7_orphan_node_remains :
  exists t,
    run [OpInsert key_a val_x; OpInsert key_ab val_y;
         OpDelete key_ab; OpDelete key_a] = Ok t /\
    reachable t /\ compactBelow (root t) = false /\
    getNode (root t) key_a = Some (Node false (Some []) val_x).
Proof.
  eexists. split; [reflexivity|].
  split; [|split; reflexivity].
  exact (run_reachable [OpInsert key_a val_x; OpInsert key_ab val_y;
                        OpDelete key_ab; OpDelete key_a] _ eq_refl).
Qed.

(** ** GetItem and Set *)

(** C3, as stated, fails: the code has no NotFound result.  After "a", "ab"
    and "ac" are inserted and "a" is deleted, "a" is not stored, yet
    [GetItem("a")] returns the data left in its node and [Set("a", d)]
    overwrites it. *)
Lemma C3_no_not_found_counterexample :
  exists t t',
    reachable t /\ HasItem t key_a = false /\
    GetItem t key_a = Ok val_z /\
    Set_ t key_a val_x = Ok t' /\ t' <> t /\ GetItem t' key_a = Ok val_x.
Proof.
  eexists _, _.
  split; [exact (run_reachable
                   [OpInsert key_a val_z; OpInsert key_ab val_x;
                    OpInsert key_ac val_y; OpDelete key_a] _ eq_refl)|].
  repeat split; try reflexivity. discriminate.
Qed.

(** C3 (amended): for a key whose terminal node exists and is not a leaf,
    [GetItem] returns the [data] field of that node, and [Set] overwrites
    it, leaving [HasItem] of every key as it was. *)
Theorem C3_nonleaf_terminal t k n :
  reachable t -> getNode (root t) k = Some n -> isLeaf n = false ->
  HasItem t k = false /\
  GetItem t k = Ok (data n) /\
  forall d, exists t',
    Set_ t k d = Ok t' /\ GetItem t' k = Ok d /\
    forall k2, HasItem t' k2 = HasItem t k2.
Proof.
  intros Hr Hg Hl. destruct (reachable_wf t Hr) as [Hwf _].
  unfold HasItem, GetItem. rewrite Hg. repeat split; trivial.
  intros d. destruct (Set_spec t k d n Hwf Hg) as (t' & E & _ & _ & Hg' & Hh).
  exists t'. rewrite Hg'. repeat split; trivial. apply Hh.
Qed.

Lemma C3_nonleaf_terminal_witness :
  exists t n,
    reachable t /\ getNode (root t) key_a = Some n /\ isLeaf n = false /\
    HasItem t key_a = false /\
    GetItem t key_a = Ok (data n) /\
    forall d, exists t',
      Set_ t key_a d = Ok t' /\ GetItem t' key_a = Ok d /\
      forall k2, HasItem t' k2 = HasItem t k2.
Proof.
  eexists _, _.
  pose proof (run_reachable [OpInsert key_ab val_x; OpInsert key_ac val_y]
                            _ eq_refl) as Hr.
  split; [exact Hr|]. split; [reflexivity|]. split; [reflexivity|].
  exact (C3_nonleaf_terminal _ key_a _ Hr eq_refl eq_refl).
Defined.

(** ** Keys *)

Lemma allKeys_eq n pref :
  allKeys n pref =
  (if isLeaf n then [pref] else []) ++
  flat_map (fun kv => allKeys (next (snd kv)) (pref ++ label (snd kv)))
           (elems (edges n)).
Proof.
  destruct n as [lf [l|] d]; cbn [allKeys isLeaf edges elems]; [|reflexivity].
  f_equal. induction l as [|[k e] l IH]; [reflexivity|].
  cbn [flat_map snd]. now rewrite IH.
Qed.

Lemma height_eq n :
  height n =
  fold_right (fun kv h => Nat.max (S (height (next (snd kv)))) h) 0
             (elems (edges n)).
Proof.
  destruct n as [lf [l|] d]; cbn [height edges elems]; [|reflexivity].
  induction l as [|[k e] l IH]; [reflexivity|].
  cbn [fold_right snd]. now rewrite IH.
Qed.

Lemma height_child n k e :
  In (k, e) (elems (edges n)) -> height (next e) < height n.
Proof.
  rewrite (height_eq n). induction (elems (edges n)) as [|[k' e'] l IH];
    [intros []|].
  cbn [fold_right snd]. intros [[= -> ->]|H]; [lia|].
  specialize (IH H). lia.
Qed.

Lemma startsWithFrom_nil prefix n : startsWithFrom prefix n [] = (Some n, prefix).
Proof. now destruct n. Qed.

Lemma startsWithFrom_cons prefix n b r :
  startsWithFrom prefix n (b :: r) =
  match emap_get (edges n) b with
  | None => (None, [])
  | Some e =>
      let splitIdx := getFirstMismatch (b :: r) (label e) in
      if negb (splitIdx =? length (label e)) then
        if splitIdx =? length (b :: r)
        then (Some (next e), prefix ++ skipn splitIdx (label e))
        else (None, [])
      else startsWithFrom prefix (next e) (skipn splitIdx (b :: r))
  end.
Proof.
  destruct n as [l [m|] d]; [|reflexivity].
  unfold emap_get. cbn [edges elems startsWithFrom].
  induction m as [|[k e] m IH]; [reflexivity|].
  cbn [map_get]. destruct (Byte.eqb k b); [reflexivity|exact IH].
Qed.

(** The three ways a key [b] meets the label of the edge it selects. *)
Lemma startsWithFrom_edge prefix n b e :
  emap_get (edges n) (hd Byte.x00 b) = Some e -> b <> [] ->
  exists p ra rb,
    b = p ++ ra /\ label e = p ++ rb /\ diverge ra rb /\
    startsWithFrom prefix n b =
    match rb, ra with
    | [], _ => startsWithFrom prefix (next e) ra
    | _ :: _, [] => (Some (next e), prefix ++ rb)
    | _ :: _, _ :: _ => (None, [])
    end.
Proof.
  intros E Hb. destruct b as [|x b]; [congruence|]. cbn [hd] in E.
  rewrite startsWithFrom_cons, E. cbv zeta.
  destruct (getFirstMismatch_split (x :: b) (label e))
    as (p & ra & rb & Hp & Hl & Hd).
  exists p, ra, rb. repeat split; trivial.
  rewrite Hp, Hl, (getFirstMismatch_app p ra rb Hd), !length_app.
  rewrite !skipn_app, !skipn_all, Nat.sub_diag. cbn [skipn app].
  destruct rb as [|y rb].
  - cbn [length]. now rewrite Nat.add_0_r, Nat.eqb_refl.
  - replace (length p =? length p + length (y :: rb)) with false
      by (symmetry; apply Nat.eqb_neq; simpl; lia).
    cbn [negb]. destruct ra as [|z ra].
    + cbn [length]. now rewrite Nat.add_0_r, Nat.eqb_refl.
    + replace (length p =? length p + length (z :: ra)) with false
        by (symmetry; apply Nat.eqb_neq; simpl; lia).
      reflexivity.
Qed.

Lemma getNode_app cur :
  forall a b n, getNode cur a = Some n -> getNode cur (a ++ b) = getNode n b.
Proof.
  induction cur as [l m d IH] using node_ind'. intros [|x a] b n.
  - rewrite getNode_nil. now intros [= <-].
  - cbn [app]. rewrite !getNode_cons.
    destruct (emap_get (edges (Node l m d)) x) as [e|] eqn:E; [|discriminate].
    destruct (strip (label e) (x :: a)) as [r'|] eqn:Es; [|discriminate].
    apply strip_spec in Es. intros Hg.
    change (x :: a ++ b) with ((x :: a) ++ b).
    rewrite Es, <- app_assoc, strip_app_same.
    apply map_get_In in E. now apply (IH x e E).
Qed.

Lemma stored_app cur a b n :
  getNode cur a = Some n -> stored cur (a ++ b) = stored n b.
Proof. intros H. unfold stored. now rewrite (getNode_app cur a b n H). Qed.

Lemma getNode_height cur :
  forall a n, getNode cur a = Some n -> height n <= height cur.
Proof.
  induction cur as [l m d IH] using node_ind'. intros [|x a] n.
  - rewrite getNode_nil. now intros [= <-].
  - rewrite getNode_cons.
    destruct (emap_get (edges (Node l m d)) x) as [e|] eqn:E; [|discriminate].
    destruct (strip (label e) (x :: a)) as [r'|]; [|discriminate].
    intros Hg. apply map_get_In in E.
    pose proof (IH x e E r' n Hg). pose proof (height_child _ x e E). lia.
Qed.

Lemma getNode_edge n k e :
  wf n -> In (k, e) (elems (edges n)) -> getNode n (label e) = Some (next e).
Proof.
  intros Hwf Hin. destruct n as [l m d].
  apply wf_inv in Hwf as (Hnd & Hlabs & _). cbn [edges] in Hin.
  destruct (Hlabs k e Hin) as [lab Hlab].
  rewrite Hlab, getNode_cons. unfold emap_get. cbn [edges].
  rewrite (map_get_NoDup _ k e Hnd Hin), <- Hlab.
  rewrite <- (app_nil_r (label e)) at 2.
  now rewrite strip_app_same, getNode_nil.
Qed.

Lemma startsWithFrom_exact prefix cur :
  forall b n, getNode cur b = Some n ->
              startsWithFrom prefix cur b = (Some n, prefix).
Proof.
  induction cur as [l m d IH] using node_ind'. intros [|x b] n.
  - rewrite getNode_nil, startsWithFrom_nil. now intros [= <-].
  - rewrite getNode_cons, startsWithFrom_cons.
    destruct (emap_get (edges (Node l m d)) x) as [e|] eqn:E; [|discriminate].
    unfold strip. cbv zeta.
    destruct (negb (getFirstMismatch (x :: b) (label e) =? length (label e)));
      [discriminate|].
    apply map_get_In in E. now apply (IH x e E).
Qed.

Lemma KeysRec_allKeys t :
  forall n, wf n ->
  forall fuel pref,
    getNode (root t) pref = Some n -> height n < fuel ->
    KeysRec fuel t pref = Ok (allKeys n pref).
Proof.
  induction n as [l m d IH] using node_ind'. intros Hwf [|fuel] pref Hg Hh;
    [lia|].
  cbn [KeysRec]. unfold startsWith.
  rewrite (startsWithFrom_exact pref (root t) pref _ Hg), allKeys_eq.
  set (n := Node l m d) in *.
  assert (Hsub : forall kv, In kv (elems (edges n)) ->
             KeysRec fuel t (pref ++ label (snd kv)) =
             Ok (allKeys (next (snd kv)) (pref ++ label (snd kv)))).
  { intros [k e] Hin. cbn [snd]. apply (IH k e Hin).
    - apply wf_inv in Hwf as (_ & _ & Hsub). eauto.
    - rewrite (getNode_app _ _ _ _ Hg). exact (getNode_edge n k e Hwf Hin).
    - pose proof (height_child n k e Hin). lia. }
  generalize (if isLeaf n then [pref] else []). revert Hsub.
  induction (elems (edges n)) as [|kv es IHes]; intros Hsub acc.
  - cbn [fold_left flat_map]. now rewrite app_nil_r.
  - cbn [fold_left flat_map bind]. rewrite (Hsub kv (or_introl eq_refl)).
    cbn [bind]. rewrite IHes, app_assoc; [reflexivity|].
    intros kv' H. apply Hsub. now right.
Qed.

Lemma allKeys_In n :
  wf n ->
  forall pref k,
    In k (allKeys n pref) <-> exists r, k = pref ++ r /\ stored n r <> None.
Proof.
  induction n as [l m d IH] using node_ind'. intros Hwf pref k.
  set (n := Node l m d) in *.
  assert (Hwe : forall c e, In (c, e) (elems (edges n)) -> wf (next e)).
  { apply wf_inv in Hwf as (_ & _ & Hsub). exact Hsub. }
  rewrite allKeys_eq, in_app_iff, in_flat_map. split.
  - intros [H|([c e] & Hin & H)].
    + exists []. rewrite stored_nil, app_nil_r.
      destruct (isLeaf n); [|destruct H]. destruct H as [<-|[]].
      split; [reflexivity|discriminate].
    + cbn [snd] in H. apply (IH c e Hin (Hwe c e Hin)) in H as (r & -> & Hr).
      exists (label e ++ r). rewrite app_assoc. split; [reflexivity|].
      now rewrite (stored_app n (label e) r _ (getNode_edge n c e Hwf Hin)).
  - intros ([|c q] & -> & Hr).
    + left. rewrite stored_nil in Hr. rewrite app_nil_r.
      destruct (isLeaf n); [now left|congruence].
    + right. rewrite stored_cons in Hr.
      destruct (emap_get (edges n) c) as [e|] eqn:E; [|congruence].
      destruct (strip (label e) (c :: q)) as [r'|] eqn:Es; [|congruence].
      apply strip_spec in Es. apply map_get_In in E.
      exists (c, e). split; [exact E|]. cbn [snd].
      apply (IH c e E (Hwe c e E)). exists r'.
      now rewrite Es, app_assoc.
Qed.

Lemma NoDup_flat_map_keyed {A} (G : byte * A -> list bytes) pref l :
  NoDup (map fst l) ->
  (forall kv, In kv l -> NoDup (G kv)) ->
  (forall kv x, In kv l -> In x (G kv) -> exists y, x = pref ++ fst kv :: y) ->
  NoDup (flat_map G l).
Proof.
  induction l as [|kv l IH]; intros Hnd Hg Hk; [constructor|].
  cbn [flat_map map] in *. inversion Hnd as [|? ? Hnotin Hnd']; subst.
  apply NoDup_app.
  - apply Hg. now left.
  - apply IH; trivial.
    + intros kv0 H0. apply Hg. now right.
    + intros kv0 x0 H0 Hx0. apply (Hk kv0 x0); [now right|assumption].
  - intros x Hx Hx'. apply in_flat_map in Hx' as (kv' & Hin' & Hx').
    destruct (Hk kv x (or_introl eq_refl) Hx) as [y Hy].
    destruct (Hk kv' x (or_intror Hin') Hx') as [y' Hy'].
    rewrite Hy in Hy'. apply app_inv_head in Hy'. injection Hy' as Hf _.
    apply Hnotin. rewrite Hf. now apply in_map.
Qed.

Lemma allKeys_NoDup n : wf n -> forall pref, NoDup (allKeys n pref).
Proof.
  induction n as [l m d IH] using node_ind'. intros Hwf pref.
  set (n := Node l m d) in *.
  pose proof Hwf as Hwf'. apply wf_inv in Hwf' as (Hnd & Hlabs & Hwe).
  assert (Hform : forall kv x,
             In kv (elems m) ->
             In x (allKeys (next (snd kv)) (pref ++ label (snd kv))) ->
             exists y, x = pref ++ fst kv :: y).
  { intros [c e] x Hin Hx. cbn [fst snd] in *.
    apply (allKeys_In (next e) (Hwe c e Hin)) in Hx as (r & -> & _).
    destruct (Hlabs c e Hin) as [lab ->].
    exists (lab ++ r). now rewrite <- app_assoc. }
  rewrite allKeys_eq. apply NoDup_app.
  - destruct (isLeaf n); repeat constructor. intros [].
  - cbn [edges n]. apply (NoDup_flat_map_keyed _ pref); trivial.
    intros [c e] Hin. apply (IH c e Hin). eauto.
  - intros x Hx Hx'. cbn [edges n] in Hx'.
    apply in_flat_map in Hx' as (kv & Hin & Hx').
    destruct (Hform kv x Hin Hx') as [y ->].
    destruct (isLeaf n); [|destruct Hx]. destruct Hx as [Hx|[]].
    rewrite <- (app_nil_r pref) in Hx at 1. apply app_inv_head in Hx.
    discriminate.
Qed.

(** Where [startsWith] lands: on the node at the end of the shortest path
    that covers the prefix, with the name of that path, or nowhere when no
    path covers it. *)
Lemma startsWithFrom_spec prefix cur :
  wf cur ->
  forall b,
    match startsWithFrom prefix cur b with
    | (Some n, pref) =>
        exists ext,
          pref = prefix ++ ext /\ getNode cur (b ++ ext) = Some n /\
          forall r, stored cur (b ++ r) <> None -> exists r', r = ext ++ r'
    | (None, _) => forall r, stored cur (b ++ r) = None
    end.
Proof.
  induction cur as [l m d IH] using node_ind'. intros Hwf [|x b].
  - rewrite startsWithFrom_nil. exists []. rewrite app_nil_r. cbn [app].
    rewrite getNode_nil. repeat split. intros r _. now exists r.
  - set (n := Node l m d) in *.
    destruct (emap_get (edges n) x) as [e|] eqn:E.
    2:{ rewrite startsWithFrom_cons, E. intros r. cbn [app].
        now rewrite stored_cons, E. }
    destruct (startsWithFrom_edge prefix n (x :: b) e E)
      as (p & ra & rb & Hp & Hl & Hd & ->); [discriminate|].
    assert (Hin := map_get_In _ _ _ E).
    assert (Hwe : wf (next e)).
    { apply wf_inv in Hwf as (_ & _ & Hsub). eauto. }
    assert (Hvia : forall r,
               stored n ((x :: b) ++ r) =
               match strip (label e) ((x :: b) ++ r) with
               | Some r' => stored (next e) r'
               | None => None
               end).
    { intros r. cbn [app]. now rewrite stored_cons, E. }
    destruct rb as [|y rb].
    + rewrite app_nil_r in Hl. subst p.
      specialize (IH x e Hin Hwe ra).
      destruct (startsWithFrom prefix (next e) ra) as [[n'|] pref].
      * destruct IH as (ext & -> & Hg & Hr). exists ext.
        split; [reflexivity|]. rewrite Hp, <- !app_assoc. split.
        -- rewrite (getNode_app n (label e) (ra ++ ext) (next e)); trivial.
           exact (getNode_edge n x e Hwf Hin).
        -- intros r. rewrite <- Hp, Hvia, Hp, <- app_assoc, strip_app_same.
           apply Hr.
      * intros r. now rewrite Hvia, Hp, <- app_assoc, strip_app_same.
    + destruct ra as [|z ra].
      * rewrite app_nil_r in Hp. exists (y :: rb). split; [reflexivity|].
        rewrite Hp, <- Hl. split; [exact (getNode_edge n x e Hwf Hin)|].
        intros r. rewrite <- Hp, Hvia, Hp, Hl.
        destruct (strip (p ++ y :: rb) (p ++ r)) as [r'|] eqn:Es;
          [|congruence].
        intros _. apply strip_spec in Es. rewrite <- app_assoc in Es.
        apply app_inv_head in Es. now exists r'.
      * intros r. rewrite Hvia, Hp, Hl.
        destruct (strip (p ++ y :: rb) ((p ++ z :: ra) ++ r)) as [r'|] eqn:Es;
          [|reflexivity].
        apply strip_spec in Es. rewrite <- !app_assoc in Es.
        apply app_inv_head in Es. injection Es as Es _. now elim Hd.
Qed.

(** The same for the nodes: every node whose path covers the prefix lies
    at or below the node [startsWith] lands on. *)
Lemma startsWithFrom_nodes prefix cur :
  wf cur ->
  forall b,
    match startsWithFrom prefix cur b with
    | (Some n, pref) =>
        exists ext,
          pref = prefix ++ ext /\ getNode cur (b ++ ext) = Some n /\
          forall r, getNode cur (b ++ r) <> None -> exists r', r = ext ++ r'
    | (None, _) => forall r, getNode cur (b ++ r) = None
    end.
Proof.
  induction cur as [l m d IH] using node_ind'. intros Hwf [|x b].
  - rewrite startsWithFrom_nil. exists []. rewrite app_nil_r. cbn [app].
    rewrite getNode_nil. repeat split. intros r _. now exists r.
  - set (n := Node l m d) in *.
    destruct (emap_get (edges n) x) as [e|] eqn:E.
    2:{ rewrite startsWithFrom_cons, E. intros r. cbn [app].
        now rewrite getNode_cons, E. }
    destruct (startsWithFrom_edge prefix n (x :: b) e E)
      as (p & ra & rb & Hp & Hl & Hd & ->); [discriminate|].
    assert (Hin := map_get_In _ _ _ E).
    assert (Hwe : wf (next e)).
    { apply wf_inv in Hwf as (_ & _ & Hsub). eauto. }
    assert (Hvia : forall r,
               getNode n ((x :: b) ++ r) =
               match strip (label e) ((x :: b) ++ r) with
               | Some r' => getNode (next e) r'
               | None => None
               end).
    { intros r. cbn [app]. now rewrite getNode_cons, E. }
    destruct rb as [|y rb].
    + rewrite app_nil_r in Hl. subst p.
      specialize (IH x e Hin Hwe ra).
      destruct (startsWithFrom prefix (next e) ra) as [[n'|] pref].
      * destruct IH as (ext & -> & Hg & Hr). exists ext.
        split; [reflexivity|]. rewrite Hp, <- !app_assoc. split.
        -- rewrite (getNode_app n (label e) (ra ++ ext) (next e)); trivial.
           exact (getNode_edge n x e Hwf Hin).
        -- intros r. rewrite <- Hp, Hvia, Hp, <- app_assoc, strip_app_same.
           apply Hr.
      * intros r. now rewrite Hvia, Hp, <- app_assoc, strip_app_same.
    + destruct ra as [|z ra].
      * rewrite app_nil_r in Hp. exists (y :: rb). split; [reflexivity|].
        rewrite Hp, <- Hl. split; [exact (getNode_edge n x e Hwf Hin)|].
        intros r. rewrite <- Hp, Hvia, Hp, Hl.
        destruct (strip (p ++ y :: rb) (p ++ r)) as [r'|] eqn:Es;
          [|congruence].
        intros _. apply strip_spec in Es. rewrite <- app_assoc in Es.
        apply app_inv_head in Es. now exists r'.
      * intros r. rewrite Hvia, Hp, Hl.
        destruct (strip (p ++ y :: rb) ((p ++ z :: ra) ++ r)) as [r'|] eqn:Es;
          [|reflexivity].
        apply strip_spec in Es. rewrite <- !app_assoc in Es.
        apply app_inv_head in Es. injection Es as Es _. now elim Hd.
Qed.

Lemma Keys_spec t p :
  wf (root t) ->
  exists l,
    Keys t p = Ok l /\ NoDup l /\
    forall k, In k l <-> (HasItem t k = true /\ exists r, k = p ++ r).
Proof.
  intros Hwf. unfold Keys.
  pose proof (startsWithFrom_spec p (root t) Hwf p) as Hs.
  assert (Hhas : forall k, HasItem t k = true <-> stored (root t) k <> None).
  { intros k. rewrite HasItem_stored.
    destruct (stored (root t) k); split; congruence. }
  destruct (startsWithFrom p (root t) p) as [[n|] pref] eqn:Esw.
  - destruct Hs as (ext & -> & Hg & Hr).
    assert (Hwn : wf n).
    { clear -Hwf Hg. revert Hg. generalize (p ++ ext). revert n.
      induction (root t) as [l m d IH] using node_ind'. intros n [|x b].
      - rewrite getNode_nil. now intros [= <-].
      - rewrite getNode_cons.
        destruct (emap_get (edges (Node l m d)) x) as [e|] eqn:E;
          [|discriminate].
        destruct (strip (label e) (x :: b)) as [r'|]; [|discriminate].
        apply map_get_In in E. apply (IH x e E).
        apply wf_inv in Hwf as (_ & _ & Hsub). eauto. }
    exists (allKeys n (p ++ ext)). split; [|split].
    + rewrite <- (KeysRec_allKeys t n Hwn (S (height (root t))) (p ++ ext) Hg).
      * cbn [KeysRec]. unfold startsWith.
        now rewrite Esw, (startsWithFrom_exact (p ++ ext) (root t) _ n Hg).
      * pose proof (getNode_height (root t) _ n Hg). lia.
    + now apply allKeys_NoDup.
    + intros k. rewrite (allKeys_In n Hwn), Hhas. split.
      * intros (r & -> & Hst).
        rewrite (stored_app (root t) (p ++ ext) r n Hg). split; [exact Hst|].
        exists (ext ++ r). now rewrite app_assoc.
      * intros (Hst & r & ->). destruct (Hr r Hst) as [r' ->].
        exists r'. rewrite app_assoc. split; [reflexivity|].
        now rewrite app_assoc, (stored_app (root t) (p ++ ext) r' n Hg) in Hst.
  - exists []. split; [|split].
    + cbn [KeysRec]. unfold startsWith. now rewrite Esw.
    + constructor.
    + intros k. rewrite Hhas. split; [intros []|].
      intros (Hst & r & ->). now rewrite Hs in Hst.
Qed.

(** The nodes below a node, by paths and by lookups. *)

Lemma reaches_getNode n r d m : wf n -> reaches n r d m -> getNode n r = Some m.
Proof.
  intros Hwf Hr. induction Hr as [n|n k e r d m E Hr IH].
  - apply getNode_nil.
  - destruct (wf_get n k e Hwf E) as [_ Hwe].
    rewrite (getNode_app n (label e) r (next e)); [now apply IH|].
    apply (getNode_edge n k e Hwf). unfold emap_get in E.
    now apply map_get_In in E.
Qed.

Lemma getNode_reaches n : forall r m, getNode n r = Some m -> exists d, reaches n r d m.
Proof.
  induction n as [l mm dd IH] using node_ind'. intros [|x b] m.
  - rewrite getNode_nil. intros [= <-]. exists 0. constructor.
  - rewrite getNode_cons.
    destruct (emap_get (edges (Node l mm dd)) x) as [e|] eqn:E; [|discriminate].
    destruct (strip (label e) (x :: b)) as [r'|] eqn:Es; [|discriminate].
    apply strip_spec in Es. intros Hg.
    destruct (IH x e (map_get_In _ _ _ E) r' m Hg) as [d Hd].
    exists (S d). rewrite Es. now apply (reaches_edge _ x e).
Qed.

Lemma reaches_depth n r d m : wf n -> reaches n r d m -> d <= length r.
Proof.
  intros Hwf Hr. induction Hr as [n|n k e r d m E Hr IH]; [simpl; lia|].
  destruct (wf_get n k e Hwf E) as [[lab Hlab] Hwe].
  specialize (IH Hwe). rewrite Hlab, length_app. simpl. lia.
Qed.

(** C6: on every reachable trie and for every prefix [p], [Keys(p)] returns;
    its result lists, each once, exactly the keys the trie holds that start
    with [p], and it is empty (nil) when there is none.  The trie holds the
    key [k] when the labels along a path from the root spell [k] and the
    node at its end is marked as a leaf. *)
Theorem C6_keys_prefix t p :
  reachable t ->
  exists l,
    Keys t p = Ok l /\ NoDup l /\
    (forall k, In k l <->
               ((exists d m, reaches (root t) k d m /\ isLeaf m = true) /\
                exists r, k = p ++ r)) /\
    ((forall k r d m, reaches (root t) k d m -> isLeaf m = true ->
                      k <> p ++ r) -> l = []).
Proof.
  intros Hr. destruct (reachable_wf t Hr) as [Hwf _].
  destruct (Keys_spec t p Hwf) as (l & E & Hnd & Hin).
  assert (Hheld : forall k,
             HasItem t k = true <->
             exists d m, reaches (root t) k d m /\ isLeaf m = true).
  { intros k. unfold HasItem. split.
    - destruct (getNode (root t) k) as [m|] eqn:Em; [|discriminate].
      intros Hl. destruct (getNode_reaches _ _ _ Em) as [d Hd]. now exists d, m.
    - intros (d & m & Hre & Hl).
      now rewrite (reaches_getNode _ _ _ _ Hwf Hre). }
  exists l. split; [exact E|]. split; [exact Hnd|]. split.
  - intros k. now rewrite Hin, Hheld.
  - intros Hnone. destruct l as [|k l]; [reflexivity|].
    destruct (proj1 (Hin k) (or_introl eq_refl)) as (Hk & r & Hp).
    apply Hheld in Hk as (d & m & Hre & Hl).
    now elim (Hnone k r d m Hre Hl).
Qed.

Lemma C6_keys_prefix_witness :
  exists t,
    reachable t /\
    exists l,
      Keys t key_a = Ok l /\ NoDup l /\
      (forall k, In k l <->
                 ((exists d m, reaches (root t) k d m /\ isLeaf m = true) /\
                  exists r, k = key_a ++ r)) /\
      ((forall k r d m, reaches (root t) k d m -> isLeaf m = true ->
                        k <> key_a ++ r) -> l = []).
Proof.
  eexists.
  pose proof (run_reachable
                [OpInsert key_abc val_x; OpInsert key_abd val_y;
                 OpInsert key_a val_z; OpDelete key_abc] _ eq_refl) as Hr.
  split; [exact Hr|]. exact (C6_keys_prefix _ key_a Hr).
Defined.

(** ** Traverse *)

Lemma to_nat_inj (a b : byte) : to_nat a = to_nat b -> a = b.
Proof.
  intros H. pose proof (of_to_nat a) as Ha. rewrite H, of_to_nat in Ha.
  congruence.
Qed.

Lemma insertSorted_perm k l : Permutation (insertSorted k l) (k :: l).
Proof.
  induction l as [|a l IH]; cbn [insertSorted]; [reflexivity|].
  destruct (to_nat k <=? to_nat a); [reflexivity|].
  rewrite IH. apply perm_swap.
Qed.

Lemma sortSlice_perm l : Permutation (sortSlice l) l.
Proof.
  induction l as [|a l IH]; cbn [sortSlice fold_right]; [reflexivity|].
  fold (sortSlice l). now rewrite insertSorted_perm, IH.
Qed.

Lemma insertSorted_comm x y l :
  insertSorted x (insertSorted y l) = insertSorted y (insertSorted x l).
Proof.
  destruct (byte_eq_dec x y) as [->|Hne]; [reflexivity|].
  assert (Hn : to_nat x <> to_nat y) by (intros H; now apply to_nat_inj in H).
  induction l as [|a l IH]; cbn [insertSorted].
  - destruct (Nat.leb_spec (to_nat x) (to_nat y)),
             (Nat.leb_spec (to_nat y) (to_nat x)); try reflexivity; lia.
  - destruct (Nat.leb_spec (to_nat x) (to_nat a)),
             (Nat.leb_spec (to_nat y) (to_nat a)); cbn [insertSorted];
      repeat match goal with
             | |- context [?u <=? ?v] => destruct (Nat.leb_spec u v)
             end; try reflexivity; try lia.
    now rewrite IH.
Qed.

Lemma sortSlice_Permutation l1 l2 :
  Permutation l1 l2 -> sortSlice l1 = sortSlice l2.
Proof.
  unfold sortSlice. induction 1; cbn [fold_right].
  - reflexivity.
  - now f_equal.
  - apply insertSorted_comm.
  - congruence.
Qed.

Lemma insertSorted_sorted k l :
  ~ In k l -> StronglySorted byte_lt l -> StronglySorted byte_lt (insertSorted k l).
Proof.
  induction l as [|a l IH]; cbn [insertSorted]; intros Hk Hs.
  - repeat constructor.
  - apply StronglySorted_inv in Hs as [Hs Ha].
    assert (Hne : to_nat k <> to_nat a).
    { intros H. apply to_nat_inj in H. apply Hk. now left. }
    destruct (Nat.leb_spec (to_nat k) (to_nat a)).
    + constructor; [now constructor|].
      constructor; [unfold byte_lt; lia|].
      rewrite Forall_forall in *. intros b Hb. specialize (Ha b Hb).
      unfold byte_lt in *. lia.
    + constructor.
      * apply IH; trivial. intros Hin. apply Hk. now right.
      * rewrite Forall_forall in *. intros b Hb.
        apply (Permutation_in _ (insertSorted_perm k l)) in Hb.
        destruct Hb as [<-|Hb]; [exact H|now apply Ha].
Qed.

Lemma sortSlice_sorted l : NoDup l -> StronglySorted byte_lt (sortSlice l).
Proof.
  induction 1 as [|a l Ha Hnd IH]; cbn [sortSlice fold_right];
    [constructor|].
  fold (sortSlice l). apply insertSorted_sorted; trivial.
  intros Hin. apply Ha. exact (Permutation_in _ (sortSlice_perm l) Hin).
Qed.

Lemma equiv_keys n1 n2 :
  wf n1 -> wf n2 -> equiv n1 n2 -> keys (edges n1) true = keys (edges n2) true.
Proof.
  intros H1 H2 He. inversion He as [l d m1 m2 Hnone _ _]; subst.
  apply wf_inv in H1 as (Hnd1 & _). apply wf_inv in H2 as (Hnd2 & _).
  unfold keys. cbn [edges]. apply sortSlice_Permutation.
  apply NoDup_Permutation; trivial. intros k.
  pose proof (map_get_None (elems m1) k) as G1.
  pose proof (map_get_None (elems m2) k) as G2.
  specialize (Hnone k). unfold emap_get in Hnone.
  destruct (in_dec byte_eq_dec k (map fst (elems m1))),
           (in_dec byte_eq_dec k (map fst (elems m2))); tauto.
Qed.

Lemma height_lt n h :
  h < height n <-> exists k e, In (k, e) (elems (edges n)) /\ h <= height (next e).
Proof.
  rewrite height_eq. induction (elems (edges n)) as [|[k e] l IH];
    cbn [fold_right snd].
  - split; [lia|now intros (? & ? & [] & _)].
  - rewrite Nat.max_lt_iff, IH. split.
    + intros [H|(k' & e' & Hin & H)].
      * exists k, e. split; [now left|lia].
      * exists k', e'. split; [now right|exact H].
    + intros (k' & e' & Hin & Hh). destruct Hin as [Heq|Hin].
      * injection Heq as <- <-. left. lia.
      * right. eauto.
Qed.

Lemma equiv_sym n1 : forall n2, equiv n1 n2 -> equiv n2 n1.
Proof.
  induction n1 as [l m d IH] using node_ind'. intros n2 He.
  inversion He as [l' d' m1 m2 Hnone Hlab Hnext]; subst.
  constructor.
  - intros k. now rewrite Hnone.
  - intros k e2 e1 E2 E1. symmetry. eauto.
  - intros k e2 e1 E2 E1. apply (IH k e1); eauto.
    unfold emap_get in E1. now apply map_get_In in E1.
Qed.

Lemma equiv_height_le n1 :
  forall n2, wf n1 -> wf n2 -> equiv n1 n2 -> height n1 <= height n2.
Proof.
  induction n1 as [l m d IH] using node_ind'. intros n2 Hwf1 Hwf2 He.
  inversion He as [l' d' m1 m2 Hnone Hlab Hnext]; subst.
  destruct (height (Node l m d)) as [|h] eqn:Eh; [lia|].
  assert (Hlt : h < height (Node l m d)) by lia.
  apply height_lt in Hlt as (k & e & Hin & Hh). cbn [edges] in Hin.
  apply wf_inv in Hwf1 as (Hnd1 & _ & Hsub1).
  pose proof (map_get_NoDup _ k e Hnd1 Hin) as E1.
  destruct (emap_get m2 k) as [e2|] eqn:E2.
  2:{ apply Hnone in E2. unfold emap_get in E2. congruence. }
  destruct (wf_get _ k e2 Hwf2 E2) as [_ Hwe2].
  pose proof (IH k e Hin (next e2) (Hsub1 k e Hin) Hwe2 (Hnext k e e2 E1 E2)).
  apply Nat.le_succ_l, height_lt. exists k, e2. split; [|lia].
  unfold emap_get in E2. now apply map_get_In in E2.
Qed.

Lemma equiv_height n1 n2 :
  wf n1 -> wf n2 -> equiv n1 n2 -> height n1 = height n2.
Proof.
  intros H1 H2 He. apply Nat.le_antisymm.
  - now apply equiv_height_le.
  - apply equiv_height_le; trivial. now apply equiv_sym.
Qed.

Section TraverseFacts.
Context {St Err : Type}.

Lemma forKeys_ext (body1 body2 : byte -> St -> result (St * option Err)) ks :
(forall k s, In k ks -> body1 k s = body2 k s) ->
forall s, forKeys body1 ks s = forKeys body2 ks s.
Proof.
induction ks as [|k ks IH]; intros Hb s; [reflexivity|].
cbn [forKeys]. rewrite (Hb k s (or_introl eq_refl)).
destruct (body2 k s) as [[s' [err|]]| |]; cbn [bind]; try reflexivity.
apply IH. intros k' s0 Hin. apply Hb. now right.
Qed.

Lemma traverse_equiv fuel :
forall n1 n2, wf n1 -> wf n2 -> equiv n1 n2 ->
forall step path (fn : TFunc St Err) s,
  traverse fuel true (Some n1) step path fn s =
  traverse fuel true (Some n2) step path fn s.
Proof.
induction fuel as [|fuel IH]; intros n1 n2 H1 H2 He step path fn s;
  [reflexivity|].
cbn [traverse]. rewrite (equiv_keys n1 n2 H1 H2 He).
inversion He as [l d m1 m2 Hnone Hlab Hnext]; subst. cbn [data isLeaf edges].
destruct (fn step path d l s) as [s1 [continue [err|]]]; [reflexivity|].
destruct (negb continue); [reflexivity|].
apply forKeys_ext. intros k s' _.
destruct (emap_get m1 k) as [e1|] eqn:E1, (emap_get m2 k) as [e2|] eqn:E2.
- rewrite (Hlab k e1 e2 E1 E2).
  destruct (wf_get _ k e1 H1 E1) as [_ Hw1].
  destruct (wf_get _ k e2 H2 E2) as [_ Hw2].
  apply IH; eauto.
- apply Hnone in E2. congruence.
- apply Hnone in E1. congruence.
- reflexivity.
Qed.

(** With fuel above the height of the tree the walk completes. *)
Lemma traverse_total fuel :
forall n, wf n -> height n < fuel ->
forall srt step path (fn : TFunc St Err) s,
  exists r, traverse fuel srt (Some n) step path fn s = Ok r.
Proof.
induction fuel as [|fuel IH]; intros n Hwf Hh srt step path fn s; [lia|].
cbn [traverse].
destruct (fn step path (data n) (isLeaf n) s) as [s1 [continue [err|]]];
  [eauto|].
destruct (negb continue); [eauto|].
assert (Hks : forall k, In k (keys (edges n) srt) ->
                        exists e, emap_get (edges n) k = Some e).
{ intros k Hin. unfold keys in Hin.
  assert (Hin' : In k (map fst (elems (edges n)))).
  { destruct srt; [|exact Hin].
    exact (Permutation_in _ (sortSlice_perm _) Hin). }
  destruct (emap_get (edges n) k) as [e|] eqn:E; [eauto|].
  unfold emap_get in E. now apply map_get_None in E. }
revert s1. induction (keys (edges n) srt) as [|k ks IHks]; intros s1.
- cbn [forKeys]. eauto.
- cbn [forKeys]. destruct (Hks k (or_introl eq_refl)) as [e E]. rewrite E.
  destruct (wf_get _ k e Hwf E) as [_ Hwe].
  unfold emap_get in E. apply map_get_In in E.
  pose proof (height_child n k e E) as Hc.
  destruct (IH (next e) Hwe ltac:(lia) srt (step + 1) (path ++ label e) fn s1)
    as [[s' [err|]] ->]; cbn [bind]; [eauto|].
  apply IHks. intros k' Hin. apply Hks. now right.
Qed.
End TraverseFacts.

Lemma getNode_wf cur : wf cur -> forall p n, getNode cur p = Some n -> wf n.
Proof.
  induction cur as [l m d IH] using node_ind'. intros Hwf [|x b] n.
  - rewrite getNode_nil. now intros [= <-].
  - rewrite getNode_cons.
    destruct (emap_get (edges (Node l m d)) x) as [e|] eqn:E; [|discriminate].
    destruct (strip (label e) (x :: b)) as [r'|]; [|discriminate].
    destruct (wf_get _ x e Hwf E) as [_ Hwe].
    apply map_get_In in E. now apply (IH x e E).
Qed.

(** The order in which a sorted traversal takes the children of a node. *)
Lemma keys_sorted n :
  wf n ->
  StronglySorted byte_lt (keys (edges n) true) /\
  Permutation (keys (edges n) true) (map fst (elems (edges n))) /\
  forall k, In k (keys (edges n) true) ->
            exists e lab, emap_get (edges n) k = Some e /\ label e = k :: lab.
Proof.
  intros Hwf. unfold keys. split; [|split].
  - apply sortSlice_sorted. destruct n. now apply wf_inv in Hwf.
  - apply sortSlice_perm.
  - intros k Hin. apply (Permutation_in _ (sortSlice_perm _)) in Hin.
    destruct (emap_get (edges n) k) as [e|] eqn:E.
    + destruct (wf_get n k e Hwf E) as [[lab Hlab] _]. eauto.
    + unfold emap_get in E. now apply map_get_None in E.
Qed.

Lemma bytes_eqb_eq a : forall b, bytes_eqb a b = true -> a = b.
Proof.
  induction a as [|x a IH]; intros [|y b]; cbn [bytes_eqb]; try discriminate;
    [reflexivity|].
  intros H. apply andb_prop in H as [Hx Ha]. apply byte_dec_bl in Hx.
  now rewrite Hx, (IH b Ha).
Qed.

Lemma equivb_sound n1 : forall n2, equivb n1 n2 = true -> equiv n1 n2.
Proof.
  induction n1 as [l1 m1 d1 IH] using node_ind'. intros [l2 m2 d2] H.
  cbn [equivb isLeaf data edges] in H.
  apply andb_prop in H as [H Hall]. apply andb_prop in H as [H Hback].
  apply andb_prop in H as [Hl Hd]. apply Bool.eqb_prop in Hl. subst l2.
  assert (d1 = d2) as <-.
  { destruct d1, d2; try discriminate; [|reflexivity].
    cbn [data_eqb] in Hd. now rewrite (bytes_eqb_eq _ _ Hd). }
  assert (Hfwd : forall k e1, In (k, e1) (elems m1) ->
             exists e2, emap_get m2 k = Some e2 /\
                        bytes_eqb (label e1) (label e2) = true /\
                        equivb (next e1) (next e2) = true).
  { clear Hback. destruct m1 as [es|]; [|intros ? ? []]. cbn [elems].
    induction es as [|[k e1] es IHes]; [intros ? ? []|].
    apply andb_prop in Hall as [Hh Ht]. intros k' e' [[= <- <-]|Hin].
    - destruct (emap_get m2 k) as [e2|]; [|discriminate].
      apply andb_prop in Hh. eauto.
    - apply IHes; trivial. intros k0 e0 H0. apply (IH k0 e0). now right. }
  rewrite forallb_forall in Hback.
  constructor.
  - intros k. unfold emap_get. split; intros E.
    + destruct (map_get (elems m2) k) as [e2|] eqn:E2; [|reflexivity].
      apply map_get_In in E2. specialize (Hback _ E2). cbn [fst] in Hback.
      now rewrite E in Hback.
    + destruct (map_get (elems m1) k) as [e1|] eqn:E1; [|reflexivity].
      apply map_get_In in E1. destruct (Hfwd k e1 E1) as (e2 & E2 & _).
      unfold emap_get in E2. congruence.
  - intros k e1 e2 E1 E2. unfold emap_get in E1. apply map_get_In in E1.
    destruct (Hfwd k e1 E1) as (e2' & E2' & Hlab & _).
    rewrite E2 in E2'. injection E2' as <-. now apply bytes_eqb_eq.
  - intros k e1 e2 E1 E2. unfold emap_get in E1. apply map_get_In in E1.
    destruct (Hfwd k e1 E1) as (e2' & E2' & _ & Hn).
    rewrite E2 in E2'. injection E2' as <-. now apply (IH k e1 E1).
Qed.

(** ** Tries built by insertions alone *)

Lemma inserted_reachable t : inserted t -> reachable t.
Proof.
  induction 1; [constructor|now constructor|].
  eapply reach_insert; eassumption.
Qed.

Lemma canonBelow_inv l m d :
  canonBelow (Node l m d) ->
  (forall k e, In (k, e) (elems m) -> nodeCompact (next e) = true) /\
  (forall k e, In (k, e) (elems m) ->
               isLeaf (next e) = false -> data (next e) = None) /\
  (forall k e, In (k, e) (elems m) -> canonBelow (next e)).
Proof. intros H. inversion H; subst. auto. Qed.

Lemma canonBelow_edges n1 n2 :
  edges n1 = edges n2 -> canonBelow n1 -> canonBelow n2.
Proof.
  destruct n1 as [l1 m1 d1], n2 as [l2 m2 d2]. simpl. intros -> H.
  apply canonBelow_inv in H as (H1 & H2 & H3). now constructor.
Qed.

Lemma map_set_length {V} (m : list (byte * V)) k v :
  length (map_set m k v) =
  match map_get m k with
  | Some _ => length m
  | None => S (length m)
  end.
Proof.
  rewrite <- !(length_map fst), map_set_keys.
  destruct (map_get m k); [reflexivity|].
  rewrite length_app. simpl. lia.
Qed.

Lemma insertLoop_canon fuel :
  forall cur bPref d cur',
    wf cur -> length bPref <= fuel -> canonBelow cur ->
    insertLoop fuel cur bPref d = Ok cur' ->
    canonBelow cur' /\
    emap_len (edges cur) <= emap_len (edges cur') /\
    (forall k r, bPref = k :: r -> emap_get (edges cur) k = None ->
                 emap_len (edges cur') = S (emap_len (edges cur))).
Proof.
  induction fuel as [|fuel IH]; intros cur [|k r] d cur' Hwf Hlen Hc;
    try (intros [= <-]; repeat split; trivial; discriminate);
    try (simpl in Hlen; lia).
  destruct (map_get (elems (edges cur)) k) as [e|] eqn:E.
  - destruct (wf_get cur k e Hwf E) as [Hlab Hnext].
    destruct (insertLoop_step fuel cur k r e d E Hlab)
      as (p & tail & rest & He & -> & Hd & ->).
    set (nxt := markLeaf rest d (splitNode tail (next e))).
    assert (Hnxt : wf nxt) by now apply wf_markLeaf, wf_splitNode.
    assert (Hlen' : length rest <= fuel).
    { simpl in Hlen. rewrite length_app in Hlen. lia. }
    destruct (insertLoop_spec fuel nxt rest d Hnxt Hlen')
      as (nxt' & En & _ & Hl' & Hd' & Hnil & _).
    rewrite En. cbn [bind]. intros [= <-].
    destruct cur as [l m dd]. cbn [edges elems isLeaf data] in *.
    apply canonBelow_inv in Hc as (Hc1 & Hc2 & Hc3).
    assert (Hin := map_get_In _ _ _ E).
    assert (Hcn : canonBelow nxt).
    { unfold nxt.
      apply (canonBelow_edges (splitNode tail (next e)));
        [now destruct rest, (splitNode tail (next e))|].
      destruct tail as [|t0 tail]; cbn [splitNode]; [eauto|].
      constructor; cbn [elems]; intros k' e' [[= <- <-]|[]]; cbn [next]; eauto. }
    destruct (IH nxt rest d nxt' Hnxt Hlen' Hcn En) as (Hcn' & Hle & Hnew).
    split; [|split].
    + constructor; cbn [elems]; intros k' e' Hin';
        apply map_set_In in Hin' as [[-> ->]|Hin']; cbn [next]; eauto.
      * unfold nodeCompact. rewrite Hl'. subst nxt.
        destruct rest as [|r0 rest]; [reflexivity|]. cbn [markLeaf] in *.
        destruct tail as [|t0 tail]; cbn [splitNode] in *.
        -- specialize (Hc1 k e Hin). unfold nodeCompact in Hc1.
           destruct (isLeaf (next e)); [reflexivity|]. cbn [orb] in *.
           apply Nat.leb_le in Hc1. apply Nat.leb_le. lia.
        -- cbn [isLeaf orb]. apply Nat.leb_le.
           rewrite (Hnew r0 rest eq_refl); [reflexivity|].
           unfold emap_get. cbn [edges elems map_get]. simpl in Hd.
           rewrite byte_eqb_neq by congruence. reflexivity.
      * rewrite Hl', Hd'. subst nxt.
        destruct rest as [|r0 rest]; [discriminate|]. cbn [markLeaf].
        destruct tail as [|t0 tail]; cbn [splitNode]; [eauto|reflexivity].
    + unfold emap_len. cbn [edges elems]. rewrite map_set_length, E. lia.
    + intros k' r' [= <- _] E'. unfold emap_get in E'. cbn [elems] in E'.
      congruence.
  - rewrite (insertLoop_new fuel cur k r d E). intros [= <-].
    destruct cur as [l m dd]. cbn [edges elems isLeaf data] in *.
    apply canonBelow_inv in Hc as (Hc1 & Hc2 & Hc3).
    split; [|split].
    + constructor; cbn [elems]; intros k' e' Hin';
        apply map_set_In in Hin' as [[-> ->]|Hin']; cbn [next]; eauto.
      * discriminate.
      * constructor; simpl; intros ? ? [].
    + unfold emap_len. cbn [edges elems]. rewrite map_set_length, E. lia.
    + intros _ _ _ _. unfold emap_len. cbn [edges elems].
      now rewrite map_set_length, E.
Qed.

Lemma inserted_canon t :
  inserted t -> canonBelow (root t) /\ data (root t) = None.
Proof.
  induction 1 as [|t s _ IH|t k d t' Hi [Hc Hd] E].
  - split; [|reflexivity]. constructor; simpl; intros ? ? [].
  - exact IH.
  - destruct (reachable_wf t (inserted_reachable t Hi)) as [Hwf _].
    unfold InsertItem in E.
    destruct (insertLoop_spec (length k) (root t) k d Hwf (le_n _))
      as (r & Er & _ & _ & Hd' & _).
    rewrite Er in E. cbn [bind] in E. injection E as <-. cbn [root].
    split; [|congruence].
    exact (proj1 (insertLoop_canon (length k) (root t) k d r Hwf (le_n _) Hc Er)).
Qed.

Lemma wf_In n k e :
  wf n -> In (k, e) (elems (edges n)) ->
  (exists lab, label e = k :: lab) /\ wf (next e).
Proof.
  destruct n as [l m d]. intros H Hin. apply wf_inv in H as (_ & H1 & H2).
  split; eauto.
Qed.

(** Every compact node has a key stored at or below it. *)
Lemma canon_inhabited n :
  wf n -> canonBelow n -> nodeCompact n = true ->
  exists r, stored n r <> None.
Proof.
  induction n as [l m d IH] using node_ind'. intros Hwf Hc Hn.
  destruct l.
  - exists []. rewrite stored_nil. discriminate.
  - unfold nodeCompact in Hn. cbn [isLeaf orb edges] in Hn.
    apply Nat.leb_le in Hn. unfold emap_len in Hn.
    destruct (elems m) as [|[k e] es] eqn:Em; [simpl in Hn; lia|].
    assert (Hin : In (k, e) (elems m)) by (rewrite Em; now left).
    pose proof Hwf as Hwf'. apply wf_inv in Hwf' as (_ & _ & Hsub).
    apply canonBelow_inv in Hc as (Hc1 & _ & Hc3).
    destruct (IH k e (or_introl eq_refl) (Hsub k e Hin) (Hc3 k e Hin)
                (Hc1 k e Hin)) as [r Hr].
    exists (label e ++ r).
    now rewrite (stored_app _ (label e) r _ (getNode_edge _ k e Hwf Hin)).
Qed.

Lemma canon_inhabited_edge n k e :
  wf n -> canonBelow n -> In (k, e) (elems (edges n)) ->
  exists r, stored n (label e ++ r) <> None.
Proof.
  intros Hwf Hc Hin. pose proof (getNode_edge n k e Hwf Hin) as Hg.
  destruct n as [l m d]. cbn [edges] in Hin.
  apply wf_inv in Hwf as (_ & _ & Hsub).
  apply canonBelow_inv in Hc as (Hc1 & _ & Hc3).
  destruct (canon_inhabited (next e) (Hsub k e Hin) (Hc3 k e Hin) (Hc1 k e Hin))
    as [r Hr].
  exists r. now rewrite (stored_app _ (label e) r _ Hg).
Qed.

Lemma prefix_of_two (l1 l2 : bytes) :
  forall a b xa xb u v,
    l1 ++ a :: xa = l2 ++ u -> l1 ++ b :: xb = l2 ++ v -> a <> b ->
    exists w, l1 = l2 ++ w.
Proof.
  revert l1. induction l2 as [|y l2 IH]; intros l1 a b xa xb u v Ha Hb Hne.
  - now exists l1.
  - destruct l1 as [|x l1]; cbn [app] in *.
    + injection Ha as -> _. injection Hb as -> _. congruence.
    + injection Ha as -> Ha. injection Hb as Hb.
      destruct (IH l1 a b xa xb u v Ha Hb Hne) as [w ->]. now exists w.
Qed.

(** The label of an edge is fixed by the keys stored below it. *)
Lemma canon_label_prefix n1 n2 k e1 e2 :
  wf n1 -> wf n2 -> canonBelow n1 ->
  (forall key, stored n1 key = stored n2 key) ->
  emap_get (edges n1) k = Some e1 -> emap_get (edges n2) k = Some e2 ->
  exists w, label e1 = label e2 ++ w.
Proof.
  intros Hwf1 Hwf2 Hc Hst E1 E2.
  destruct (wf_get n1 k e1 Hwf1 E1) as [[lab1 Hlab1] Hwe1].
  assert (Hin1 : In (k, e1) (elems (edges n1))).
  { unfold emap_get in E1. now apply map_get_In in E1. }
  pose proof (getNode_edge n1 k e1 Hwf1 Hin1) as Hg1.
  assert (Hpre : forall r, stored (next e1) r <> None ->
                           exists u, label e1 ++ r = label e2 ++ u).
  { intros r Hr. rewrite <- (stored_app n1 (label e1) r _ Hg1), Hst in Hr.
    rewrite Hlab1 in *. cbn [app] in Hr. rewrite stored_cons, E2 in Hr.
    destruct (strip (label e2) (k :: lab1 ++ r)) as [u|] eqn:Es; [|congruence].
    apply strip_spec in Es. now exists u. }
  assert (Hc' : canonBelow n1) by exact Hc.
  destruct n1 as [l1 m1 d1]. cbn [edges] in *.
  apply canonBelow_inv in Hc as (Hc1 & _ & Hc3).
  specialize (Hc1 k e1 Hin1). specialize (Hc3 k e1 Hin1).
  unfold nodeCompact in Hc1.
  destruct (isLeaf (next e1)) eqn:El.
  - destruct (Hpre []) as [u Hu].
    + rewrite stored_nil, El. discriminate.
    + rewrite app_nil_r in Hu. now exists u.
  - cbn [orb] in Hc1. apply Nat.leb_le in Hc1. unfold emap_len in Hc1.
    destruct (elems (edges (next e1))) as [|[ka ea] [|[kb eb] es]] eqn:Em;
      try (simpl in Hc1; lia).
    assert (Hina : In (ka, ea) (elems (edges (next e1))))
      by (rewrite Em; now left).
    assert (Hinb : In (kb, eb) (elems (edges (next e1))))
      by (rewrite Em; right; now left).
    assert (Hne : ka <> kb).
    { destruct (next e1) as [l' m' d']. apply wf_inv in Hwe1 as (Hnd & _).
      cbn [edges] in Em. rewrite Em in Hnd. cbn [map fst] in Hnd.
      inversion Hnd as [|? ? Hnot _]; subst. intros ->. apply Hnot. now left. }
    destruct (canon_inhabited_edge _ ka ea Hwe1 Hc3 Hina) as [ra Hra].
    destruct (canon_inhabited_edge _ kb eb Hwe1 Hc3 Hinb) as [rb Hrb].
    destruct (wf_In _ ka ea Hwe1 Hina) as [[la Hla] _].
    destruct (wf_In _ kb eb Hwe1 Hinb) as [[lb Hlb] _].
    destruct (Hpre _ Hra) as [u Hu]. destruct (Hpre _ Hrb) as [v Hv].
    rewrite Hla in Hu. rewrite Hlb in Hv. cbn [app] in Hu, Hv.
    exact (prefix_of_two _ _ ka kb _ _ u v Hu Hv Hne).
Qed.

Lemma canon_unique n1 :
  forall n2,
    wf n1 -> wf n2 -> canonBelow n1 -> canonBelow n2 ->
    isLeaf n1 = isLeaf n2 -> data n1 = data n2 ->
    (forall key, stored n1 key = stored n2 key) ->
    equiv n1 n2.
Proof.
  induction n1 as [l1 m1 d1 IH] using node_ind'.
  intros [l2 m2 d2] Hwf1 Hwf2 Hc1 Hc2 Hl Hd Hst.
  cbn [isLeaf data] in Hl, Hd. subst l2 d2.
  set (n1 := Node l1 m1 d1) in *. set (n2 := Node l1 m2 d1) in *.
  assert (Hsome : forall (a b : node) k e,
             wf a -> canonBelow a ->
             (forall key, stored a key = stored b key) ->
             emap_get (edges a) k = Some e -> emap_get (edges b) k <> None).
  { intros a b k e Hwa Hca Hab E.
    assert (Hin : In (k, e) (elems (edges a))).
    { unfold emap_get in E. now apply map_get_In in E. }
    destruct (canon_inhabited_edge a k e Hwa Hca Hin) as [r Hr].
    destruct (wf_get a k e Hwa E) as [[lab Hlab] _].
    rewrite Hab, Hlab in Hr. cbn [app] in Hr. rewrite stored_cons in Hr.
    now destruct (emap_get (edges b) k). }
  assert (Hlabel : forall k e1 e2,
             emap_get m1 k = Some e1 -> emap_get m2 k = Some e2 ->
             label e1 = label e2).
  { intros k e1 e2 E1 E2.
    destruct (canon_label_prefix n1 n2 k e1 e2 Hwf1 Hwf2 Hc1 Hst E1 E2)
      as [w Hw].
    destruct (canon_label_prefix n2 n1 k e2 e1 Hwf2 Hwf1 Hc2
                (fun key => eq_sym (Hst key)) E2 E1) as [w' Hw'].
    assert (Hlen : length w = 0).
    { apply (f_equal (@length byte)) in Hw, Hw'.
      rewrite length_app in Hw, Hw'. lia. }
    apply length_zero_iff_nil in Hlen. subst w. now rewrite app_nil_r in Hw. }
  constructor; trivial.
  - intros k. split; intros E.
    + destruct (emap_get m2 k) as [e2|] eqn:E2; [|reflexivity].
      now elim (Hsome n2 n1 k e2 Hwf2 Hc2 (fun key => eq_sym (Hst key)) E2).
    + destruct (emap_get m1 k) as [e1|] eqn:E1; [|reflexivity].
      now elim (Hsome n1 n2 k e1 Hwf1 Hc1 Hst E1).
  - intros k e1 e2 E1 E2.
    assert (Hin1 : In (k, e1) (elems m1)).
    { unfold emap_get in E1. now apply map_get_In in E1. }
    assert (Hin2 : In (k, e2) (elems m2)).
    { unfold emap_get in E2. now apply map_get_In in E2. }
    destruct (wf_get n1 k e1 Hwf1 E1) as [_ Hwe1].
    destruct (wf_get n2 k e2 Hwf2 E2) as [_ Hwe2].
    assert (Hsub : forall r, stored (next e1) r = stored (next e2) r).
    { intros r.
      rewrite <- (stored_app n1 (label e1) r _ (getNode_edge n1 k e1 Hwf1 Hin1)).
      rewrite <- (stored_app n2 (label e2) r _ (getNode_edge n2 k e2 Hwf2 Hin2)).
      now rewrite (Hlabel k e1 e2 E1 E2), Hst. }
    apply canonBelow_inv in Hc1 as (_ & Hd1 & Hc1).
    apply canonBelow_inv in Hc2 as (_ & Hd2 & Hc2).
    pose proof (Hsub []) as H0. rewrite !stored_nil in H0.
    apply (IH k e1 Hin1); eauto.
    + destruct (isLeaf (next e1)), (isLeaf (next e2)); congruence.
    + specialize (Hd1 k e1 Hin1). specialize (Hd2 k e2 Hin2).
      destruct (isLeaf (next e1)), (isLeaf (next e2)); try congruence.
      rewrite Hd1, Hd2; reflexivity.
Qed.

Lemma same_content_stored t1 t2 :
  same_content t1 t2 -> forall k, stored (root t1) k = stored (root t2) k.
Proof.
  intros H k. destruct (H k) as [Hh Hg]. rewrite !HasItem_stored in *.
  destruct (stored (root t1) k) as [v1|] eqn:E1,
           (stored (root t2) k) as [v2|] eqn:E2; try discriminate;
    [|reflexivity].
  specialize (Hg eq_refl).
  rewrite (GetItem_stored t1 k v1 E1), (GetItem_stored t2 k v2 E2) in Hg.
  congruence.
Qed.

Lemma inserted_equiv t1 t2 :
  inserted t1 -> inserted t2 -> same_content t1 t2 ->
  equiv (root t1) (root t2).
Proof.
  intros H1 H2 Hs.
  destruct (reachable_wf t1 (inserted_reachable t1 H1)) as [Hw1 Hl1].
  destruct (reachable_wf t2 (inserted_reachable t2 H2)) as [Hw2 Hl2].
  destruct (inserted_canon t1 H1) as [Hc1 Hd1].
  destruct (inserted_canon t2 H2) as [Hc2 Hd2].
  apply canon_unique; trivial; try congruence.
  now apply same_content_stored.
Qed.

Lemma run_from_inserted ops :
  forallb is_insert ops = true ->
  forall t, inserted t ->
  forall t', fold_left (fun r o => t <- r ;; apply_op t o) ops (Ok t) = Ok t' ->
  inserted t'.
Proof.
  induction ops as [|o ops IH]; intros Hops t Ht t'; cbn [fold_left bind].
  - now intros [= <-].
  - cbn [forallb] in Hops. apply andb_prop in Hops as [Ho Hops].
    destruct (apply_op t o) as [t1| |] eqn:E.
    + apply (IH Hops). destruct o; cbn [apply_op] in E; try discriminate.
      * exact (inserted_insert t k d t1 Ht E).
      * injection E as <-. now apply inserted_sorted.
    + intros H. exfalso. clear -H. induction ops; [discriminate|auto].
    + intros H. exfalso. clear -H. induction ops; [discriminate|auto].
Defined.

Lemma run_inserted ops t :
  forallb is_insert ops = true -> run ops = Ok t -> inserted t.
Proof. intros H. exact (run_from_inserted ops H NewTrie inserted_new t). Defined.

(** Two tries hold the same keys with the same data when [Keys("")] lists
    the same keys for both and [GetItem] agrees on them. *)
Lemma same_content_by_keys t1 t2 l1 l2 :
  reachable t1 -> reachable t2 ->
  Keys t1 [] = Ok l1 -> Keys t2 [] = Ok l2 ->
  Permutation l1 l2 ->
  Forall (fun k => GetItem t1 k = GetItem t2 k) l1 ->
  same_content t1 t2.
Proof.
  intros Hr1 Hr2 E1 E2 Hp Hg k.
  destruct (reachable_wf t1 Hr1) as [Hw1 _].
  destruct (reachable_wf t2 Hr2) as [Hw2 _].
  destruct (Keys_spec t1 [] Hw1) as (l1' & E1' & _ & H1).
  destruct (Keys_spec t2 [] Hw2) as (l2' & E2' & _ & H2).
  rewrite E1 in E1'. injection E1' as <-.
  rewrite E2 in E2'. injection E2' as <-.
  assert (Hin1 : HasItem t1 k = true <-> In k l1).
  { rewrite H1. split; [intros H; split; [exact H|now exists k]|tauto]. }
  assert (Hin2 : HasItem t2 k = true <-> In k l2).
  { rewrite H2. split; [intros H; split; [exact H|now exists k]|tauto]. }
  assert (Hpp : In k l1 <-> In k l2).
  { split; apply Permutation_in; [exact Hp|now symmetry]. }
  split.
  - destruct (HasItem t1 k), (HasItem t2 k); try reflexivity.
    + symmetry. apply Hin2, Hpp, Hin1. reflexivity.
    + apply Hin1, Hpp, Hin2. reflexivity.
  - intros H. apply Hin1 in H. rewrite Forall_forall in Hg. now apply Hg.
Defined.

(** ** The calls of a traversal *)

Lemma StronglySorted_app {A} (R : A -> A -> Prop) l1 l2 :
  StronglySorted R l1 -> StronglySorted R l2 ->
  (forall a b, In a l1 -> In b l2 -> R a b) ->
  StronglySorted R (l1 ++ l2).
Proof.
  induction l1 as [|x l1 IH]; intros H1 H2 Hx; [exact H2|].
  apply StronglySorted_inv in H1 as [H1 Hf]. cbn [app]. constructor.
  - apply IH; trivial. intros a b Ha Hb. apply Hx; [now right|exact Hb].
  - apply Forall_app. split; [exact Hf|].
    apply Forall_forall. intros b Hb. apply Hx; [now left|exact Hb].
Qed.

Lemma NoDup_StronglySorted_neq {A} (l : list A) :
  NoDup l -> StronglySorted (fun a b => a <> b) l.
Proof.
  induction 1 as [|x l Hx Hnd IH]; constructor; trivial.
  apply Forall_forall. intros y Hy ->. contradiction.
Qed.

Lemma keys_keyRel n srt :
  wf n ->
  StronglySorted (keyRel srt) (keys (edges n) srt) /\
  forall k, In k (keys (edges n) srt) <-> emap_get (edges n) k <> None.
Proof.
  intros Hwf.
  assert (Hnd : NoDup (map fst (elems (edges n)))).
  { destruct n. now apply wf_inv in Hwf. }
  assert (Hmem : forall k, In k (map fst (elems (edges n))) <->
                           emap_get (edges n) k <> None).
  { intros k. pose proof (map_get_None (elems (edges n)) k) as H.
    unfold emap_get.
    destruct (in_dec byte_eq_dec k (map fst (elems (edges n)))); tauto. }
  unfold keys, keyRel. destruct srt.
  - split; [now apply sortSlice_sorted|]. intros k. rewrite <- Hmem.
    split; apply Permutation_in;
      [apply sortSlice_perm|symmetry; apply sortSlice_perm].
  - split; [now apply NoDup_StronglySorted_neq|exact Hmem].
Qed.

Lemma traverse_record fuel :
  forall n, wf n -> height n < fuel ->
  forall srt step p0 log,
    exists cs,
      traverse fuel srt (Some n) step p0 record log =
      Ok (log ++ (step, p0, data n, isLeaf n) :: cs, None) /\
      (forall c, In c ((step, p0, data n, isLeaf n) :: cs) <->
                 exists r d m, reaches n r d m /\
                               c = (step + d, p0 ++ r, data m, isLeaf m)) /\
      StronglySorted (pathRel (keyRel srt))
                     (map cpath ((step, p0, data n, isLeaf n) :: cs)).
Proof.
  induction fuel as [|fuel IH]; intros n Hwf Hh srt step p0 log; [lia|].
  cbn [traverse]. unfold record at 1. cbn [negb].
  destruct (keys_keyRel n srt Hwf) as [Hss Hmem].
  set (c0 := (step, p0, data n, isLeaf n)).
  assert (Hloop : forall ks,
             StronglySorted (keyRel srt) ks ->
             (forall k, In k ks -> emap_get (edges n) k <> None) ->
             forall s1,
             exists cs,
               forKeys
                 (fun k s =>
                    match emap_get (edges n) k with
                    | Some e =>
                        traverse fuel srt (Some (next e)) (step + 1)
                                 (p0 ++ label e) record s
                    | None => Panic NilDereference
                    end) ks s1 = Ok (s1 ++ cs, None) /\
               (forall c, In c cs <->
                          exists k e r d m,
                            In k ks /\ emap_get (edges n) k = Some e /\
                            reaches (next e) r d m /\
                            c = (step + S d, p0 ++ label e ++ r,
                                 data m, isLeaf m)) /\
               StronglySorted (pathRel (keyRel srt)) (map cpath cs)).
  { induction ks as [|k ks IHks]; intros Hks Hin s1.
    - exists []. cbn [forKeys]. rewrite app_nil_r. split; [reflexivity|].
      split; [|constructor].
      intros c. split; [intros []|]. now intros (? & ? & ? & ? & ? & [] & _).
    - apply StronglySorted_inv in Hks as [Hks Hk].
      destruct (emap_get (edges n) k) as [e|] eqn:E;
        [|now elim (Hin k (or_introl eq_refl))].
      destruct (wf_get n k e Hwf E) as [[lab Hlab] Hwe].
      assert (Hce : height (next e) < fuel).
      { unfold emap_get in E. apply map_get_In in E.
        pose proof (height_child n k e E). lia. }
      destruct (IH (next e) Hwe Hce srt (step + 1) (p0 ++ label e) s1)
        as (cse & Ee & Hine & Hsse).
      destruct (IHks Hks (fun k' H => Hin k' (or_intror H))
                     (s1 ++ (step + 1, p0 ++ label e, data (next e),
                             isLeaf (next e)) :: cse))
        as (csr & Er & Hinr & Hssr).
      exists (((step + 1, p0 ++ label e, data (next e), isLeaf (next e))
                 :: cse) ++ csr).
      cbn [forKeys]. rewrite E, Ee. cbn [bind]. rewrite Er, <- app_assoc.
      split; [reflexivity|].
      assert (Hchild : forall c,
                 In c ((step + 1, p0 ++ label e, data (next e),
                        isLeaf (next e)) :: cse) <->
                 exists r d m,
                   reaches (next e) r d m /\
                   c = (step + S d, p0 ++ label e ++ r, data m, isLeaf m)).
      { intros c. rewrite Hine. split; intros (r & d & m & Hr & ->);
          exists r, d, m; (split; [exact Hr|]);
          rewrite <- app_assoc;
          replace (step + 1 + d) with (step + S d) by lia; reflexivity. }
      split.
      + intros c. rewrite in_app_iff, Hchild, Hinr. split.
        * intros [(r & d & m & Hr & ->)|(k' & e' & r & d & m & Hk' & E' & Hr & ->)].
          -- exists k, e, r, d, m. repeat split; trivial. now left.
          -- exists k', e', r, d, m. repeat split; trivial. now right.
        * intros (k' & e' & r & d & m & [<-|Hk'] & E' & Hr & ->).
          -- left. rewrite E in E'. injection E' as <-. eauto.
          -- right. exists k', e', r, d, m. auto.
      + rewrite map_app. apply StronglySorted_app; trivial.
        intros a b Ha Hb.
        apply in_map_iff in Ha as (ca & <- & Ha).
        apply in_map_iff in Hb as (cb & <- & Hb).
        apply Hchild in Ha as (r & d & m & _ & ->).
        apply Hinr in Hb as (k' & e' & r' & d' & m' & Hk' & E' & _ & ->).
        destruct (wf_get n k' e' Hwf E') as [[lab' Hlab'] _].
        cbn [cpath]. right.
        exists p0, k, (lab ++ r), k', (lab' ++ r').
        rewrite Hlab, Hlab'. repeat split; trivial.
        rewrite Forall_forall in Hk. now apply Hk. }
  destruct (Hloop (keys (edges n) srt) Hss (fun k H => proj1 (Hmem k) H)
                  (log ++ [c0])) as (cs & Ecs & Hin & Hsscs).
  exists cs. rewrite Ecs, <- app_assoc. split; [reflexivity|].
  split.
  - intros c. cbn [In]. rewrite Hin. split.
    + intros [<-|(k & e & r & d & m & Hk & E & Hr & ->)].
      * exists [], 0, n. split; [constructor|].
        unfold c0. now rewrite Nat.add_0_r, app_nil_r.
      * exists (label e ++ r), (S d), m. split; [|reflexivity].
        now apply (reaches_edge n k e).
    + intros (r & d & m & Hr & ->). inversion Hr; subst.
      * left. unfold c0. now rewrite Nat.add_0_r, app_nil_r.
      * right. exists k, e, r0, d0, m. repeat split; trivial.
        apply Hmem. congruence.
  - cbn [map]. constructor; [exact Hsscs|].
    apply Forall_forall. intros q Hq.
    apply in_map_iff in Hq as (c & <- & Hc).
    apply Hin in Hc as (k & e & r & d & m & _ & E & _ & ->).
    destruct (wf_get n k e Hwf E) as [[lab Hlab] _].
    cbn [cpath]. left. exists k, (lab ++ r). now rewrite Hlab.
Qed.

Lemma pathRel_irrefl (R : byte -> byte -> Prop) p :
  (forall a, ~ R a a) -> ~ pathRel R p p.
Proof.
  intros HR [(c & cs & H)|(common & a & ra & b & rb & Hp & Hq & Hab)].
  - rewrite <- (app_nil_r p) in H at 1. apply app_inv_head in H. discriminate.
  - rewrite Hp in Hq. apply app_inv_head in Hq. injection Hq as -> _.
    now apply (HR b).
Qed.

Lemma keyRel_irrefl srt a : ~ keyRel srt a a.
Proof. destruct srt; unfold keyRel, byte_lt; [lia|congruence]. Qed.

Lemma StronglySorted_NoDup {A} (R : A -> A -> Prop) l :
  (forall a, ~ R a a) -> StronglySorted R l -> NoDup l.
Proof.
  intros HR. induction 1 as [|x l Hs IH Hf]; constructor; trivial.
  intros Hin. rewrite Forall_forall in Hf. now apply (HR x), Hf.
Qed.

Section AlwaysContinue.
Context {St Err : Type} (fn : TFunc St Err) (g : call -> St -> St).
Hypothesis fn_continue :
  forall step path d lf s,
    fn step path d lf s = (g (step, path, d, lf) s, (true, None)).

(** A callback that always goes on is called as [record] is: its effects
    are folded over the calls that [record] writes down. *)
Lemma traverse_continue fuel :
  forall n, wf n -> height n < fuel ->
  forall srt step p0 log s,
    exists cs,
      traverse fuel srt (Some n) step p0 record log = Ok (log ++ cs, None) /\
      traverse fuel srt (Some n) step p0 fn s =
      Ok (fold_left (fun s c => g c s) cs s, None).
Proof.
  induction fuel as [|fuel IH]; intros n Hwf Hh srt step p0 log s; [lia|].
  cbn [traverse]. rewrite fn_continue. unfold record at 1. cbn [negb].
  destruct (keys_keyRel n srt Hwf) as [_ Hmem].
  assert (Hloop : forall ks,
             (forall k, In k ks -> emap_get (edges n) k <> None) ->
             forall log1 s1,
             exists cs,
               forKeys
                 (fun k s =>
                    match emap_get (edges n) k with
                    | Some e =>
                        traverse fuel srt (Some (next e)) (step + 1)
                                 (p0 ++ label e) record s
                    | None => Panic NilDereference
                    end) ks log1 = Ok (log1 ++ cs, None) /\
               forKeys
                 (fun k s =>
                    match emap_get (edges n) k with
                    | Some e =>
                        traverse fuel srt (Some (next e)) (step + 1)
                                 (p0 ++ label e) fn s
                    | None => Panic NilDereference
                    end) ks s1 = Ok (fold_left (fun s c => g c s) cs s1, None)).
  { induction ks as [|k ks IHks]; intros Hin log1 s1.
    - exists []. cbn [forKeys fold_left]. now rewrite app_nil_r.
    - destruct (emap_get (edges n) k) as [e|] eqn:E;
        [|now elim (Hin k (or_introl eq_refl))].
      destruct (wf_get n k e Hwf E) as [_ Hwe].
      assert (Hce : height (next e) < fuel).
      { unfold emap_get in E. apply map_get_In in E.
        pose proof (height_child n k e E). lia. }
      destruct (IH (next e) Hwe Hce srt (step + 1) (p0 ++ label e) log1 s1)
        as (cse & Er & Ef).
      destruct (IHks (fun k' H => Hin k' (or_intror H)) (log1 ++ cse)
                     (fold_left (fun s c => g c s) cse s1))
        as (csr & Err' & Efr).
      exists (cse ++ csr). cbn [forKeys]. rewrite E, Er, Ef. cbn [bind].
      now rewrite Err', Efr, <- app_assoc, fold_left_app. }
  destruct (Hloop (keys (edges n) srt) (fun k H => proj1 (Hmem k) H)
                  (log ++ [(step, p0, data n, isLeaf n)])
                  (g (step, p0, data n, isLeaf n) s)) as (cs & Er & Ef).
  exists ((step, p0, data n, isLeaf n) :: cs).
  rewrite Er, Ef, <- app_assoc. split; reflexivity.
Qed.
End AlwaysContinue.

Lemma Traverse_record t :
  wf (root t) ->
  exists cs,
    Traverse t record [] = Ok (cs, None) /\
    hd_error cs = Some (0, [], data (root t), isLeaf (root t)) /\
    (forall c, In c cs <->
               exists r d m, reaches (root t) r d m /\
                             c = (d, r, data m, isLeaf m)) /\
    StronglySorted (pathRel (keyRel (sorted t))) (map cpath cs).
Proof.
  intros Hwf. unfold Traverse.
  destruct (traverse_record (S (height (root t))) (root t) Hwf
              (Nat.lt_succ_diag_r _) (sorted t) 0 [] [])
    as (cs & E & Hin & Hss).
  eexists. split; [exact E|]. cbn [app hd_error]. split; [reflexivity|].
  split; [|exact Hss]. exact Hin.
Qed.

(** C8, as stated, fails for tries that hold the same key set.  The data
    is passed to the callback, so two tries with the same keys and different
    data differ.  And a traversal also visits the nodes that are not leaves
    and passes their [data] field: after "a", "ab" and "ac" are inserted and
    "a" is deleted, the node of "a" still carries the data of "a"; in the
    trie of "ab" and "ac" alone that node carries none, although both tries
    hold the same keys with the same data. *)
Lemma C8_same_keys_counterexample :
  (exists t1 t2,
      inserted t1 /\ inserted t2 /\ sorted t1 = true /\ sorted t2 = true /\
      Keys t1 [] = Ok [key_a] /\ Keys t2 [] = Ok [key_a] /\
      Traverse t1 record [] <> Traverse t2 record []) /\
  (exists t1 t2,
      reachable t1 /\ reachable t2 /\ sorted t1 = true /\ sorted t2 = true /\
      Keys t1 [] = Ok [key_ab; key_ac] /\ Keys t2 [] = Ok [key_ab; key_ac] /\
      GetItem t1 key_ab = GetItem t2 key_ab /\
      GetItem t1 key_ac = GetItem t2 key_ac /\
      Traverse t1 record [] <> Traverse t2 record []).
Proof.
  split.
  - eexists _, _.
    split; [exact (run_inserted [OpInsert key_a val_x; OpSorted true]
                                _ eq_refl eq_refl)|].
    split; [exact (run_inserted [OpInsert key_a val_y; OpSorted true]
                                _ eq_refl eq_refl)|].
    repeat split; try reflexivity. discriminate.
  - eexists _, _.
    split; [exact (run_reachable
                     [OpInsert key_ab val_x; OpInsert key_ac val_y;
                      OpSorted true] _ eq_refl)|].
    split; [exact (run_reachable
                     [OpInsert key_a val_z; OpInsert key_ab val_x;
                      OpInsert key_ac val_y; OpDelete key_a; OpSorted true]
                     _ eq_refl)|].
    repeat split; try reflexivity. discriminate.
Qed.

Lemma reaches_snoc n p d m k e :
  reaches n p d m -> emap_get (edges m) k = Some e ->
  reaches n (p ++ label e) (S d) (next e).
Proof.
  intros Hr E. induction Hr as [n|n k0 e0 r d m E0 Hr IH].
  - cbn [app]. rewrite <- (app_nil_r (label e)).
    apply (reaches_edge n k e [] 0 (next e) E). constructor.
  - rewrite <- app_assoc. apply (reaches_edge n k0 e0 _ _ _ E0). now apply IH.
Qed.

Lemma StronglySorted_front {A} (R : A -> A -> Prop) l1 a l2 :
  StronglySorted R (l1 ++ a :: l2) -> forall x, In x l1 -> R x a.
Proof.
  induction l1 as [|y l1 IH]; cbn [app]; intros Hs x Hx; [destruct Hx|].
  apply StronglySorted_inv in Hs as [Hs Hf]. destruct Hx as [<-|Hx].
  - rewrite Forall_forall in Hf. apply Hf, in_or_app. right. now left.
  - now apply IH.
Qed.

Lemma StronglySorted_before {A} (R : A -> A -> Prop) l a b :
  StronglySorted R l -> In a l -> In b l -> R a b -> ~ R b a ->
  exists l1 l2 l3, l = l1 ++ a :: l2 ++ b :: l3.
Proof.
  intros Hs Ha Hb Hab Hba. apply in_split in Ha as (l1 & l' & ->).
  apply in_app_or in Hb as [Hb|[->|Hb]].
  - elim Hba. exact (StronglySorted_front R l1 a l' Hs b Hb).
  - now elim Hba.
  - apply in_split in Hb as (l2 & l3 & ->). now exists l1, l2, l3.
Qed.

Lemma first_difference {A} (l1 l2 : list A) x y x' y' r1 r2 r1' r2' :
  l1 ++ x :: r1 = l2 ++ x' :: r1' -> l1 ++ y :: r2 = l2 ++ y' :: r2' ->
  x <> y -> x' <> y' -> x = x' /\ y = y'.
Proof.
  revert l2. induction l1 as [|a l1 IH]; intros [|a' l2]; cbn [app];
    intros E1 E2 Hxy Hxy'.
  - injection E1 as -> _. injection E2 as -> _. now split.
  - injection E1 as -> _. injection E2 as -> _. now elim Hxy.
  - injection E1 as <- _. injection E2 as <- _. now elim Hxy'.
  - injection E1 as _ E1. injection E2 as _ E2. now apply (IH l2).
Qed.

Lemma sibling_not_after p k1 lab1 k2 lab2 :
  byte_lt k1 k2 -> ~ pathRel byte_lt (p ++ k2 :: lab2) (p ++ k1 :: lab1).
Proof.
  unfold byte_lt.
  intros Hlt [(c & cs & H)|(common & a & ra & b & rb & Hp & Hq & Hab)].
  - rewrite <- app_assoc in H. apply app_inv_head in H.
    injection H as -> _. lia.
  - unfold byte_lt in Hab.
    destruct (first_difference p common k2 k1 a b lab2 lab1 ra rb Hp Hq)
      as [-> ->]; [intros ->; lia|intros ->; lia|lia].
Qed.

(** C8 (amended): with the sorted flag enabled, [Traverse] takes the
    children of every node in ascending order of the first byte of their
    edge's label: a traversal that goes on everywhere calls the callback
    for exactly the nodes of the trie, the paths of the calls are in
    strictly ascending lexicographic order, and of two edges of one node the
    one whose label starts with the smaller byte is called first.  And it
    is deterministic: two tries with the same nodes and edges, whatever the
    order in which their maps hold the edges, and two tries built by
    insertions alone (in any order) that hold the same keys with the same
    data, give every callback the same sequence of (depth, path, data,
    isLeaf) arguments and return the same result. *)
Theorem C8_sorted_traversal t1 t2 :
  reachable t1 -> reachable t2 -> sorted t1 = true -> sorted t2 = true ->
  equiv (root t1) (root t2) \/
  (inserted t1 /\ inserted t2 /\ same_content t1 t2) ->
  (exists cs,
      Traverse t1 record [] = Ok (cs, None) /\
      Traverse t2 record [] = Ok (cs, None) /\
      (forall c, In c cs <->
                 exists r d m, reaches (root t1) r d m /\
                               c = (d, r, data m, isLeaf m)) /\
      StronglySorted (pathRel byte_lt) (map cpath cs) /\
      forall p d n k1 e1 k2 e2 b1 lab1 b2 lab2,
        reaches (root t1) p d n ->
        emap_get (edges n) k1 = Some e1 -> emap_get (edges n) k2 = Some e2 ->
        label e1 = b1 :: lab1 -> label e2 = b2 :: lab2 -> byte_lt b1 b2 ->
        exists l1 l2 l3,
          map cpath cs = l1 ++ (p ++ label e1) :: l2 ++ (p ++ label e2) :: l3) /\
  forall (St Err : Type) (fn : TFunc St Err) (s : St),
    exists r, Traverse t1 fn s = Ok r /\ Traverse t2 fn s = Ok r.
Proof.
  intros Hr1 Hr2 Hs1 Hs2 Hsame.
  destruct (reachable_wf t1 Hr1) as [Hw1 _].
  destruct (reachable_wf t2 Hr2) as [Hw2 _].
  assert (He : equiv (root t1) (root t2)).
  { destruct Hsame as [He|(H1 & H2 & Hc)]; [exact He|].
    now apply inserted_equiv. }
  assert (Hdet : forall (St Err : Type) (fn : TFunc St Err) (s : St),
             exists r, Traverse t1 fn s = Ok r /\ Traverse t2 fn s = Ok r).
  { intros St Err fn s. unfold Traverse. rewrite Hs1, Hs2.
    rewrite <- (equiv_height _ _ Hw1 Hw2 He).
    rewrite <- (traverse_equiv (S (height (root t1))) _ _ Hw1 Hw2 He).
    destruct (traverse_total (S (height (root t1))) (root t1) Hw1
                (Nat.lt_succ_diag_r _) true 0 [] fn s) as [r Er].
    exists r. now split. }
  split; [|exact Hdet].
  destruct (Traverse_record t1 Hw1) as (cs & E1 & _ & Hin & Hss).
  rewrite Hs1 in Hss. cbn [keyRel] in Hss.
  exists cs. split; [exact E1|]. split.
  { destruct (Hdet _ _ record []) as (r & Er1 & Er2). congruence. }
  split; [exact Hin|]. split; [exact Hss|].
  intros p d n k1 e1 k2 e2 b1 lab1 b2 lab2 Hre G1 G2 L1 L2 Hlt.
  apply (StronglySorted_before _ _ _ _ Hss).
  - apply in_map_iff.
    exists (S d, p ++ label e1, data (next e1), isLeaf (next e1)).
    split; [reflexivity|]. apply Hin. eexists _, _, _.
    split; [exact (reaches_snoc _ _ _ _ _ _ Hre G1)|reflexivity].
  - apply in_map_iff.
    exists (S d, p ++ label e2, data (next e2), isLeaf (next e2)).
    split; [reflexivity|]. apply Hin. eexists _, _, _.
    split; [exact (reaches_snoc _ _ _ _ _ _ Hre G2)|reflexivity].
  - right. exists p, b1, lab1, b2, lab2. now rewrite L1, L2.
  - rewrite L1, L2. now apply sibling_not_after.
Qed.

Lemma C8_sorted_traversal_witness :
  exists t1 t2,
    run [OpInsert key_ab val_x; OpInsert key_a val_z; OpInsert key_ac val_y;
         OpSorted true] = Ok t1 /\
    run [OpInsert key_ac val_y; OpInsert key_ab val_x; OpInsert key_a val_z;
         OpSorted true] = Ok t2 /\
    root t1 <> root t2 /\
    ((exists cs,
        Traverse t1 record [] = Ok (cs, None) /\
        Traverse t2 record [] = Ok (cs, None) /\
        (forall c, In c cs <->
                   exists r d m, reaches (root t1) r d m /\
                                 c = (d, r, data m, isLeaf m)) /\
        StronglySorted (pathRel byte_lt) (map cpath cs) /\
        forall p d n k1 e1 k2 e2 b1 lab1 b2 lab2,
          reaches (root t1) p d n ->
          emap_get (edges n) k1 = Some e1 -> emap_get (edges n) k2 = Some e2 ->
          label e1 = b1 :: lab1 -> label e2 = b2 :: lab2 -> byte_lt b1 b2 ->
          exists l1 l2 l3,
            map cpath cs = l1 ++ (p ++ label e1) :: l2 ++ (p ++ label e2) :: l3) /\
    forall (St Err : Type) (fn : TFunc St Err) (s : St),
      exists r, Traverse t1 fn s = Ok r /\ Traverse t2 fn s = Ok r).
Proof.
  eexists _, _. split; [reflexivity|]. split; [reflexivity|].
  split; [discriminate|].
  pose proof (run_reachable
                [OpInsert key_ab val_x; OpInsert key_a val_z;
                 OpInsert key_ac val_y; OpSorted true] _ eq_refl) as Hr1.
  pose proof (run_reachable
                [OpInsert key_ac val_y; OpInsert key_ab val_x;
                 OpInsert key_a val_z; OpSorted true] _ eq_refl) as Hr2.
  pose proof (run_inserted
                [OpInsert key_ab val_x; OpInsert key_a val_z;
                 OpInsert key_ac val_y; OpSorted true] _ eq_refl eq_refl)
    as Hi1.
  pose proof (run_inserted
                [OpInsert key_ac val_y; OpInsert key_ab val_x;
                 OpInsert key_a val_z; OpSorted true] _ eq_refl eq_refl)
    as Hi2.
  refine (C8_sorted_traversal _ _ Hr1 Hr2 eq_refl eq_refl
            (or_intror (conj Hi1 (conj Hi2 _)))).
  apply (same_content_by_keys _ _ [key_a; key_ab; key_ac]
           [key_a; key_ac; key_ab] Hr1 Hr2 eq_refl eq_refl).
  - apply perm_skip, perm_swap.
  - repeat constructor.
Defined.

(** * Further properties of the code *)

(** ** getFirstMismatch *)

(** X1: [getFirstMismatch] does not depend on the order of its arguments;
    its result is at most both lengths, the two strings agree before it, and
    where both go on they differ at it: it is the length of their longest
    common prefix. *)
Theorem X1_getFirstMismatch_common_prefix a b :
  getFirstMismatch a b = getFirstMismatch b a /\
  getFirstMismatch a b <= length a /\
  getFirstMismatch a b <= length b /\
  firstn (getFirstMismatch a b) a = firstn (getFirstMismatch a b) b /\
  (getFirstMismatch a b < length a -> getFirstMismatch a b < length b ->
   nth_error a (getFirstMismatch a b) <> nth_error b (getFirstMismatch a b)).
Proof.
  destruct (getFirstMismatch_split a b) as (p & ra & rb & -> & -> & Hd).
  rewrite (getFirstMismatch_app p ra rb Hd).
  assert (Hd' : diverge rb ra).
  { destruct ra, rb; simpl in *; trivial. congruence. }
  rewrite (getFirstMismatch_app p rb ra Hd'), !length_app.
  rewrite !firstn_app, !firstn_all, Nat.sub_diag. cbn [firstn].
  repeat split; try lia.
  intros Ha Hb. rewrite !nth_error_app2, Nat.sub_diag by lia.
  destruct ra as [|x ra], rb as [|y rb]; simpl in *; try lia. congruence.
Qed.

(** ** The shape of reachable tries *)

(** X2: in every reachable trie the root is not a leaf, and at every node
    that a path leads to, the outgoing edges have distinct map keys, every
    label is non-empty and filed under its first byte, and following the
    label leads to the target of the edge. *)
Theorem X2_reachable_shape t :
  reachable t ->
  isLeaf (root t) = false /\
  forall p n,
    getNode (root t) p = Some n ->
    NoDup (map fst (elems (edges n))) /\
    forall k e,
      In (k, e) (elems (edges n)) ->
      (exists lab, label e = k :: lab) /\
      emap_get (edges n) k = Some e /\
      getNode (root t) (p ++ label e) = Some (next e).
Proof.
  intros Hr. destruct (reachable_wf t Hr) as [Hwf Hl]. split; [exact Hl|].
  intros p n Hg. pose proof (getNode_wf (root t) Hwf p n Hg) as Hwn.
  assert (Hnd : NoDup (map fst (elems (edges n)))).
  { destruct n. now apply wf_inv in Hwn. }
  split; [exact Hnd|]. intros k e Hin.
  destruct (wf_In n k e Hwn Hin) as [Hlab _]. split; [exact Hlab|]. split.
  - exact (map_get_NoDup _ k e Hnd Hin).
  - rewrite (getNode_app _ _ _ _ Hg). exact (getNode_edge n k e Hwn Hin).
Qed.

Lemma X2_reachable_shape_witness :
  exists t,
    reachable t /\
    isLeaf (root t) = false /\
    forall p n,
      getNode (root t) p = Some n ->
      NoDup (map fst (elems (edges n))) /\
      forall k e,
        In (k, e) (elems (edges n)) ->
        (exists lab, label e = k :: lab) /\
        emap_get (edges n) k = Some e /\
        getNode (root t) (p ++ label e) = Some (next e).
Proof.
  eexists.
  pose proof (run_reachable
                [OpInsert key_abc val_x; OpInsert key_abd val_y;
                 OpInsert key_a val_z; OpDelete key_abc] _ eq_refl) as Hr.
  split; [exact Hr|]. exact (X2_reachable_shape _ Hr).
Defined.

(** ** InsertItem on a key that is stored *)

Lemma map_set_same {V} (m : list (byte * V)) k v :
  map_get m k = Some v -> map_set m k v = m.
Proof.
  induction m as [|[k' v'] m IH]; cbn [map_get map_set]; [discriminate|].
  destruct (Byte.eqb k' k); [now intros [= ->]|].
  intros H. now rewrite IH.
Qed.

Lemma setNode_id f cur :
  forall k x, getNode cur k = Some x -> f x = x -> setNode f cur k = Some cur.
Proof.
  induction cur as [l m d IH] using node_ind'. intros [|b r] x.
  - rewrite getNode_nil, setNode_nil. intros [= <-] Hf. now rewrite Hf.
  - rewrite getNode_cons, setNode_cons.
    destruct (emap_get (edges (Node l m d)) b) as [e|] eqn:E; [|discriminate].
    destruct (strip (label e) (b :: r)) as [r'|]; [|discriminate].
    intros Hg Hf. assert (Hin := map_get_In _ _ _ E).
    rewrite (IH b e Hin r' x Hg Hf). cbn [option_map isLeaf data edges].
    destruct e as [lab nx]. cbn [label next].
    unfold emap_get in E. cbn [edges] in E. rewrite (map_set_same _ _ _ E).
    destruct m as [m|]; [reflexivity|discriminate].
Qed.

Lemma insertLoop_nil fuel cur d : insertLoop fuel cur [] d = Ok cur.
Proof. now destruct fuel. Qed.

(** On a key that is stored, the loop of [InsertItem] walks to the node of
    the key without splitting an edge and writes the data there, as [Set]
    does. *)
Lemma insertLoop_stored fuel :
  forall cur k r d,
    wf cur -> length (k :: r) <= fuel -> stored cur (k :: r) <> None ->
    exists cur',
      insertLoop fuel cur (k :: r) d = Ok cur' /\
      setNode (fun n => Node (isLeaf n) (edges n) d) cur (k :: r) = Some cur'.
Proof.
  induction fuel as [|fuel IH]; intros cur k r d Hwf Hlen Hst;
    [simpl in Hlen; lia|].
  rewrite stored_cons in Hst. rewrite setNode_cons.
  destruct (emap_get (edges cur) k) as [e|] eqn:E; [|congruence].
  destruct (strip (label e) (k :: r)) as [rest0|] eqn:Es; [|congruence].
  destruct (wf_get cur k e Hwf E) as [Hlab Hwe].
  destruct (insertLoop_step fuel cur k r e d E Hlab)
    as (p & tail & rest & He & -> & Hd & ->).
  apply strip_spec in Es. rewrite He in Es.
  change (k :: p ++ rest) with ((k :: p) ++ rest) in Es.
  change (k :: p ++ tail) with ((k :: p) ++ tail) in Es.
  rewrite <- app_assoc in Es. apply app_inv_head in Es.
  assert (tail = []) as ->.
  { destruct tail as [|t0 tail]; [reflexivity|]. subst rest.
    simpl in Hd. congruence. }
  cbn [app] in Es. subst rest0. cbn [splitNode].
  destruct rest as [|r0 rest].
  - cbn [markLeaf]. rewrite insertLoop_nil, setNode_nil.
    cbn [bind option_map].
    rewrite stored_nil in Hst. destruct (isLeaf (next e)) eqn:El; [|congruence].
    rewrite app_nil_r in He. rewrite He. eexists. split; reflexivity.
  - cbn [markLeaf].
    destruct (IH (next e) r0 rest d Hwe) as (n' & -> & ->); trivial.
    { simpl in Hlen. rewrite length_app in Hlen. simpl in *. lia. }
    cbn [bind option_map]. rewrite app_nil_r in He. rewrite He.
    eexists. split; reflexivity.
Qed.

Lemma InsertItem_stored t k d :
  reachable t -> HasItem t k = true ->
  exists t', InsertItem t k d = Ok t' /\ Set_ t k d = Ok t'.
Proof.
  intros Hr Hh. destruct (reachable_wf t Hr) as [Hwf Hl].
  rewrite HasItem_stored in Hh.
  destruct k as [|k r].
  { rewrite stored_nil, Hl in Hh. discriminate. }
  destruct (insertLoop_stored (length (k :: r)) (root t) k r d Hwf (le_n _))
    as (cur' & Ei & Es).
  { now destruct (stored (root t) (k :: r)). }
  unfold InsertItem, Set_. rewrite Ei, Es. cbn [bind]. eauto.
Qed.

(** X3: on a key that is stored, [InsertItem(k, d)] does exactly what
    [Set(k, d)] does: both return, with the same trie. *)
Theorem X3_insert_stored_is_set t k d :
  reachable t -> HasItem t k = true ->
  exists t', InsertItem t k d = Ok t' /\ Set_ t k d = Ok t'.
Proof. exact (InsertItem_stored t k d). Qed.

Lemma X3_insert_stored_is_set_witness :
  exists t,
    reachable t /\ HasItem t key_ab = true /\
    exists t', InsertItem t key_ab val_z = Ok t' /\ Set_ t key_ab val_z = Ok t'.
Proof.
  eexists.
  pose proof (run_reachable [OpInsert key_ab val_x; OpInsert key_ac val_y]
                            _ eq_refl) as Hr.
  split; [exact Hr|]. split; [reflexivity|].
  exact (X3_insert_stored_is_set _ key_ab val_z Hr eq_refl).
Defined.

(** X4: writing the value a key already has changes nothing at all:
    [InsertItem(k, d)] and [Set(k, d)] return the trie they were given. *)
Theorem X4_rewrite_same_value t k d :
  reachable t -> HasItem t k = true -> GetItem t k = Ok d ->
  InsertItem t k d = Ok t /\ Set_ t k d = Ok t.
Proof.
  intros Hr Hh Hg.
  destruct (InsertItem_stored t k d Hr Hh) as (t' & Ei & Es).
  rewrite Ei, Es. unfold Set_ in Es.
  unfold HasItem in Hh. unfold GetItem in Hg.
  destruct (getNode (root t) k) as [x|] eqn:Eg; [|discriminate].
  injection Hg as Hd.
  rewrite (setNode_id _ (root t) k x Eg) in Es.
  - injection Es as <-. now destruct t.
  - destruct x as [xl xm xd]. cbn [isLeaf edges data] in *. now subst.
Qed.

Lemma X4_rewrite_same_value_witness :
  exists t,
    reachable t /\ HasItem t key_ab = true /\ GetItem t key_ab = Ok val_x /\
    InsertItem t key_ab val_x = Ok t /\ Set_ t key_ab val_x = Ok t.
Proof.
  eexists.
  pose proof (run_reachable [OpInsert key_ab val_x; OpInsert key_ac val_y]
                            _ eq_refl) as Hr.
  split; [exact Hr|]. split; [reflexivity|]. split; [reflexivity|].
  exact (X4_rewrite_same_value _ key_ab val_x Hr eq_refl eq_refl).
Defined.

(** ** GetItem and Set on keys with a node *)

Lemma stored_same_content t1 t2 :
  (forall k, stored (root t1) k = stored (root t2) k) -> same_content t1 t2.
Proof.
  intros H k. rewrite !HasItem_stored, H. split; [reflexivity|].
  destruct (stored (root t2) k) as [v|] eqn:E; [|discriminate]. intros _.
  rewrite (GetItem_stored t2 k v E). apply GetItem_stored. now rewrite H.
Qed.

(** X5: on a stored key [Set(k, d)] returns; afterwards [GetItem(k)] is
    [d], the sorted flag is as before, and every other key has the
    [HasItem] and, where stored, the [GetItem] it had. *)
Theorem X5_set_stored t k d :
  reachable t -> HasItem t k = true ->
  exists t',
    Set_ t k d = Ok t' /\ HasItem t' k = true /\ GetItem t' k = Ok d /\
    sorted t' = sorted t /\
    forall k2, k2 <> k ->
      HasItem t' k2 = HasItem t k2 /\
      (HasItem t k2 = true -> GetItem t' k2 = GetItem t k2).
Proof.
  intros Hr Hh. destruct (reachable_wf t Hr) as [Hwf _].
  pose proof Hh as Hh'. unfold HasItem in Hh'.
  destruct (getNode (root t) k) as [x|] eqn:Eg; [|discriminate].
  destruct (Set_spec t k d x Hwf Eg) as (t' & E & _ & _ & Hg' & Hfr).
  exists t'. split; [exact E|]. split; [|split; [|split]].
  - now rewrite (proj1 (Hfr k)).
  - unfold GetItem. now rewrite Hg'.
  - unfold Set_ in E. destruct (setNode _ _ _); [|discriminate].
    now injection E as <-.
  - intros k2 Hne. destruct (Hfr k2) as [H1 H2]. split; [exact H1|].
    specialize (H2 Hne). rewrite HasItem_stored.
    destruct (stored (root t) k2) as [v|] eqn:Ev; [|discriminate]. intros _.
    rewrite (GetItem_stored t k2 v Ev). now apply GetItem_stored.
Qed.

Lemma X5_set_stored_witness :
  exists t,
    reachable t /\ HasItem t key_ab = true /\
    exists t',
      Set_ t key_ab val_z = Ok t' /\ HasItem t' key_ab = true /\
      GetItem t' key_ab = Ok val_z /\ sorted t' = sorted t /\
      forall k2, k2 <> key_ab ->
        HasItem t' k2 = HasItem t k2 /\
        (HasItem t k2 = true -> GetItem t' k2 = GetItem t k2).
Proof.
  eexists.
  pose proof (run_reachable [OpInsert key_ab val_x; OpInsert key_ac val_y]
                            _ eq_refl) as Hr.
  split; [exact Hr|]. split; [reflexivity|].
  exact (X5_set_stored _ key_ab val_z Hr eq_refl).
Defined.



(** ** InsertItem and DeleteItem together *)

Lemma DeleteItem_stored t k v :
  wf (root t) -> stored (root t) k = Some v ->
  exists t',
    DeleteItem t k = Ok t' /\ sorted t' = sorted t /\
    forall k2, stored (root t') k2 =
               if bytes_eq_dec k2 k then None else stored (root t) k2.
Proof.
  intros Hwf Ev.
  destruct (delete_stored (root t) Hwf true k v Ev) as (r & E & Hst).
  unfold DeleteItem. rewrite E. cbn [bind].
  destruct r as [n|]; [|now apply delete_root_not_nil in E].
  eexists. split; [reflexivity|]. split; [reflexivity|]. exact Hst.
Qed.

(** X7: inserting a key that is not stored and deleting it again brings
    back the content of the trie: both operations return, every key has
    the [HasItem] it had before, and every stored key the [GetItem] it had
    before. *)
Theorem X7_insert_then_delete t k d :
  reachable t -> k <> [] -> HasItem t k = false ->
  exists t1 t2,
    InsertItem t k d = Ok t1 /\ DeleteItem t1 k = Ok t2 /\
    same_content t2 t.
Proof.
  intros Hr Hk Hh. destruct (reachable_wf t Hr) as [Hwf _].
  destruct (InsertItem_spec t k d Hwf)
    as (t1 & E1 & Hwf1 & _ & _ & _ & Hs & Hfr).
  destruct (DeleteItem_stored t1 k d Hwf1 (Hs Hk)) as (t2 & E2 & _ & Hst).
  exists t1, t2. split; [exact E1|]. split; [exact E2|].
  apply stored_same_content. intros k2. rewrite Hst.
  destruct (bytes_eq_dec k2 k) as [->|Hne]; [|now apply Hfr].
  rewrite HasItem_stored in Hh. now destruct (stored (root t) k).
Qed.

Lemma X7_insert_then_delete_witness :
  exists t,
    reachable t /\ key_abd <> [] /\ HasItem t key_abd = false /\
    exists t1 t2,
      InsertItem t key_abd val_y = Ok t1 /\ DeleteItem t1 key_abd = Ok t2 /\
      same_content t2 t.
Proof.
  eexists.
  pose proof (reach_insert NewTrie key_abc val_x _ reach_new eq_refl) as Hr.
  split; [exact Hr|]. split; [discriminate|]. split; [reflexivity|].
  apply (X7_insert_then_delete _ key_abd val_y Hr); [discriminate|reflexivity].
Defined.

(** X10: [DeleteItem] hands back the trie it was given when the key is
    empty and when no edge of the root starts with the first byte of the
    key. *)
Theorem X10_delete_nothing_to_do t k :
  reachable t ->
  match k with
  | [] => True
  | k0 :: _ => emap_get (edges (root t)) k0 = None
  end ->
  DeleteItem t k = Ok t.
Proof.
  intros Hr Hk. destruct (reachable_wf t Hr) as [_ Hl].
  unfold DeleteItem. destruct t as [rt srt]. cbn [root sorted] in *.
  destruct k as [|k0 k].
  - rewrite delete_nil, andb_false_r. cbn [bind].
    destruct rt as [l m d]. cbn [isLeaf edges data] in *. now subst l.
  - rewrite delete_cons, Hk. reflexivity.
Qed.

Lemma X10_delete_nothing_to_do_witness :
  exists t,
    reachable t /\ emap_get (edges (root t)) Byte.x62 = None /\
    DeleteItem t (bstr "bcd"%string) = Ok t.
Proof.
  eexists.
  pose proof (reach_insert NewTrie key_abc val_x _ reach_new eq_refl) as Hr.
  split; [exact Hr|]. split; [reflexivity|].
  exact (X10_delete_nothing_to_do _ (bstr "bcd"%string) Hr eq_refl).
Defined.

(** ** DeleteItem on keys that follow the tree *)

Lemma stored_walk n : forall k v, stored n k = Some v -> walk n k.
Proof.
  induction n as [l m d IH] using node_ind'. intros [|k0 r] v;
    [constructor|].
  rewrite stored_cons.
  destruct (emap_get (edges (Node l m d)) k0) as [e|] eqn:E; [|discriminate].
  destruct (strip (label e) (k0 :: r)) as [rest|] eqn:Es; [|discriminate].
  apply strip_spec in Es. intros Hs.
  apply (walk_step _ k0 r e rest E Es). apply (IH k0 e) with (v := v); trivial.
  now apply map_get_In in E.
Qed.

Lemma delete_walk n key :
  walk n key -> wf n ->
  forall isRoot,
    exists r,
      delete isRoot n key = Ok r /\
      forall k2, stored_opt r k2 =
                 if bytes_eq_dec k2 key then None else stored n k2.
Proof.
  induction 1 as [n|n k0 r E|n k0 r e rest E Hk Hw IH]; intros Hwf isRoot.
  - rewrite delete_nil.
    destruct (is_nil (edges n) && negb isRoot) eqn:Ec; eexists;
      (split; [reflexivity|]); intros [|c q]; cbn [stored_opt];
      destruct (bytes_eq_dec _ _) as [Eq|Nq]; try discriminate;
      try contradiction; try reflexivity.
    + apply andb_prop in Ec as [Ec _]. rewrite stored_cons.
      destruct (edges n); [discriminate|reflexivity].
    + now apply stored_cons_edges.
  - rewrite delete_cons, E. eexists. split; [reflexivity|].
    intros k2. cbn [stored_opt].
    destruct (bytes_eq_dec k2 (k0 :: r)) as [->|]; [|reflexivity].
    now rewrite stored_cons, E.
  - rewrite delete_cons, E, Hk, slice_from_app. cbn [bind].
    destruct (wf_get n k0 e Hwf E) as [_ Hwe].
    destruct (IH Hwe false) as (deleted & Ed & Hsub).
    rewrite Ed. cbn [bind].
    apply deleteUnwind_stored; trivial.
    now apply (delete_wf (next e) Hwe false rest).
Qed.

(** X8: [DeleteItem(k)] works as intended on every key that follows the
    tree, stored or not: it returns, [HasItem(k)] is false afterwards, every
    other key keeps its [HasItem] and its stored value, and when [k] was not
    stored the content is what it was. *)
Theorem X8_delete_along_walk t k :
  reachable t -> walk (root t) k ->
  exists t',
    DeleteItem t k = Ok t' /\ HasItem t' k = false /\
    (forall k2, k2 <> k ->
       HasItem t' k2 = HasItem t k2 /\
       (HasItem t k2 = true -> GetItem t' k2 = GetItem t k2)) /\
    (HasItem t k = false -> same_content t' t).
Proof.
  intros Hr Hw. destruct (reachable_wf t Hr) as [Hwf _].
  destruct (delete_walk (root t) k Hw Hwf true) as (r & E & Hst).
  unfold DeleteItem. rewrite E. cbn [bind].
  destruct r as [n|]; [|now apply delete_root_not_nil in E].
  eexists. split; [reflexivity|]. cbn [stored_opt] in Hst.
  assert (Hfr : forall k2, k2 <> k -> stored n k2 = stored (root t) k2).
  { intros k2 Hne. rewrite Hst. now destruct (bytes_eq_dec k2 k). }
  split; [|split].
  - rewrite HasItem_stored. cbn [root]. rewrite Hst.
    now destruct (bytes_eq_dec k k).
  - intros k2 Hne. rewrite !HasItem_stored. cbn [root].
    rewrite (Hfr k2 Hne). split; [reflexivity|].
    destruct (stored (root t) k2) as [v2|] eqn:Ev2; [|discriminate]. intros _.
    rewrite (GetItem_stored t k2 v2 Ev2). apply GetItem_stored. cbn [root].
    now rewrite (Hfr k2 Hne).
  - intros Hh. apply stored_same_content. cbn [root]. intros k2.
    destruct (bytes_eq_dec k2 k) as [->|Hne]; [|now apply Hfr].
    rewrite Hst. destruct (bytes_eq_dec k k); [|contradiction].
    rewrite HasItem_stored in Hh. now destruct (stored (root t) k).
Qed.

Lemma X8_delete_along_walk_witness :
  exists t,
    reachable t /\ walk (root t) key_ab /\
    exists t',
      DeleteItem t key_ab = Ok t' /\ HasItem t' key_ab = false /\
      (forall k2, k2 <> key_ab ->
         HasItem t' k2 = HasItem t k2 /\
         (HasItem t k2 = true -> GetItem t' k2 = GetItem t k2)) /\
      (HasItem t key_ab = false -> same_content t' t).
Proof.
  eexists.
  pose proof (run_reachable [OpInsert key_abc val_x; OpInsert key_abd val_y]
                            _ eq_refl) as Hr.
  split; [exact Hr|].
  match goal with |- ?W /\ _ => assert (Hw : W) end.
  { eapply walk_step; [reflexivity|reflexivity|apply walk_end]. }
  split; [exact Hw|]. exact (X8_delete_along_walk _ key_ab Hr Hw).
Defined.

(** ** The faults of DeleteItem *)

Lemma deleteUnwind_ok isRoot n k0 e deleted :
  emap_get (edges n) k0 = Some e ->
  exists r, deleteUnwind isRoot n k0 e deleted = Ok r.
Proof.
  intros E. destruct n as [l [m|] d]; [|discriminate].
  unfold deleteUnwind. destruct deleted as [dn|].
  - destruct ((emap_len (edges dn) =? 1) && negb (isLeaf dn)); [|eauto].
    cbn [edges emap_del].
    assert (H : forall es m0,
               exists m1,
                 fold_left
                   (fun (acc : result emap) (kv : byte * edge) =>
                      m <- acc ;;
                      emap_set m k0
                        {| label := label e ++ label (snd kv);
                           next := next (snd kv) |})
                   es (Ok (Some m0)) = Ok (Some m1)).
    { induction es as [|kv es IH]; intros m0; cbn [fold_left bind emap_set];
        eauto. }
    destruct (H (elems (edges dn)) (map_del m k0)) as [m1 ->].
    cbn [bind]. eauto.
  - match goal with |- context [if ?c then _ else _] => destruct c end; eauto.
Qed.

Lemma delete_faults n :
  forall isRoot key,
    (exists r, delete isRoot n key = Ok r) \/
    delete isRoot n key = Panic SliceBounds.
Proof.
  induction n as [l m d IH] using node_ind'. intros isRoot [|k0 key].
  - left. rewrite delete_nil.
    destruct (is_nil (edges (Node l m d)) && negb isRoot); eauto.
  - rewrite delete_cons.
    destruct (emap_get (edges (Node l m d)) k0) as [e|] eqn:E; [|eauto].
    unfold slice_from.
    destruct (length (label e) <=? length (k0 :: key)); [|now right].
    cbn [bind]. assert (Hin := map_get_In _ _ _ E).
    destruct (IH k0 e Hin false (skipn (length (label e)) (k0 :: key)))
      as [[r ->]| ->]; [|now right].
    cbn [bind]. left. now apply deleteUnwind_ok.
Qed.

(** X9: [DeleteItem] either returns or panics on the slice
    [key[len(currEdge.label):]]; it has no other fault, and it does not
    panic on a stored key nor on any key that follows the tree. *)
Theorem X9_delete_only_slice_fault t k :
  reachable t ->
  (exists t', DeleteItem t k = Ok t') \/
  (DeleteItem t k = Panic SliceBounds /\
   HasItem t k = false /\ ~ walk (root t) k).
Proof.
  intros Hr. destruct (reachable_wf t Hr) as [Hwf _].
  unfold DeleteItem.
  destruct (delete_faults (root t) true k) as [[r E]|E].
  - left. rewrite E. cbn [bind].
    destruct r as [n|]; [eauto|now apply delete_root_not_nil in E].
  - right. rewrite E. split; [reflexivity|].
    assert (Hnw : ~ walk (root t) k).
    { intros Hw. destruct (delete_walk (root t) k Hw Hwf true) as (r & E' & _).
      congruence. }
    split; [|exact Hnw].
    rewrite HasItem_stored. destruct (stored (root t) k) as [v|] eqn:Ev;
      [|reflexivity].
    elim Hnw. exact (stored_walk _ _ _ Ev).
Qed.

Lemma X9_delete_only_slice_fault_witness :
  exists t,
    reachable t /\
    ((exists t', DeleteItem t key_a = Ok t') \/
     (DeleteItem t key_a = Panic SliceBounds /\
      HasItem t key_a = false /\ ~ walk (root t) key_a)).
Proof.
  eexists.
  pose proof (reach_insert NewTrie key_abc val_x _ reach_new eq_refl) as Hr.
  split; [exact Hr|]. exact (X9_delete_only_slice_fault _ key_a Hr).
Defined.

(** ** Tries built by insertions alone, again *)

Lemma canonBelow_getNode cur :
  canonBelow cur ->
  forall p n,
    p <> [] -> getNode cur p = Some n ->
    nodeCompact n = true /\ (isLeaf n = false -> data n = None).
Proof.
  induction cur as [l m d IH] using node_ind'. intros Hc [|x b] n Hp;
    [congruence|].
  rewrite getNode_cons.
  destruct (emap_get (edges (Node l m d)) x) as [e|] eqn:E; [|discriminate].
  destruct (strip (label e) (x :: b)) as [r'|]; [|discriminate].
  apply map_get_In in E. apply canonBelow_inv in Hc as (Hc1 & Hc2 & Hc3).
  destruct r' as [|y r'].
  - rewrite getNode_nil. intros [= <-]. split; eauto.
  - apply (IH x e E (Hc3 x e E)). discriminate.
Qed.

(** X11: in a trie built by insertions alone every node other than the root
    is a leaf or has at least two outgoing edges (no edge could be merged
    with the next), and a node that is not a leaf carries no data. *)
Theorem X11_inserted_compact t p n :
  inserted t -> p <> [] -> getNode (root t) p = Some n ->
  (isLeaf n = true \/ 2 <= emap_len (edges n)) /\
  (isLeaf n = false -> data n = None).
Proof.
  intros Hi Hp Hg. destruct (inserted_canon t Hi) as [Hc _].
  destruct (canonBelow_getNode (root t) Hc p n Hp Hg) as [H1 H2].
  split; [|exact H2]. unfold nodeCompact in H1.
  destruct (isLeaf n); [now left|right]. now apply Nat.leb_le in H1.
Qed.

Lemma X11_inserted_compact_witness :
  exists t n,
    inserted t /\ key_ab <> [] /\ getNode (root t) key_ab = Some n /\
    (isLeaf n = true \/ 2 <= emap_len (edges n)) /\
    (isLeaf n = false -> data n = None).
Proof.
  eexists _, _.
  pose proof (run_inserted [OpInsert key_abc val_x; OpInsert key_abd val_y]
                           _ eq_refl eq_refl) as Hi.
  split; [exact Hi|]. split; [discriminate|]. split; [reflexivity|].
  apply (X11_inserted_compact _ key_ab _ Hi); [discriminate|reflexivity].
Defined.

Lemma InsertItem_content t k d :
  wf (root t) ->
  exists t',
    InsertItem t k d = Ok t' /\ wf (root t') /\
    forall k2, stored (root t') k2 =
               match k with
               | [] => stored (root t) k2
               | _ :: _ => if bytes_eq_dec k2 k then Some d
                           else stored (root t) k2
               end.
Proof.
  intros Hwf.
  destruct (InsertItem_spec t k d Hwf)
    as (t' & E & Hwf' & _ & _ & Hnil & Hs & Hfr).
  exists t'. split; [exact E|]. split; [exact Hwf'|]. intros k2.
  destruct k as [|k0 k]; [now rewrite (Hnil eq_refl)|].
  destruct (bytes_eq_dec k2 (k0 :: k)) as [->|Hne]; [|now apply Hfr].
  apply Hs. discriminate.
Qed.

(** X12: two insertions of different keys can be made in either order.
    From a trie built by insertions alone both orders return tries with the
    same content and the same nodes and edges, up to the order in which the
    maps hold the edges. *)
Theorem X12_insert_commutes t k1 d1 k2 d2 :
  inserted t -> k1 <> k2 ->
  exists t1 t12 t2 t21,
    InsertItem t k1 d1 = Ok t1 /\ InsertItem t1 k2 d2 = Ok t12 /\
    InsertItem t k2 d2 = Ok t2 /\ InsertItem t2 k1 d1 = Ok t21 /\
    same_content t12 t21 /\ equiv (root t12) (root t21).
Proof.
  intros Hi Hne.
  destruct (reachable_wf t (inserted_reachable t Hi)) as [Hwf _].
  destruct (InsertItem_content t k1 d1 Hwf) as (t1 & E1 & Hwf1 & H1).
  destruct (InsertItem_content t1 k2 d2 Hwf1) as (t12 & E12 & _ & H12).
  destruct (InsertItem_content t k2 d2 Hwf) as (t2 & E2 & Hwf2 & H2).
  destruct (InsertItem_content t2 k1 d1 Hwf2) as (t21 & E21 & _ & H21).
  exists t1, t12, t2, t21. repeat (split; [assumption|]).
  assert (Hsame : same_content t12 t21).
  { apply stored_same_content. intros k. rewrite H12, H21, H1, H2.
    destruct k1 as [|a1 k1], k2 as [|a2 k2]; try reflexivity.
    destruct (bytes_eq_dec k (a2 :: k2)) as [H2'|],
             (bytes_eq_dec k (a1 :: k1)) as [H1'|]; try reflexivity.
    congruence. }
  split; [exact Hsame|].
  apply inserted_equiv; trivial.
  - exact (inserted_insert _ _ _ _ (inserted_insert _ _ _ _ Hi E1) E12).
  - exact (inserted_insert _ _ _ _ (inserted_insert _ _ _ _ Hi E2) E21).
Qed.

Lemma X12_insert_commutes_witness :
  exists t,
    inserted t /\ key_ab <> key_a /\
    exists t1 t12 t2 t21,
      InsertItem t key_ab val_x = Ok t1 /\ InsertItem t1 key_a val_y = Ok t12 /\
      InsertItem t key_a val_y = Ok t2 /\ InsertItem t2 key_ab val_x = Ok t21 /\
      same_content t12 t21 /\ equiv (root t12) (root t21).
Proof.
  eexists.
  pose proof (run_inserted [OpInsert key_abc val_z] _ eq_refl eq_refl) as Hi.
  split; [exact Hi|]. split; [discriminate|].
  apply (X12_insert_commutes _ key_ab val_x key_a val_y Hi). discriminate.
Defined.

(** ** Keys after an insertion and after a deletion *)

(** X13: after [InsertItem(k, d)] with a non-empty key, [Keys(p)] lists the
    keys it listed before and, when [k] starts with [p], also [k]; nothing
    else. *)
Theorem X13_keys_after_insert t k d p :
  reachable t -> k <> [] ->
  exists t' l l',
    InsertItem t k d = Ok t' /\ Keys t p = Ok l /\ Keys t' p = Ok l' /\
    NoDup l' /\
    forall x, In x l' <-> (In x l \/ (x = k /\ exists r, k = p ++ r)).
Proof.
  intros Hr Hk. destruct (reachable_wf t Hr) as [Hwf _].
  destruct (InsertItem_content t k d Hwf) as (t' & E & Hwf' & Hst).
  destruct (Keys_spec t p Hwf) as (l & El & _ & Hl).
  destruct (Keys_spec t' p Hwf') as (l' & El' & Hnd' & Hl').
  exists t', l, l'. repeat (split; [assumption|]).
  intros x. rewrite Hl', Hl, !HasItem_stored, Hst.
  destruct k as [|k0 k]; [congruence|].
  destruct (bytes_eq_dec x (k0 :: k)) as [->|Hne].
  - split; [intros [_ Hp]; now right|].
    intros [[_ Hp]|[_ Hp]]; now split.
  - split; [intros H; now left|].
    intros [H|[Heq _]]; [exact H|contradiction].
Qed.

Lemma X13_keys_after_insert_witness :
  exists t,
    reachable t /\ key_abd <> [] /\
    exists t' l l',
      InsertItem t key_abd val_y = Ok t' /\ Keys t key_ab = Ok l /\
      Keys t' key_ab = Ok l' /\ NoDup l' /\
      forall x, In x l' <->
                (In x l \/ (x = key_abd /\ exists r, key_abd = key_ab ++ r)).
Proof.
  eexists.
  pose proof (reach_insert NewTrie key_abc val_x _ reach_new eq_refl) as Hr.
  split; [exact Hr|]. split; [discriminate|].
  apply (X13_keys_after_insert _ key_abd val_y key_ab Hr). discriminate.
Defined.

(** X14: after [DeleteItem(k)] of a stored key, [Keys(p)] lists the keys it
    listed before except [k]. *)
Theorem X14_keys_after_delete t k p :
  reachable t -> HasItem t k = true ->
  exists t' l l',
    DeleteItem t k = Ok t' /\ Keys t p = Ok l /\ Keys t' p = Ok l' /\
    NoDup l' /\
    forall x, In x l' <-> (In x l /\ x <> k).
Proof.
  intros Hr Hh. destruct (reachable_wf t Hr) as [Hwf Hl0].
  rewrite HasItem_stored in Hh.
  destruct (stored (root t) k) as [v|] eqn:Ev; [|discriminate].
  destruct (DeleteItem_stored t k v Hwf Ev) as (t' & E & _ & Hst).
  destruct (DeleteItem_wf t k t' (conj Hwf Hl0) E) as [Hwf' _].
  destruct (Keys_spec t p Hwf) as (l & El & _ & Hl).
  destruct (Keys_spec t' p Hwf') as (l' & El' & Hnd' & Hl').
  exists t', l, l'. repeat (split; [assumption|]).
  intros x. rewrite Hl', Hl, !HasItem_stored, Hst.
  destruct (bytes_eq_dec x k) as [->|Hne].
  - split; [intros [H _]; discriminate|intros [_ H]; contradiction].
  - split; [intros H; now split|intros [H _]; exact H].
Qed.

Lemma X14_keys_after_delete_witness :
  exists t,
    reachable t /\ HasItem t key_abc = true /\
    exists t' l l',
      DeleteItem t key_abc = Ok t' /\ Keys t key_ab = Ok l /\
      Keys t' key_ab = Ok l' /\ NoDup l' /\
      forall x, In x l' <-> (In x l /\ x <> key_abc).
Proof.
  eexists.
  pose proof (run_reachable [OpInsert key_abc val_x; OpInsert key_abd val_y]
                            _ eq_refl) as Hr.
  split; [exact Hr|]. split; [reflexivity|].
  exact (X14_keys_after_delete _ key_abc key_ab Hr eq_refl).
Defined.

(** ** What a traversal visits *)

(** X15: a traversal whose callback always goes on calls it once for every
    node of the trie, the root first, with the number of edges down to the
    node, the path that spells it, its data and its leaf flag; the calls
    with the leaf flag set are those of the stored keys with their data. *)
Theorem X15_traverse_visits_every_node t :
  reachable t ->
  exists cs,
    Traverse t record [] = Ok (cs, None) /\
    hd_error cs = Some (0, [], data (root t), false) /\
    NoDup (map cpath cs) /\
    (forall c, In c cs <->
               exists m, reaches (root t) (cpath c) (cstep c) m /\
                         cdata c = data m /\ cleaf c = isLeaf m) /\
    (forall c, In c cs ->
               getNode (root t) (cpath c) <> None /\
               cstep c <= length (cpath c)) /\
    (forall k v, (exists d, In (d, k, v, true) cs) <->
                 (HasItem t k = true /\ GetItem t k = Ok v)).
Proof.
  intros Hr. destruct (reachable_wf t Hr) as [Hwf Hl].
  destruct (Traverse_record t Hwf) as (cs & E & Hhd & Hin & Hss).
  exists cs. split; [exact E|]. split; [now rewrite <- Hl|].
  split; [|split; [|split]].
  - apply (StronglySorted_NoDup _ _ (fun p => pathRel_irrefl _ p
                                        (keyRel_irrefl (sorted t))) Hss).
  - intros c. rewrite Hin. split.
    + intros (r & d & m & Hre & ->). exists m. now repeat split.
    + intros (m & Hre & Hd & Hlf). exists (cpath c), (cstep c), m.
      split; [exact Hre|]. destruct c as [[[s p] d] lf].
      cbn [cpath cstep cdata cleaf] in *. now subst.
  - intros c Hc. apply Hin in Hc as (r & d & m & Hre & ->).
    cbn [cpath cstep]. rewrite (reaches_getNode _ _ _ _ Hwf Hre).
    split; [discriminate|]. exact (reaches_depth _ _ _ _ Hwf Hre).
  - intros k v. split.
    + intros [d Hc]. apply Hin in Hc as (r & d' & m & Hre & [= -> -> -> Hlf]).
      pose proof (reaches_getNode _ _ _ _ Hwf Hre) as Hg.
      unfold HasItem, GetItem. rewrite Hg. now split.
    + intros [Hh Hg]. unfold HasItem in Hh. unfold GetItem in Hg.
      destruct (getNode (root t) k) as [m|] eqn:Em; [|discriminate].
      injection Hg as <-. destruct (getNode_reaches _ _ _ Em) as [d Hre].
      exists d. apply Hin. exists k, d, m. split; [exact Hre|]. now rewrite Hh.
Qed.

Lemma X15_traverse_visits_every_node_witness :
  exists t,
    reachable t /\
    exists cs,
      Traverse t record [] = Ok (cs, None) /\
      hd_error cs = Some (0, [], data (root t), false) /\
      NoDup (map cpath cs) /\
      (forall c, In c cs <->
                 exists m, reaches (root t) (cpath c) (cstep c) m /\
                           cdata c = data m /\ cleaf c = isLeaf m) /\
      (forall c, In c cs ->
                 getNode (root t) (cpath c) <> None /\
                 cstep c <= length (cpath c)) /\
      (forall k v, (exists d, In (d, k, v, true) cs) <->
                   (HasItem t k = true /\ GetItem t k = Ok v)).
Proof.
  eexists.
  pose proof (run_reachable
                [OpInsert key_abc val_x; OpInsert key_abd val_y;
                 OpInsert key_a val_z; OpDelete key_abc] _ eq_refl) as Hr.
  split; [exact Hr|]. exact (X15_traverse_visits_every_node _ Hr).
Defined.

(** X16: with the sorted flag enabled the paths of the calls come in
    strictly ascending lexicographic order. *)
Theorem X16_sorted_traverse_lexicographic t :
  reachable t -> sorted t = true ->
  exists cs,
    Traverse t record [] = Ok (cs, None) /\
    StronglySorted (pathRel byte_lt) (map cpath cs).
Proof.
  intros Hr Hs. destruct (reachable_wf t Hr) as [Hwf _].
  destruct (Traverse_record t Hwf) as (cs & E & _ & _ & Hss).
  exists cs. split; [exact E|]. now rewrite Hs in Hss.
Qed.

Lemma X16_sorted_traverse_lexicographic_witness :
  exists t,
    reachable t /\ sorted t = true /\
    exists cs,
      Traverse t record [] = Ok (cs, None) /\
      StronglySorted (pathRel byte_lt) (map cpath cs).
Proof.
  eexists.
  pose proof (run_reachable
                [OpInsert key_ac val_x; OpInsert key_abd val_y;
                 OpInsert key_a val_z; OpSorted true] _ eq_refl) as Hr.
  split; [exact Hr|]. split; [reflexivity|].
  exact (X16_sorted_traverse_lexicographic _ Hr eq_refl).
Defined.

(** ** The example program *)

Lemma StronglySorted_map_filter {A B} (R : B -> B -> Prop) (f : A -> B) p l :
  StronglySorted R (map f l) -> StronglySorted R (map f (filter p l)).
Proof.
  induction l as [|x l IH]; cbn [map filter]; intros H; [constructor|].
  apply StronglySorted_inv in H as [H Hf].
  destruct (p x); [|now apply IH]. cbn [map]. constructor; [now apply IH|].
  rewrite Forall_forall in *. intros b Hb. apply Hf.
  apply in_map_iff in Hb as (a & <- & Ha). apply filter_In in Ha as [Ha _].
  now apply in_map.
Qed.

Lemma printFile_fold cs : forall w,
  fold_left (fun s c => fst (printFile (cstep c) (cpath c) (cdata c) (cleaf c) s))
            cs w =
  w ++ flat_map (fun k => k ++ [Byte.x0a])
         (map cpath
              (filter (fun c => bytesEqual (cdata c) (Some file) && cleaf c) cs)).
Proof.
  induction cs as [|c cs IH]; intros w; cbn [fold_left filter map flat_map].
  - now rewrite app_nil_r.
  - rewrite IH. unfold printFile. cbn [fst].
    destruct (bytesEqual (cdata c) (Some file) && cleaf c);
      [|reflexivity].
    cbn [map flat_map]. unfold Fprintln. now rewrite <- !app_assoc.
Qed.

Lemma bytesEqual_file d : bytesEqual d (Some file) = true <-> d = Some file.
Proof.
  split.
  - destruct d as [x|]; unfold bytesEqual; intros H.
    + now rewrite (bytes_eqb_eq _ _ H).
    + discriminate.
  - now intros ->.
Qed.

(** X17: [PrintFiles] of the example returns no error and writes, after
    what was written before, one line for each stored key whose data is
    "file": the key followed by a newline, every such key once, in
    ascending order when the sorted flag is enabled. *)
Theorem X17_PrintFiles_lines st :
  reachable (trie st) ->
  exists ks,
    PrintFiles st =
    Ok ({| trie := trie st;
           out := out st ++ flat_map (fun k => k ++ [Byte.x0a]) ks |}, None) /\
    NoDup ks /\
    (forall k, In k ks <->
               (HasItem (trie st) k = true /\
                GetItem (trie st) k = Ok (Some file))) /\
    (sorted (trie st) = true -> StronglySorted (pathRel byte_lt) ks).
Proof.
  intros Hr. destruct (reachable_wf _ Hr) as [Hwf _].
  destruct (Traverse_record _ Hwf) as (cs & E & _ & Hin & Hss).
  destruct (traverse_continue printFile
              (fun c s => fst (printFile (cstep c) (cpath c) (cdata c)
                                         (cleaf c) s))
              (fun step path d lf s => eq_refl)
              (S (height (root (trie st)))) (root (trie st)) Hwf
              (Nat.lt_succ_diag_r _) (sorted (trie st)) 0 [] [] (out st))
    as (cs' & Er & Ef).
  unfold Traverse in E. rewrite E in Er. injection Er as <-.
  set (sel := fun c : call => bytesEqual (cdata c) (Some file) && cleaf c).
  exists (map cpath (filter sel cs)).
  assert (Hs : StronglySorted (pathRel (keyRel (sorted (trie st))))
                              (map cpath (filter sel cs)))
    by now apply StronglySorted_map_filter.
  split; [|split; [|split]].
  - unfold PrintFiles, Traverse. rewrite Ef. cbn [bind].
    now rewrite printFile_fold.
  - apply (StronglySorted_NoDup _ _ (fun p => pathRel_irrefl _ p
                                        (keyRel_irrefl _)) Hs).
  - intros k. rewrite in_map_iff. split.
    + intros (c & <- & Hc). apply filter_In in Hc as [Hc Hsel].
      apply Hin in Hc as (r & d & m & Hre & ->).
      unfold sel in Hsel. cbn [cpath cdata cleaf] in *.
      apply andb_true_iff in Hsel as [Hd Hl]. apply bytesEqual_file in Hd.
      pose proof (reaches_getNode _ _ _ _ Hwf Hre) as Hg.
      unfold HasItem, GetItem. rewrite Hg. split; [exact Hl|now rewrite Hd].
    + intros [Hh Hg]. unfold HasItem in Hh. unfold GetItem in Hg.
      destruct (getNode (root (trie st)) k) as [m|] eqn:Em; [|discriminate].
      injection Hg as Hd. destruct (getNode_reaches _ _ _ Em) as [d Hre].
      exists (d, k, data m, isLeaf m). split; [reflexivity|].
      apply filter_In. split.
      * apply Hin. now exists k, d, m.
      * unfold sel. cbn [cdata cleaf]. rewrite Hh, Hd. reflexivity.
  - intros Hsrt. now rewrite Hsrt in Hs.
Qed.

Lemma X17_PrintFiles_lines_witness :
  exists st,
    reachable (trie st) /\
    exists ks,
      PrintFiles st =
      Ok ({| trie := trie st;
             out := out st ++ flat_map (fun k => k ++ [Byte.x0a]) ks |}, None) /\
      NoDup ks /\
      (forall k, In k ks <->
                 (HasItem (trie st) k = true /\
                  GetItem (trie st) k = Ok (Some file))) /\
      (sorted (trie st) = true -> StronglySorted (pathRel byte_lt) ks).
Proof.
  pose proof (run_reachable
                [OpInsert key_ac (Some file); OpInsert key_abd (Some dir);
                 OpInsert key_a (Some file); OpSorted true] _ eq_refl) as Hr.
  eexists {| trie := _; out := [] |}. cbn [trie out].
  split; [exact Hr|].
  exact (X17_PrintFiles_lines {| trie := _; out := [] |} Hr).
Defined.

(** ** Errors and early stops of the callback *)

Section Tracing.
Context {St Err : Type} (fn : TFunc St Err).

Lemma stopsRespected_app (s : nat) (l1 l2 : list (call * (bool * option Err))) :
  stopsRespected l1 -> stopsRespected l2 ->
  Forall (fun x => s <= estep x) l1 ->
  (forall c l, l2 = c :: l -> estep c <= s) ->
  stopsRespected (l1 ++ l2).
Proof.
  induction l1 as [|a l1 IH]; intros H1 H2 Hf Hhd; [exact H2|].
  apply Forall_cons_iff in Hf as [Ha Hf]. destruct H1 as [H1a H1].
  cbn [app stopsRespected]. split; [|now apply IH].
  destruct l1 as [|b l1]; cbn [app]; [|exact H1a].
  destruct l2 as [|c l2]; [trivial|]. intros _.
  specialize (Hhd c l2 eq_refl). lia.
Qed.

Lemma stopsRespected_split (pre : list (call * (bool * option Err))) c1 c2 post :
  stopsRespected (pre ++ c1 :: c2 :: post) ->
  econt c1 = false -> estep c2 <= estep c1.
Proof.
  induction pre as [|a pre IH]; cbn [app]; intros [H1 H2].
  - exact H1.
  - now apply IH.
Qed.

Lemma errorIsLast_app (l1 l2 : list (call * (bool * option Err))) err :
  errorIsLast l1 None -> errorIsLast l2 err -> errorIsLast (l1 ++ l2) err.
Proof.
  unfold errorIsLast. intros H1 H2. destruct err as [x|].
  - destruct H2 as (pre & c & -> & Hp & Hc). exists (l1 ++ pre), c.
    rewrite app_assoc. split; [reflexivity|]. split; [|exact Hc].
    apply Forall_app. now split.
  - apply Forall_app. now split.
Qed.

Lemma traverse_tracing fuel :
  forall n srt step path s log r,
    traverse fuel srt (Some n) step path (tracing fn) (s, log) = Ok r ->
    traverse fuel srt (Some n) step path fn s = Ok (fst (fst r), snd r) /\
    exists c ext,
      snd (fst r) = log ++ c :: ext /\
      fst c = (step, path, data n, isLeaf n) /\
      Forall (fun x => step < estep x) ext /\
      stopsRespected (c :: ext) /\
      errorIsLast (c :: ext) (snd r).
Proof.
  induction fuel as [|fuel IH]; intros n srt step path s log r; [discriminate|].
  cbn [traverse]. unfold tracing at 1. cbn [fst snd].
  destruct (fn step path (data n) (isLeaf n) s) as [s1 [continue [e|]]] eqn:Efn.
  - intros [= <-]. cbn [fst snd]. split; [reflexivity|].
    eexists _, []. split; [reflexivity|]. split; [reflexivity|].
    split; [constructor|]. split; [now split|].
    eexists [], _. split; [reflexivity|]. split; [constructor|reflexivity].
  - destruct continue; cbn [negb].
    2:{ intros [= <-]. cbn [fst snd]. split; [reflexivity|].
        eexists _, []. split; [reflexivity|]. split; [reflexivity|].
        split; [constructor|]. split; [now split|].
        constructor; [reflexivity|constructor]. }
    set (c0 := ((step, path, data n, isLeaf n), (true, @None Err))).
    assert (Hloop : forall ks sl r,
               forKeys
                 (fun k s =>
                    match emap_get (edges n) k with
                    | Some e =>
                        traverse fuel srt (Some (next e)) (step + 1)
                                 (path ++ label e) (tracing fn) s
                    | None => Panic NilDereference
                    end) ks sl = Ok r ->
               forKeys
                 (fun k s =>
                    match emap_get (edges n) k with
                    | Some e =>
                        traverse fuel srt (Some (next e)) (step + 1)
                                 (path ++ label e) fn s
                    | None => Panic NilDereference
                    end) ks (fst sl) = Ok (fst (fst r), snd r) /\
               exists ext,
                 snd (fst r) = snd sl ++ ext /\
                 Forall (fun x => step + 1 <= estep x) ext /\
                 (forall c l, ext = c :: l -> estep c <= step + 1) /\
                 stopsRespected ext /\
                 errorIsLast ext (snd r)).
    { induction ks as [|k ks IHks]; intros [s0 l0] r0; cbn [forKeys].
      - intros [= <-]. cbn [fst snd]. split; [reflexivity|].
        exists []. rewrite app_nil_r. split; [reflexivity|].
        split; [constructor|]. split; [discriminate|].
        split; [exact I|constructor].
      - destruct (emap_get (edges n) k) as [e|]; [|discriminate].
        destruct (traverse fuel srt (Some (next e)) (step + 1)
                           (path ++ label e) (tracing fn) (s0, l0))
          as [r1| |] eqn:E1; cbn [bind]; try discriminate.
        destruct (IH _ _ _ _ _ _ _ E1)
          as (Hplain & c & ext1 & Hlog & Hc & Hdeep & Hstop & Herr).
        cbn [fst]. rewrite Hplain. cbn [bind].
        assert (Hc1 : estep c = step + 1) by (unfold estep; now rewrite Hc).
        assert (Hge : Forall (fun x => step + 1 <= estep x) (c :: ext1)).
        { constructor; [lia|]. eapply Forall_impl; [|exact Hdeep].
          cbn beta. intros; lia. }
        destruct r1 as [[s1' l1] [x|]]; cbn [fst snd] in *.
        + intros [= <-]. cbn [fst snd]. split; [reflexivity|].
          exists (c :: ext1). split; [exact Hlog|]. split; [exact Hge|].
          split; [|now split]. intros c' l' [= <- _]. lia.
        + intros Hrest. destruct (IHks _ _ Hrest)
            as (Hplain2 & ext2 & Hlog2 & Hge2 & Hhd2 & Hstop2 & Herr2).
          cbn [fst snd] in *. split; [exact Hplain2|].
          exists ((c :: ext1) ++ ext2). split.
          { now rewrite Hlog2, Hlog, <- app_assoc. }
          split; [apply Forall_app; now split|].
          split; [intros c' l' [= <- _]; lia|].
          split; [now apply (stopsRespected_app (step + 1))|].
          now apply errorIsLast_app. }
    intros Hr. destruct (Hloop _ _ _ Hr)
      as (Hplain & ext & Hlog & Hge & _ & Hstop & Herr).
    cbn [fst snd] in *. split; [exact Hplain|].
    exists c0, ext. split; [now rewrite Hlog, <- app_assoc|].
    split; [reflexivity|].
    split; [eapply Forall_impl; [|exact Hge]; cbn beta; intros; lia|].
    split.
    + cbn [stopsRespected]. split; [|exact Hstop].
      destruct ext; [trivial|]. discriminate.
    + apply (errorIsLast_app [c0] ext); [|exact Herr].
      constructor; [reflexivity|constructor].
Qed.

Lemma Traverse_tracing t s :
  wf (root t) ->
  exists s' log err,
    Traverse t (tracing fn) (s, []) = Ok ((s', log), err) /\
    Traverse t fn s = Ok (s', err) /\
    (exists c ext, log = c :: ext /\
                   fst c = (0, [], data (root t), isLeaf (root t))) /\
    stopsRespected log /\ errorIsLast log err.
Proof.
  intros Hwf. unfold Traverse.
  destruct (traverse_total (S (height (root t))) (root t) Hwf
              (Nat.lt_succ_diag_r _) (sorted t) 0 [] (tracing fn) (s, []))
    as [[[s' log] err] E].
  destruct (traverse_tracing _ _ _ _ _ _ _ _ E)
    as (Hplain & c & ext & Hlog & Hc & _ & Hstop & Herr).
  cbn [fst snd app] in *. exists s', log, err.
  split; [exact E|]. split; [exact Hplain|]. rewrite Hlog.
  split; [now exists c, ext|]. now split.
Qed.

(** X18: [Traverse] stops at the first error of the callback and returns
    it: in the log of the calls only the last one can have given an error,
    which is then the result; with no error the result is nil.  Logging
    the calls does not change the result. *)
Theorem X18_traverse_returns_first_error t s :
  reachable t ->
  exists s' log err,
    Traverse t (tracing fn) (s, []) = Ok ((s', log), err) /\
    Traverse t fn s = Ok (s', err) /\
    match err with
    | None => Forall (fun e => eerr e = None) log
    | Some x => exists pre c, log = pre ++ [c] /\
                              Forall (fun e => eerr e = None) pre /\
                              eerr c = Some x
    end.
Proof.
  intros Hr. destruct (reachable_wf t Hr) as [Hwf _].
  destruct (Traverse_tracing t s Hwf) as (s' & log & err & E & Ep & _ & _ & He).
  exists s', log, err. split; [exact E|]. split; [exact Ep|]. exact He.
Qed.

(** X19: the root is always the first call, and a call answered with
    [false] is followed, if at all, by a call that is not deeper: the
    edges of that node are not followed. *)
Theorem X19_traverse_skips_below_stop t s :
  reachable t ->
  exists s' log err,
    Traverse t (tracing fn) (s, []) = Ok ((s', log), err) /\
    (exists c ext, log = c :: ext /\ fst c = (0, [], data (root t), false)) /\
    forall pre c1 c2 post,
      log = pre ++ c1 :: c2 :: post ->
      econt c1 = false -> estep c2 <= estep c1.
Proof.
  intros Hr. destruct (reachable_wf t Hr) as [Hwf Hl].
  destruct (Traverse_tracing t s Hwf)
    as (s' & log & err & E & _ & Hhd & Hstop & _).
  exists s', log, err. split; [exact E|]. split; [now rewrite <- Hl|].
  intros pre c1 c2 post ->. now apply (stopsRespected_split pre c1 c2 post).
Qed.
End Tracing.

Lemma X18_traverse_returns_first_error_witness :
  exists t,
    reachable t /\
    exists s' log err,
      Traverse t (tracing (fun step _ _ _ s =>
                             (S s, (true, if 2 <=? step then Some step
                                          else None)))) (0, []) =
      Ok ((s', log), err) /\
      Traverse t (fun step _ _ _ s =>
                    (S s, (true, if 2 <=? step then Some step else None))) 0 =
      Ok (s', err) /\
      match err with
      | None => Forall (fun e => eerr e = None) log
      | Some x => exists pre c, log = pre ++ [c] /\
                                Forall (fun e => eerr e = None) pre /\
                                eerr c = Some x
      end.
Proof.
  eexists.
  pose proof (run_reachable
                [OpInsert key_abc val_x; OpInsert key_abd val_y;
                 OpInsert key_a val_z] _ eq_refl) as Hr.
  split; [exact Hr|].
  exact (X18_traverse_returns_first_error
           (fun step _ _ _ s =>
              (S s, (true, if 2 <=? step then Some step else None)))
           _ 0 Hr).
Defined.

Lemma X19_traverse_skips_below_stop_witness :
  exists t,
    reachable t /\
    exists s' log err,
      Traverse t (tracing (fun step _ _ _ (s : nat) =>
                             (S s, (step <? 1, @None unit)))) (0, []) =
      Ok ((s', log), err) /\
      (exists c ext, log = c :: ext /\ fst c = (0, [], data (root t), false)) /\
      forall pre c1 c2 post,
        log = pre ++ c1 :: c2 :: post ->
        econt c1 = false -> estep c2 <= estep c1.
Proof.
  eexists.
  pose proof (run_reachable
                [OpInsert key_abc val_x; OpInsert key_abd val_y;
                 OpInsert key_ac val_z] _ eq_refl) as Hr.
  split; [exact Hr|].
  exact (X19_traverse_skips_below_stop
           (fun step _ _ _ (s : nat) => (S s, (step <? 1, @None unit)))
           _ 0 Hr).
Defined.

(** ** Further round trips and the flag *)

Lemma stored_root_nil t : wf_trie t -> stored (root t) [] = None.
Proof. intros [_ Hl]. now rewrite stored_nil, Hl. Qed.

(** X20: deleting a stored key and inserting it again with the data it had
    brings back the content of the trie. *)
Theorem X20_delete_then_insert t k d :
  reachable t -> HasItem t k = true -> GetItem t k = Ok d ->
  exists t1 t2,
    DeleteItem t k = Ok t1 /\ InsertItem t1 k d = Ok t2 /\
    same_content t2 t.
Proof.
  intros Hr Hh Hg. pose proof (reachable_wf t Hr) as Hwt.
  destruct Hwt as [Hwf Hl].
  rewrite HasItem_stored in Hh.
  destruct (stored (root t) k) as [v|] eqn:Ev; [|discriminate].
  rewrite (GetItem_stored t k v Ev) in Hg. injection Hg as ->.
  assert (Hk : k <> []).
  { intros ->. rewrite (stored_root_nil t (conj Hwf Hl)) in Ev. discriminate. }
  destruct (DeleteItem_stored t k d Hwf Ev) as (t1 & E1 & _ & Hs1).
  destruct (DeleteItem_wf t k t1 (conj Hwf Hl) E1) as [Hwf1 _].
  destruct (InsertItem_content t1 k d Hwf1) as (t2 & E2 & _ & Hs2).
  exists t1, t2. split; [exact E1|]. split; [exact E2|].
  apply stored_same_content. intros k2. rewrite Hs2.
  destruct k as [|k0 k']; [congruence|]. rewrite Hs1.
  destruct (bytes_eq_dec k2 (k0 :: k')) as [->|]; [now rewrite Ev|reflexivity].
Qed.

Lemma X20_delete_then_insert_witness :
  exists t,
    reachable t /\ HasItem t key_ab = true /\ GetItem t key_ab = Ok val_y /\
    exists t1 t2,
      DeleteItem t key_ab = Ok t1 /\ InsertItem t1 key_ab val_y = Ok t2 /\
      same_content t2 t.
Proof.
  eexists.
  pose proof (run_reachable
                [OpInsert key_abc val_x; OpInsert key_ab val_y;
                 OpInsert key_a val_z] _ eq_refl) as Hr.
  split; [exact Hr|]. split; [reflexivity|]. split; [reflexivity|].
  exact (X20_delete_then_insert _ key_ab val_y Hr eq_refl eq_refl).
Defined.

(** X21: of two insertions of the same key the second one wins: the
    content is that of the second insertion alone. *)
Theorem X21_last_insert_wins t k d1 d2 :
  reachable t ->
  exists t1 t12 t2,
    InsertItem t k d1 = Ok t1 /\ InsertItem t1 k d2 = Ok t12 /\
    InsertItem t k d2 = Ok t2 /\ same_content t12 t2.
Proof.
  intros Hr. destruct (reachable_wf t Hr) as [Hwf _].
  destruct (InsertItem_content t k d1 Hwf) as (t1 & E1 & Hwf1 & Hs1).
  destruct (InsertItem_content t1 k d2 Hwf1) as (t12 & E12 & _ & Hs12).
  destruct (InsertItem_content t k d2 Hwf) as (t2 & E2 & _ & Hs2).
  exists t1, t12, t2. repeat (split; [assumption|]).
  apply stored_same_content. intros k2. rewrite Hs12, Hs2.
  destruct k as [|k0 k']; [apply Hs1|]. rewrite Hs1.
  now destruct (bytes_eq_dec k2 (k0 :: k')).
Qed.

Lemma X21_last_insert_wins_witness :
  exists t,
    reachable t /\
    exists t1 t12 t2,
      InsertItem t key_ab val_x = Ok t1 /\ InsertItem t1 key_ab val_y = Ok t12 /\
      InsertItem t key_ab val_y = Ok t2 /\ same_content t12 t2.
Proof.
  eexists.
  pose proof (run_reachable
                [OpInsert key_abc val_x; OpInsert key_a val_z] _ eq_refl) as Hr.
  split; [exact Hr|].
  exact (X21_last_insert_wins _ key_ab val_x val_y Hr).
Defined.

(** X22: the sorted flag matters to [Traverse] alone, and there only to
    the order: after [Sorted(s)] every key has the [HasItem] and [GetItem]
    it had, [Keys] returns the same keys, and a traversal makes the same
    calls, possibly in another order. *)
Theorem X22_Sorted_only_reorders t s :
  reachable t ->
  sorted (Sorted t s) = s /\
  (forall k, HasItem (Sorted t s) k = HasItem t k /\
             GetItem (Sorted t s) k = GetItem t k) /\
  (forall p, exists l l',
      Keys t p = Ok l /\ Keys (Sorted t s) p = Ok l' /\ Permutation l l') /\
  exists cs cs',
    Traverse t record [] = Ok (cs, None) /\
    Traverse (Sorted t s) record [] = Ok (cs', None) /\
    Permutation cs cs'.
Proof.
  intros Hr. destruct (reachable_wf t Hr) as [Hwf _].
  split; [reflexivity|]. split; [now split|]. split.
  { intros p. destruct (Keys_spec t p Hwf) as (l & E & Hnd & Hin).
    destruct (Keys_spec (Sorted t s) p Hwf) as (l' & E' & Hnd' & Hin').
    exists l, l'. split; [exact E|]. split; [exact E'|].
    apply NoDup_Permutation; trivial. intros k. rewrite Hin, Hin'.
    reflexivity. }
  destruct (Traverse_record t Hwf) as (cs & E & _ & Hin & Hss).
  destruct (Traverse_record (Sorted t s) Hwf) as (cs' & E' & _ & Hin' & Hss').
  exists cs, cs'. split; [exact E|]. split; [exact E'|].
  apply NoDup_Permutation.
  - apply (NoDup_map_inv cpath).
    apply (StronglySorted_NoDup _ _ (fun p => pathRel_irrefl _ p
                                       (keyRel_irrefl _)) Hss).
  - apply (NoDup_map_inv cpath).
    apply (StronglySorted_NoDup _ _ (fun p => pathRel_irrefl _ p
                                       (keyRel_irrefl _)) Hss').
  - intros c. rewrite Hin, Hin'. reflexivity.
Qed.

Lemma X22_Sorted_only_reorders_witness :
  exists t,
    reachable t /\
    sorted (Sorted t true) = true /\
    (forall k, HasItem (Sorted t true) k = HasItem t k /\
               GetItem (Sorted t true) k = GetItem t k) /\
    (forall p, exists l l',
        Keys t p = Ok l /\ Keys (Sorted t true) p = Ok l' /\
        Permutation l l') /\
    exists cs cs',
      Traverse t record [] = Ok (cs, None) /\
      Traverse (Sorted t true) record [] = Ok (cs', None) /\
      Permutation cs cs'.
Proof.
  eexists.
  pose proof (run_reachable
                [OpInsert key_ac val_x; OpInsert key_ab val_y;
                 OpInsert key_a val_z] _ eq_refl) as Hr.
  split; [exact Hr|]. exact (X22_Sorted_only_reorders _ true Hr).
Defined.

(** ** The new trie, and where lookups and prefixes land *)

(** X23: a new trie stores nothing: [HasItem] is false and [Keys] is empty
    for every argument, [DeleteItem] hands the trie back, a traversal calls
    the callback for the root alone, [GetItem] of the empty key is nil, and
    [GetItem] and [Set] of any other key dereference nil. *)
Theorem X23_NewTrie_empty k d :
  HasItem NewTrie k = false /\
  Keys NewTrie k = Ok [] /\
  DeleteItem NewTrie k = Ok NewTrie /\
  Traverse NewTrie record [] = Ok ([(0, [], None, false)], None) /\
  match k with
  | [] => GetItem NewTrie k = Ok None /\
          Set_ NewTrie k d = Ok {| root := Node false (Some []) d;
                                   sorted := false |}
  | _ :: _ => GetItem NewTrie k = Panic NilDereference /\
              Set_ NewTrie k d = Panic NilDereference
  end.
Proof.
  assert (Hh : forall k', HasItem NewTrie k' = false) by now intros [|? ?].
  split; [apply Hh|]. split; [|split; [|split]].
  - destruct (Keys_spec NewTrie k) as (l & E & _ & Hin).
    { now destruct (reachable_wf _ reach_new). }
    rewrite E. destruct l as [|x l]; [reflexivity|].
    destruct (proj1 (Hin x) (or_introl eq_refl)) as [Hx _].
    rewrite Hh in Hx. discriminate.
  - now destruct k.
  - reflexivity.
  - destruct k; split; reflexivity.
Qed.

(** X24: lookups compose: when [p] spells the node [m], looking up
    [p ++ q] in the trie is looking up [q] in the trie below [m], for
    [HasItem] and [GetItem] alike. *)
Theorem X24_lookup_composes t p m q :
  getNode (root t) p = Some m ->
  HasItem t (p ++ q) = HasItem {| root := m; sorted := sorted t |} q /\
  GetItem t (p ++ q) = GetItem {| root := m; sorted := sorted t |} q.
Proof.
  intros Hg. unfold HasItem, GetItem. cbn [root].
  now rewrite (getNode_app (root t) p q m Hg).
Qed.

Lemma X24_lookup_composes_witness :
  exists t m,
    getNode (root t) key_a = Some m /\
    HasItem t (key_a ++ bstr "bc"%string) =
    HasItem {| root := m; sorted := sorted t |} (bstr "bc"%string) /\
    GetItem t (key_a ++ bstr "bc"%string) =
    GetItem {| root := m; sorted := sorted t |} (bstr "bc"%string).
Proof.
  exists (match run [OpInsert key_abc val_x; OpInsert key_a val_z] with
          | Ok t => t
          | _ => NewTrie
          end).
  eexists. split; [vm_compute; reflexivity|].
  apply X24_lookup_composes. vm_compute. reflexivity.
Defined.

(** X25: [startsWith(p)] lands on the node at the end of the shortest path
    of the tree that covers [p] and returns the name of that path: the
    path starts with [p] and leads to the node, and the path of every node
    that starts with [p] goes on from it, so that every stored key starting
    with [p] starts with it too.  It returns no node exactly when no path
    of the tree starts with [p]. *)
Theorem X25_startsWith_lands t p :
  reachable t ->
  match startsWith t p with
  | (Some n, pref) =>
      (exists ext, pref = p ++ ext) /\
      (exists d, reaches (root t) pref d n) /\
      (forall r d m, reaches (root t) (p ++ r) d m ->
                     exists r', p ++ r = pref ++ r') /\
      (forall k r, HasItem t k = true -> k = p ++ r -> exists r', k = pref ++ r')
  | (None, _) =>
      (forall r d m, ~ reaches (root t) (p ++ r) d m) /\
      (forall k r, k = p ++ r -> HasItem t k = false)
  end.
Proof.
  intros Hr. destruct (reachable_wf t Hr) as [Hwf _].
  pose proof (startsWithFrom_nodes p (root t) Hwf p) as Hs. unfold startsWith.
  destruct (startsWithFrom p (root t) p) as [[n|] pref].
  - destruct Hs as (ext & -> & Hg & Hall). split; [now exists ext|].
    split; [exact (getNode_reaches _ _ _ Hg)|].
    assert (Hnodes : forall r d m, reaches (root t) (p ++ r) d m ->
                                   exists r', p ++ r = (p ++ ext) ++ r').
    { intros r d m Hre. destruct (Hall r) as [r' ->].
      - now rewrite (reaches_getNode _ _ _ _ Hwf Hre).
      - exists r'. now rewrite app_assoc. }
    split; [exact Hnodes|].
    intros k r Hk ->. unfold HasItem in Hk.
    destruct (getNode (root t) (p ++ r)) as [m|] eqn:Em; [|discriminate].
    destruct (getNode_reaches _ _ _ Em) as [d Hre].
    exact (Hnodes r d m Hre).
  - split.
    + intros r d m Hre. pose proof (Hs r) as Hn.
      rewrite (reaches_getNode _ _ _ _ Hwf Hre) in Hn. discriminate.
    + intros k r ->. unfold HasItem. now rewrite Hs.
Qed.

Lemma X25_startsWith_lands_witness :
  exists t,
    reachable t /\
    match startsWith t key_a with
    | (Some n, pref) =>
        (exists ext, pref = key_a ++ ext) /\
        (exists d, reaches (root t) pref d n) /\
        (forall r d m, reaches (root t) (key_a ++ r) d m ->
                       exists r', key_a ++ r = pref ++ r') /\
        (forall k r, HasItem t k = true -> k = key_a ++ r ->
                     exists r', k = pref ++ r')
    | (None, _) =>
        (forall r d m, ~ reaches (root t) (key_a ++ r) d m) /\
        (forall k r, k = key_a ++ r -> HasItem t k = false)
    end.
Proof.
  eexists.
  pose proof (run_reachable
                [OpInsert key_a val_z; OpInsert key_ab val_y;
                 OpDelete key_ab; OpDelete key_a; OpInsert key_abc val_x]
                _ eq_refl) as Hr.
  split; [exact Hr|]. exact (X25_startsWith_lands _ key_a Hr).
Defined.
